(** * Icon Normalizer (Figma plugin, [figma-plugin/code.js]): a shallow embedding

    The plugin reads the selected icons, sends their SVG to the UI for
    normalization and rebuilds every icon as a ComponentSet with the three
    size variants 16, 24 and 32.

    Conventions of the embedding.
    - A scene-graph node is a tree value carrying the id the host gave it;
      a JavaScript reference to a node is that id.
    - Code that mutates an object through a parameter ([comp] in
      [outlineAndFlatten], [parentFrame] in [createComponentSet]) runs in a
      state-and-exception monad whose state pairs that object with the rest of
      the world, so a mutation made before a [throw] is still there afterwards.
    - The host primitives that the code guards with [try]/[catch]
      ([exportAsync], [createNodeFromSvg], [outlineStroke], [flatten],
      [loadFontAsync], [combineAsVariants], and the writes of [strokes] and
      [strokeWeight]) are fields of a [Host] record and may throw; node
      creation, [appendChild], [resize], [remove] and the property
      assignments outside a [try] are taken to succeed.
    - Names are strings in UTF-8; the characters the pattern of the code
      inspects are ASCII.
    - Numbers are IEEE 754 doubles, with the arithmetic and the comparisons
      of the language; lengths and the three sizes are natural numbers. *)

From Stdlib Require Import Floats List String Ascii Bool Arith ZArith Lia DecimalString.
Import ListNotations.
Local Open Scope string_scope.
Local Open Scope nat_scope.

Set Implicit Arguments.

(** A decimal literal denotes the nearest double, as in the language. *)
#[local] Set Warnings "-inexact-float".

(** ** Strings *)

Module Str.

(** Template-literal rendering of a non-negative integer. *)
Definition ofNat (n : nat) : string := NilEmpty.string_of_uint (Nat.to_uint n).

(** [toUpperCase] on one ASCII letter; every other byte is left alone. *)
Definition upper (c : ascii) : ascii :=
  let n := nat_of_ascii c in
  if (97 <=? n) && (n <=? 122) then ascii_of_nat (n - 32) else c.

(** The white space that [String.prototype.trim] strips, in UTF-8.  One
    byte: U+0009 to U+000D and U+0020.  Two bytes: U+00A0.  Three bytes:
    U+1680, U+2000 to U+200A, U+2028, U+2029, U+202F, U+205F, U+3000 and
    U+FEFF. *)
Definition isSpace1 (a : ascii) : bool :=
  let x := nat_of_ascii a in
  ((9 <=? x) && (x <=? 13)) || (x =? 32).

Definition isSpace2 (a b : ascii) : bool :=
  (nat_of_ascii a =? 194) && (nat_of_ascii b =? 160).

Definition isSpace3 (a b c : ascii) : bool :=
  let x := nat_of_ascii a in
  let y := nat_of_ascii b in
  let z := nat_of_ascii c in
  ((x =? 225) && (y =? 154) && (z =? 128)) ||
  ((x =? 226) && (y =? 128) && (128 <=? z) && (z <=? 138)) ||
  ((x =? 226) && (y =? 128) && ((z =? 168) || (z =? 169) || (z =? 175))) ||
  ((x =? 226) && (y =? 129) && (z =? 159)) ||
  ((x =? 227) && (y =? 128) && (z =? 128)) ||
  ((x =? 239) && (y =? 187) && (z =? 191)).

(** Drops the white space at the front; [sp2] and [sp3] recognise the
    characters of two and of three bytes from the bytes in the order met. *)
Fixpoint strip (sp2 : ascii -> ascii -> bool) (sp3 : ascii -> ascii -> ascii -> bool)
    (s : string) : string :=
  match s with
  | String a s1 =>
      if isSpace1 a then strip sp2 sp3 s1
      else
        match s1 with
        | String b s2 =>
            if sp2 a b then strip sp2 sp3 s2
            else
              match s2 with
              | String c s3 => if sp3 a b c then strip sp2 sp3 s3 else s
              | EmptyString => s
              end
        | EmptyString => s
        end
  | EmptyString => EmptyString
  end.

Definition rev (s : string) : string :=
  string_of_list_ascii (List.rev (list_ascii_of_string s)).

Definition trimStart (s : string) : string := strip isSpace2 isSpace3 s.

(** The white space at the end is the white space at the front of the
    reversed string, its bytes met last to first. *)
Definition trimEnd (s : string) : string :=
  rev (strip (fun a b => isSpace2 b a) (fun a b c => isSpace3 c b a) (rev s)).

Definition trim (s : string) : string := trimEnd (trimStart s).

(** The string of the bytes given by their numbers. *)
Definition ofBytes (l : list nat) : string :=
  string_of_list_ascii (map ascii_of_nat l).

Definition isEmpty (s : string) : bool :=
  match s with EmptyString => true | _ => false end.

(** The text between double quotes. *)
Definition quoted (s : string) : string :=
  String (ascii_of_nat 34) (s ++ String (ascii_of_nat 34) "").

Fixpoint toUpperCase (s : string) : string :=
  match s with
  | String c s' => String (upper c) (toUpperCase s')
  | EmptyString => EmptyString
  end.

Fixpoint startsWith (p s : string) : bool :=
  match p, s with
  | EmptyString, _ => true
  | String a p', String b s' => Ascii.eqb a b && startsWith p' s'
  | String _ _, EmptyString => false
  end.

(** [s.endsWith(p)]: some tail of [s] is [p]. *)
Fixpoint endsWith (p s : string) : bool :=
  String.eqb p s ||
  match s with
  | String _ s' => endsWith p s'
  | EmptyString => false
  end.

End Str.

(** ** Regular expressions, as far as the plugin uses them

    The only pattern of the program is [/[_\-]?(16|24|32)(dp)?$/i]: literals, a
    character class, groups, alternation, the greedy [?] and the [$] assertion.  The
    matcher is the backtracking one of the language: alternatives are tried
    left to right, [?] first tries to match its body, and a continuation
    receives what is left of the subject. *)

Module Regex.

Inductive t : Type :=
| Lit (c : ascii)
| Class (cs : list ascii)
| Seq (r1 r2 : t)
| Alt (r1 r2 : t)
| Opt (r : t)
| Eps
| Eos.

(** Character comparison under the [i] flag. *)
Definition sameChar (a b : ascii) : bool := Ascii.eqb (Str.upper a) (Str.upper b).

Fixpoint exec {A : Type} (r : t) (s : string) (k : string -> option A) : option A :=
  match r with
  | Lit c =>
      match s with
      | String a s' => if sameChar a c then k s' else None
      | EmptyString => None
      end
  | Class cs =>
      match s with
      | String a s' => if existsb (sameChar a) cs then k s' else None
      | EmptyString => None
      end
  | Seq r1 r2 => exec r1 s (fun s1 => exec r2 s1 k)
  | Alt r1 r2 =>
      match exec r1 s k with
      | Some x => Some x
      | None => exec r2 s k
      end
  | Opt r1 =>
      match exec r1 s k with
      | Some x => Some x
      | None => k s
      end
  | Eps => k s
  | Eos =>
      match s with
      | EmptyString => k s
      | String _ _ => None
      end
  end.

(** A match attempt at the start of [s]: the text after the match. *)
Definition matchHere (r : t) (s : string) : option string := exec r s (@Some string).

(** [String.prototype.replace] with a regular expression without the [g]
    flag: the leftmost match is replaced, the rest is kept. *)
Fixpoint replace (r : t) (s : string) (by_ : string) : string :=
  match matchHere r s with
  | Some rest => by_ ++ rest
  | None =>
      match s with
      | String c s' => String c (replace r s' by_)
      | EmptyString => EmptyString
      end
  end.

(** A run of literal characters. *)
Fixpoint word (w : string) : t :=
  match w with
  | EmptyString => Eps
  | String c w' => Seq (Lit c) (word w')
  end.

(** The language of a pattern, read off its syntax: [matches r pre rest] says
    that [r] can consume [pre] when [rest] follows. *)
Fixpoint matches (r : t) (pre rest : string) : Prop :=
  match r with
  | Lit c => exists a, pre = String a "" /\ sameChar a c = true
  | Class cs => exists a, pre = String a "" /\ existsb (sameChar a) cs = true
  | Seq r1 r2 =>
      exists p1 p2, pre = p1 ++ p2 /\ matches r1 p1 (p2 ++ rest) /\ matches r2 p2 rest
  | Alt r1 r2 => matches r1 pre rest \/ matches r2 pre rest
  | Opt r1 => matches r1 pre rest \/ pre = ""
  | Eps => pre = ""
  | Eos => pre = "" /\ rest = ""
  end.

End Regex.

(** [/[_\-]?(16|24|32)(dp)?$/i] *)
Definition sizeSuffixPattern : Regex.t :=
  Regex.Seq (Regex.Opt (Regex.Class ["_"; "-"]%char))
    (Regex.Seq (Regex.Alt (Regex.word "16") (Regex.Alt (Regex.word "24") (Regex.word "32")))
       (Regex.Seq (Regex.Opt (Regex.word "dp")) Regex.Eos)).

(** [result.name.replace(/[_\-]?(16|24|32)(dp)?$/i, '')] of [createComponentSet]. *)
Definition variantSetBase (name : string) : string :=
  Regex.replace sizeSuffixPattern name "".


(** ** Scene-graph nodes *)

Definition NodeId := nat.
Definition Paint := string.

Inductive NodeType : Type :=
| FRAME | GROUP | COMPONENT | INSTANCE | COMPONENT_SET
| VECTOR | BOOLEAN_OPERATION | TEXT.

Definition NodeType_eqb (a b : NodeType) : bool :=
  match a, b with
  | FRAME, FRAME | GROUP, GROUP | COMPONENT, COMPONENT | INSTANCE, INSTANCE
  | COMPONENT_SET, COMPONENT_SET | VECTOR, VECTOR
  | BOOLEAN_OPERATION, BOOLEAN_OPERATION | TEXT, TEXT => true
  | _, _ => false
  end.

Record Box : Type := mkBox {
  box_x : float;
  box_y : float;
  box_width : float;
  box_height : float }.

(** Values of the presentation properties the plugin only writes. *)
Inductive Value : Type :=
| VNum (x : float)
| VStr (s : string)
| VBool (b : bool)
| VPaints (ps : list Paint).

(** A node with the properties the plugin reads or writes.  [node_exportAsync]
    is ['exportAsync' in node]; [node_strokes] and [node_children] are [None]
    on a node that has no such property. *)
#[local] Unset Elimination Schemes.
Inductive Node : Type := mkNode {
  node_id : NodeId;
  node_type : NodeType;
  node_name : string;
  node_visible : bool;
  node_exportAsync : bool;
  node_absoluteBoundingBox : option Box;
  node_width : float;
  node_height : float;
  node_strokes : option (list Paint);
  node_strokeWeight : float;
  node_props : list (string * Value);
  node_children : option (list Node) }.
#[local] Set Elimination Schemes.

Definition set_name (v : string) (n : Node) : Node :=
  mkNode (node_id n) (node_type n) v (node_visible n) (node_exportAsync n)
    (node_absoluteBoundingBox n) (node_width n) (node_height n) (node_strokes n)
    (node_strokeWeight n) (node_props n) (node_children n).

Definition resize (w h : float) (n : Node) : Node :=
  mkNode (node_id n) (node_type n) (node_name n) (node_visible n) (node_exportAsync n)
    (node_absoluteBoundingBox n) w h (node_strokes n)
    (node_strokeWeight n) (node_props n) (node_children n).

Definition set_strokes (v : list Paint) (n : Node) : Node :=
  mkNode (node_id n) (node_type n) (node_name n) (node_visible n) (node_exportAsync n)
    (node_absoluteBoundingBox n) (node_width n) (node_height n) (Some v)
    (node_strokeWeight n) (node_props n) (node_children n).

Definition set_strokeWeight (v : float) (n : Node) : Node :=
  mkNode (node_id n) (node_type n) (node_name n) (node_visible n) (node_exportAsync n)
    (node_absoluteBoundingBox n) (node_width n) (node_height n) (node_strokes n)
    v (node_props n) (node_children n).

Definition set_children (v : option (list Node)) (n : Node) : Node :=
  mkNode (node_id n) (node_type n) (node_name n) (node_visible n) (node_exportAsync n)
    (node_absoluteBoundingBox n) (node_width n) (node_height n) (node_strokes n)
    (node_strokeWeight n) (node_props n) v.

(** Assignment to a presentation property: the last write wins. *)
Definition set_prop (key : string) (v : Value) (n : Node) : Node :=
  mkNode (node_id n) (node_type n) (node_name n) (node_visible n) (node_exportAsync n)
    (node_absoluteBoundingBox n) (node_width n) (node_height n) (node_strokes n)
    (node_strokeWeight n)
    ((key, v) :: filter (fun kv => negb (String.eqb (fst kv) key)) (node_props n))
    (node_children n).

(** [parent.appendChild(child)] on a parent that holds children. *)
Definition appendChild (child : Node) (parent : Node) : Node :=
  match node_children parent with
  | Some cs => set_children (Some (cs ++ [child])%list) parent
  | None => parent
  end.

(** ['strokes' in n && n.strokes && n.strokes.length > 0] *)
Definition hasActiveStrokes (n : Node) : bool :=
  match node_strokes n with
  | Some (_ :: _) => true
  | _ => false
  end.

(** [n.strokes = []; n.strokeWeight = 0] *)
Definition clearStrokes (n : Node) : Node := set_strokeWeight 0 (set_strokes [] n).

(** The node behind a reference, looked up in the subtree below [n] and
    rewritten in place. *)
Fixpoint updateById (id : NodeId) (f : Node -> Node) (n : Node) : Node :=
  let n' :=
    match node_children n with
    | Some cs => set_children (Some (map (updateById id f) cs)) n
    | None => n
    end in
  if node_id n' =? id then f n' else n'.

(** The node behind a reference, looked up in [n] and below it. *)
Fixpoint findById (id : NodeId) (n : Node) : option Node :=
  if node_id n =? id then Some n
  else
    match node_children n with
    | Some cs =>
        (fix each (l : list Node) : option Node :=
           match l with
           | [] => None
           | c :: l' =>
               match findById id c with
               | Some x => Some x
               | None => each l'
               end
           end) cs
    | None => None
    end.

(** The number [n] of the language, exact for every [n] below 2^53. *)
Definition numberOf (n : nat) : float := PrimFloat.of_uint63 (Uint63.of_Z (Z.of_nat n)).

(** ** The world outside the object a function works on *)

Inductive Event : Type :=
| Notify (msg : string) (error : bool)
| ClosePlugin
| ConsoleError (msg e : string)
| ConsoleWarn (msg e : string)
| PostMessage (icons : list (string * string))
| Delay (ms : nat)
| ScrollAndZoomIntoView (ids : list NodeId)
| OutlineStroke (id : NodeId) (threw : bool)
| Flatten (ids : list NodeId) (threw : bool)
| Scan (pass : nat) (found : list NodeId).

(** [w_next] is the id the host gives to the next node the plugin creates,
    [w_removed] the nodes whose [removed] flag is set, [w_selection] is
    [figma.currentPage.selection], [w_log] what the plugin did to the outside,
    oldest first.  [Scan] is a ghost event: it records each evaluation of
    [collectStrokedNodes] in the pass loop and has no counterpart in the code. *)
Record World : Type := mkWorld {
  w_next : NodeId;
  w_removed : list NodeId;
  w_selection : list Node;
  w_log : list Event }.

(** ** State and exceptions *)

Inductive Res (A : Type) : Type :=
| Ok (a : A)
| Throw (e : string).
Arguments Ok {A} a.
Arguments Throw {A} e.

Definition M (S A : Type) : Type := S -> Res A * S.

Definition ret {S A : Type} (a : A) : M S A := fun s => (Ok a, s).

Definition bind {S A B : Type} (m : M S A) (k : A -> M S B) : M S B :=
  fun s => match m s with
           | (Ok a, s') => k a s'
           | (Throw e, s') => (Throw e, s')
           end.

Definition throw {S A : Type} (e : string) : M S A := fun s => (Throw e, s).

(** [try { m } catch (e) { h e }]: the handler starts from the state at the
    [throw]. *)
Definition tryCatch {S A : Type} (m : M S A) (h : string -> M S A) : M S A :=
  fun s => match m s with
           | (Ok a, s') => (Ok a, s')
           | (Throw e, s') => h e s'
           end.

Definition get {S : Type} : M S S := fun s => (Ok s, s).
Definition modify {S : Type} (f : S -> S) : M S unit := fun s => (Ok tt, f s).

Declare Scope monad_scope.
Delimit Scope monad_scope with monad.
Notation "x <- m ;; k" := (bind m (fun x => k))
  (at level 61, m at next level, right associativity) : monad_scope.
Notation "m ;;; k" := (bind m (fun _ => k))
  (at level 61, right associativity) : monad_scope.
Local Open Scope monad_scope.

(** [for (const x of xs) body] *)
Fixpoint forEach {S A : Type} (xs : list A) (body : A -> M S unit) : M S unit :=
  match xs with
  | [] => ret tt
  | x :: xs' => body x ;;; forEach xs' body
  end.

(** A loop that updates a local variable [acc] of the enclosing function. *)
Fixpoint forAcc {S A B : Type} (xs : list A) (acc : B) (body : B -> A -> M S B) : M S B :=
  match xs with
  | [] => ret acc
  | x :: xs' => acc' <- body acc x ;; forAcc xs' acc' body
  end.

(** The state of a function that mutates the object [o] it was handed. *)
Definition Obj : Type := (Node * World)%type.

Definition self : M Obj Node := fun s => (Ok (fst s), s).
Definition update (f : Node -> Node) : M Obj unit := modify (fun s => (f (fst s), snd s)).

(** A computation on the world alone, run while an object is held. *)
Definition lift {A : Type} (m : M World A) : M Obj A :=
  fun s => let (r, w') := m (snd s) in (r, (fst s, w')).

(** Hands [o] to a callee that mutates it; the caller gets the object back. *)
Definition withObject {A : Type} (o : Node) (m : M Obj A) : M World (A * Node) :=
  fun w => match m (o, w) with
           | (Ok a, (o', w')) => (Ok (a, o'), w')
           | (Throw e, (_, w')) => (Throw e, w')
           end.

(** The same, from a function that itself holds an object. *)
Definition nested {A : Type} (o : Node) (m : M Obj A) : M Obj (A * Node) :=
  fun s => match m (o, snd s) with
           | (Ok a, (o', w')) => (Ok (a, o'), (fst s, w'))
           | (Throw e, (_, w')) => (Throw e, (fst s, w'))
           end.

Definition emit (e : Event) : M World unit :=
  modify (fun w => mkWorld (w_next w) (w_removed w) (w_selection w) (w_log w ++ [e])%list).

Definition notify (msg : string) (error : bool) : M World unit := emit (Notify msg error).
Definition closePlugin : M World unit := emit ClosePlugin.
Definition consoleError (msg e : string) : M World unit := emit (ConsoleError msg e).
Definition consoleWarn (msg e : string) : M World unit := emit (ConsoleWarn msg e).

Definition selection : M World (list Node) := fun w => (Ok (w_selection w), w).
Definition setSelection (sel : list Node) : M World unit :=
  modify (fun w => mkWorld (w_next w) (w_removed w) sel (w_log w)).

Definition freshId : M World NodeId :=
  fun w => (Ok (w_next w), mkWorld (S (w_next w)) (w_removed w) (w_selection w) (w_log w)).

(** [node.remove()] *)
Definition remove (n : Node) : M World unit :=
  modify (fun w => mkWorld (w_next w) (node_id n :: w_removed w) (w_selection w) (w_log w)).

Definition newNode (id : NodeId) (ty : NodeType) (name : string) : Node :=
  mkNode id ty name true true None 100 100 (Some []) 1 [] (Some []).

(** [figma.createFrame()], [figma.createComponent()], [figma.createText()] *)
Definition createFrame : M World Node := id <- freshId ;; ret (newNode id FRAME "Frame").
Definition createComponent : M World Node := id <- freshId ;; ret (newNode id COMPONENT "Component").
Definition createText : M World Node :=
  id <- freshId ;;
  ret (resize 0 0 (set_children None (newNode id TEXT ""))).

(** ** The host primitives that may throw

    [outlineStroke] and [flatten] rewrite what hangs below the component they
    are applied in: they see and return its children and the [removed] flags,
    and the component itself, its name, size and own properties, is out of
    their reach.  A call that throws may still have changed them.  Both return what the
    JavaScript call returns, a node reference or [null]; the nodes they
    create carry ids of the host's choosing, and [w_next] counts only the
    nodes the plugin creates.  [host_assign id key] is the write of the
    property [key] of the node behind [id], for the two properties the code
    writes inside a [try]: a write that throws writes nothing.
    [combineAsVariants] decides only whether the grouping is accepted; what
    an accepted grouping does to the parent is fixed below. *)

Record Scene : Type := mkScene {
  sc_children : list Node;
  sc_removed : list NodeId }.

Record Host : Type := mkHost {
  host_exportAsync : Node -> Res string;
  host_createNodeFromSvg : option string -> Res Node;
  host_outlineStroke : NodeId -> Scene -> Res (option NodeId) * Scene;
  host_flatten : list NodeId -> Scene -> Res (option NodeId) * Scene;
  host_loadFontAsync : Res unit;
  host_combineAsVariants : list Node -> Res unit;
  host_assign : NodeId -> string -> Res unit }.

Definition isThrow {A : Type} (r : Res A) : bool :=
  match r with Throw _ => true | Ok _ => false end.

(** Runs a host primitive on the children of the object held. *)
Definition onScene {A : Type} (prim : Scene -> Res A * Scene) (ev : bool -> Event) : M Obj A :=
  fun s =>
    let (o, w) := s in
    let cs := match node_children o with Some cs => cs | None => [] end in
    let (r, sc) := prim (mkScene cs (w_removed w)) in
    let o' := match node_children o with
              | Some _ => set_children (Some (sc_children sc)) o
              | None => o
              end in
    (r, (o', mkWorld (w_next w) (sc_removed sc) (w_selection w) (w_log w ++ [ev (isThrow r)])%list)).

(** [node.removed] *)
Definition isRemoved (id : NodeId) : M Obj bool :=
  fun s => (Ok (existsb (Nat.eqb id) (w_removed (snd s))), s).

(** The node behind a reference, looked up in the object held. *)
Definition deref (id : NodeId) : M Obj (option Node) :=
  fun s => (Ok (findById id (fst s)), s).

(** [node[key] = v] through the reference [id], inside a [try]: [f] is what
    the write does to the node. *)
Definition assign (h : Host) (id : NodeId) (key : string) (f : Node -> Node) : M Obj unit :=
  match host_assign h id key with
  | Ok _ => update (updateById id f)
  | Throw e => throw e
  end.

(** [node.strokes = []; node.strokeWeight = 0] *)
Definition assignNoStrokes (h : Host) (id : NodeId) : M Obj unit :=
  assign h id "strokes" (set_strokes []) ;;;
  assign h id "strokeWeight" (set_strokeWeight 0).

(** ** Selection reading *)

Definition isExportableNode (node : Node) : bool :=
  node_exportAsync node && node_visible node.

Definition isComponentOrInstance (node : Node) : bool :=
  NodeType_eqb (node_type node) COMPONENT || NodeType_eqb (node_type node) INSTANCE.

Definition getIconNodes : M World (list Node) :=
  sel <- selection ;;
  if List.length sel =? 0 then
    notify "Please select one or more icons, or a frame containing icons." true ;;;
    closePlugin ;;;
    ret []
  else
    let fallThrough := ret (filter isExportableNode sel) in
    match sel with
    | [node] =>
        match node_children node with
        | Some ((_ :: _) as cs) =>
            if isComponentOrInstance node then ret [node]
            else
              let children := filter isExportableNode cs in
              if 0 <? List.length children then ret children else fallThrough
        | _ => fallThrough
        end
    | _ => fallThrough
    end.

(** ** SVG export *)

Definition Icon : Type := (string * string)%type.

(** [node.exportAsync({ format: 'SVG_STRING' })] *)
Definition exportAsync (h : Host) (node : Node) : M World string :=
  if node_exportAsync node then
    match host_exportAsync h node with
    | Ok svg => ret svg
    | Throw e => throw e
    end
  else throw "TypeError: node.exportAsync is not a function".

Definition exportIcons (h : Host) (nodes : list Node) : M World (list Icon) :=
  forAcc nodes [] (fun icons node =>
    tryCatch
      (svg <- exportAsync h node ;;
       let trimmed := Str.trim (node_name node) in
       let name := if Str.isEmpty trimmed then "icon" else trimmed in
       ret (icons ++ [(name, svg)])%list)
      (fun e =>
         consoleError ("Failed to export " ++ Str.quoted (node_name node) ++ ":") e ;;;
         ret icons)).

(** ** Outline and flatten *)

Fixpoint collectStrokedNodes (parent : Node) : list Node :=
  match node_children parent with
  | None => []
  | Some cs =>
      (fix each (l : list Node) : list Node :=
         match l with
         | [] => []
         | child :: l' =>
             ((if hasActiveStrokes child then [child] else []) ++
              (match node_children child with
               | Some _ => collectStrokedNodes child
               | None => []
               end) ++ each l')%list
         end) cs
  end.

(** The body of [for (const node of stroked)]: a node that is not removed is
    outlined, and what [outlineStroke] throws is dropped. *)
Definition outlineNode (h : Host) (node : Node) : M Obj unit :=
  removed <- isRemoved (node_id node) ;;
  if removed then ret tt
  else
    tryCatch
      (onScene (host_outlineStroke h (node_id node)) (OutlineStroke (node_id node)) ;;; ret tt)
      (fun _ => ret tt).

Definition outlineEach (h : Host) (stroked : list Node) : M Obj unit :=
  forEach stroked (outlineNode h).

(** [for (let pass = ...; pass < 5; pass++)], with [left = 5 - pass]. *)
Fixpoint outlinePasses (h : Host) (left pass : nat) : M Obj unit :=
  match left with
  | 0 => ret tt
  | S left' =>
      comp <- self ;;
      let stroked := collectStrokedNodes comp in
      lift (emit (Scan pass (map node_id stroked))) ;;;
      if List.length stroked =? 0 then ret tt
      else outlineEach h stroked ;;; outlinePasses h left' (S pass)
  end.

(** [if (flat && 'strokes' in flat) { flat.strokes = []; flat.strokeWeight = 0; }]
    with [flat] the node that [flatten] put into the component. *)
Definition clearFlat (h : Host) (flat : option NodeId) : M Obj unit :=
  match flat with
  | Some id =>
      node <- deref id ;;
      match node with
      | Some n =>
          match node_strokes n with
          | Some _ => assignNoStrokes h id
          | None => ret tt
          end
      | None => ret tt
      end
  | None => ret tt
  end.

(** Phase 2 and 3: what [flatten] or the writes on its result throw is
    logged as a failed flatten. *)
Definition flattenChildren (h : Host) : M Obj unit :=
  comp <- self ;;
  match node_children comp with
  | Some ((_ :: _) as cs) =>
      tryCatch
        (flat <- onScene (host_flatten h (map node_id cs)) (Flatten (map node_id cs)) ;;
         clearFlat h flat)
        (fun e => lift (consoleWarn ("flatten failed for " ++ node_name comp) e))
  | _ => ret tt
  end.

(** The body of the last loop, run with [child] as the object held: a child
    with active strokes is written to, and what a write throws is dropped. *)
Definition stripChild (h : Host) : M Obj unit :=
  child <- self ;;
  if hasActiveStrokes child then
    tryCatch (assignNoStrokes h (node_id child)) (fun _ => ret tt)
  else ret tt.

(** [for (const child of comp.children)]: each child is handed to the body
    and taken back as the body left it. *)
Definition clearRemainingChildren (h : Host) : M Obj unit :=
  comp <- self ;;
  match node_children comp with
  | Some cs =>
      cs' <- forAcc cs [] (fun done child =>
               r <- nested child (stripChild h) ;;
               ret (done ++ [snd r])%list) ;;
      update (set_children (Some cs'))
  | None => ret tt
  end.

Definition outlineAndFlatten (h : Host) : M Obj unit :=
  outlinePasses h 5 0 ;;;
  flattenChildren h ;;;
  clearRemainingChildren h.

(** ** Output creation *)

(** One entry of the [normalize-results] message.  [r_error = None] is
    [error === null]; [r_svgs = None] is a result without the [svgs] object. *)
Record NormResult : Type := mkResult {
  r_name : string;
  r_svgs : option (list (nat * string));
  r_error : option string }.

Definition isNull {A : Type} (o : option A) : bool :=
  match o with None => true | Some _ => false end.

Definition sizes : list nat := [16; 24; 32].

(** [result.svgs[size]]: [undefined] for a missing key, a [TypeError] when
    [svgs] itself is missing. *)
Definition svgFor (result : NormResult) (size : nat) : M Obj (option string) :=
  match r_svgs result with
  | Some svgs => ret (option_map snd (find (fun kv => fst kv =? size) svgs))
  | None => throw "TypeError: Cannot read properties of undefined"
  end.

Definition createNodeFromSvg (h : Host) (svgStr : option string) : M Obj Node :=
  match host_createNodeFromSvg h svgStr with
  | Ok svgNode => ret svgNode
  | Throw e => throw e
  end.

Definition loadFontAsync (h : Host) : M Obj unit :=
  match host_loadFontAsync h with
  | Ok _ => ret tt
  | Throw e => throw e
  end.

Definition hasId (ids : list NodeId) (n : Node) : bool := existsb (Nat.eqb (node_id n)) ids.

(** A property of a direct child, written through a reference to it. *)
Definition updateChild (id : NodeId) (f : Node -> Node) (parent : Node) : Node :=
  match node_children parent with
  | Some cs => set_children (Some (map (fun c => if node_id c =? id then f c else c) cs)) parent
  | None => parent
  end.

(** [figma.combineAsVariants(components, parentFrame)]: when the host accepts
    the grouping, a new ComponentSet holding [components] in the order given
    takes their place at the end of the parent. *)
Definition combineAsVariants (h : Host) (components : list Node) : M Obj NodeId :=
  match host_combineAsVariants h components with
  | Ok _ =>
      id <- lift freshId ;;
      let componentSet := set_children (Some components) (newNode id COMPONENT_SET "Component 1") in
      update (fun parent =>
        match node_children parent with
        | Some cs =>
            set_children
              (Some (filter (fun c => negb (hasId (map node_id components) c)) cs ++ [componentSet])%list)
              parent
        | None => parent
        end) ;;;
      ret id
  | Throw e => throw e
  end.

(** The [try] block of the loop over the sizes: imports the markup, moves the
    imported children into [comp], drops the temporary frame and runs the
    geometry pass on [comp].  Only [createNodeFromSvg] and the read of
    [svgNode.children] can throw, both before [comp] is touched. *)
Definition importSvg (h : Host) (svgStr : option string) (comp : Node) : M Obj Node :=
  svgNode <- createNodeFromSvg h svgStr ;;
  children <- match node_children svgNode with
              | Some cs => ret cs
              | None => throw "TypeError: svgNode.children is not iterable"
              end ;;
  let comp := fold_left (fun c child => appendChild child c) children comp in
  lift (remove svgNode) ;;;
  r <- nested comp (outlineAndFlatten h) ;;
  ret (snd r).

(** Its [catch] block: a [?] of [size * 0.6] is put into the component, which
    is still as it was before the [try]. *)
Definition placeholder (h : Host) (result : NormResult) (size : nat) (comp : Node) (e : string)
  : M Obj Node :=
  lift (consoleError
          ("createNodeFromSvg failed for " ++ r_name result ++ " at " ++ Str.ofNat size ++ "dp:")
          e) ;;;
  text <- lift createText ;;
  loadFontAsync h ;;;
  let text := set_prop "characters" (VStr "?") text in
  let text := set_prop "fontSize" (VNum (numberOf size * 0.6)) text in
  ret (appendChild text comp).

(** The body of [for (const size of sizes)]: builds the component of one size. *)
Definition sizeVariant (h : Host) (result : NormResult) (baseName : string) (size : nat)
  : M Obj Node :=
  svgStr <- svgFor result size ;;
  comp <- lift createComponent ;;
  let comp := set_name (baseName ++ "_" ++ Str.ofNat size) comp in
  let comp := resize (numberOf size) (numberOf size) comp in
  let comp := set_prop "clipsContent" (VBool true) comp in
  let comp := set_prop "fills" (VPaints []) comp in
  tryCatch (importSvg h svgStr comp) (placeholder h result size comp).

(** Runs with [parentFrame] as the object held. *)
Definition createComponentSet (h : Host) (result : NormResult) : M Obj unit :=
  let baseName := variantSetBase (r_name result) in
  components <- forAcc sizes [] (fun components size =>
    comp <- sizeVariant h result baseName size ;;
    ret (components ++ [comp])%list) ;;
  forEach components (fun comp => update (appendChild comp)) ;;;
  componentSet <- combineAsVariants h components ;;
  update (updateChild componentSet (fun cs =>
    let cs := set_name baseName cs in
    let cs := set_prop "layoutMode" (VStr "HORIZONTAL") cs in
    let cs := set_prop "itemSpacing" (VNum 16) cs in
    let cs := set_prop "counterAxisSizingMode" (VStr "AUTO") cs in
    let cs := set_prop "primaryAxisSizingMode" (VStr "AUTO") cs in
    set_prop "fills" (VPaints []) cs)).

(** The scan of the selection's bounding boxes: [(maxY, minX)], started at
    [(-Infinity, Infinity)]. *)
Definition selectionBounds (sel : list Node) : float * float :=
  fold_left
    (fun (acc : float * float) node =>
       let (maxY, minX) := acc in
       match node_absoluteBoundingBox node with
       | Some box =>
           (if (maxY <? box_y box + box_height box)%float
            then (box_y box + box_height box)%float else maxY,
            if (box_x box <? minX)%float then box_x box else minX)
       | None => acc
       end)
    sel (neg_infinity, infinity).

(** The body of [for (const result of successResults)], run with
    [outputFrame] as the object held: what [createComponentSet] throws is
    logged and dropped, then the loop pauses for 5 ms. *)
Definition assembleIcon (h : Host) (result : NormResult) : M Obj unit :=
  tryCatch
    (createComponentSet h result)
    (fun e =>
       lift (consoleError
               ("Failed to create ComponentSet for " ++ Str.quoted (r_name result) ++ ":")
               e)) ;;;
  lift (emit (Delay 5)).

Definition createOutput (h : Host) (results : list NormResult) : M World unit :=
  let successResults := filter (fun r => isNull (r_error r)) results in
  let failedResults := filter (fun r => negb (isNull (r_error r))) results in
  if List.length successResults =? 0 then
    notify "All icons failed to normalize. Check console for errors." true
  else
    outputFrame <- createFrame ;;
    let outputFrame := set_name "Normalized Icons" outputFrame in
    let outputFrame := set_prop "fills" (VPaints []) outputFrame in
    let outputFrame := set_prop "layoutMode" (VStr "HORIZONTAL") outputFrame in
    let outputFrame := set_prop "itemSpacing" (VNum 40) outputFrame in
    let outputFrame := set_prop "counterAxisSizingMode" (VStr "AUTO") outputFrame in
    let outputFrame := set_prop "primaryAxisSizingMode" (VStr "AUTO") outputFrame in
    let outputFrame := set_prop "paddingTop" (VNum 20) outputFrame in
    let outputFrame := set_prop "paddingBottom" (VNum 20) outputFrame in
    let outputFrame := set_prop "paddingLeft" (VNum 20) outputFrame in
    let outputFrame := set_prop "paddingRight" (VNum 20) outputFrame in
    sel <- selection ;;
    let outputFrame :=
      if 0 <? List.length sel then
        let (maxY, minX) := selectionBounds sel in
        if (neg_infinity <? maxY)%float then
          set_prop "y" (VNum (maxY + 80)) (set_prop "x" (VNum minX) outputFrame)
        else outputFrame
      else outputFrame in
    r <- withObject outputFrame (forEach successResults (assembleIcon h)) ;;
    let outputFrame := snd r in
    let msg := "Created " ++ Str.ofNat (List.length successResults) ++ " icon(s) as ComponentSets" in
    msg <- (if 0 <? List.length failedResults then
              forEach failedResults (fun f =>
                consoleWarn
                  ("Icon " ++ Str.quoted (r_name f) ++ " failed: "
                   ++ match r_error f with Some e => e | None => "null" end)
                  "") ;;;
              ret (msg ++ ". " ++ Str.ofNat (List.length failedResults) ++ " failed.")
            else ret msg) ;;
    notify msg false ;;;
    setSelection [outputFrame] ;;;
    emit (ScrollAndZoomIntoView [node_id outputFrame]).

(** ** Main flow *)

Definition main (h : Host) : M World unit :=
  nodes <- getIconNodes ;;
  if List.length nodes =? 0 then ret tt
  else
    notify ("[v3.3] Normalizing " ++ Str.ofNat (List.length nodes) ++ " icon(s)...") false ;;;
    icons <- exportIcons h nodes ;;
    if List.length icons =? 0 then
      notify "No exportable icons found in selection." true ;;;
      closePlugin
    else emit (PostMessage icons).




(** ** Sample nodes, hosts and worlds *)

Definition vectorNode (id : NodeId) (name : string) (strokes : list Paint) : Node :=
  mkNode id VECTOR name true true None 10 10 (Some strokes) 1 [] None.

Definition groupNode (id : NodeId) (name : string) (children : list Node) : Node :=
  mkNode id GROUP name true true None 10 10 None 0 [] (Some children).

Definition frameNode (id : NodeId) (name : string) (children : list Node) : Node :=
  set_children (Some children) (newNode id FRAME name).

Definition componentNode (id : NodeId) (name : string) (children : list Node) : Node :=
  set_children (Some children) (newNode id COMPONENT name).

Definition hidden (n : Node) : Node :=
  mkNode (node_id n) (node_type n) (node_name n) false (node_exportAsync n)
    (node_absoluteBoundingBox n) (node_width n) (node_height n) (node_strokes n)
    (node_strokeWeight n) (node_props n) (node_children n).

Definition emptyWorld (sel : list Node) : World := mkWorld 1000 [] sel [].

(** A host on which everything works: [outlineStroke] turns the strokes of its
    node into fills, [flatten] merges the children into one vector, the SVG
    import yields a group holding one stroked path. *)
Definition workingHost : Host :=
  mkHost
    (fun node => Ok ("<svg>" ++ node_name node ++ "</svg>"))
    (fun svg => Ok (frameNode 500 "svg" [groupNode 501 "g" [vectorNode 502 "path" ["#000"]]]))
    (fun id sc => (Ok (Some id),
                   mkScene (map (updateById id clearStrokes) (sc_children sc)) (sc_removed sc)))
    (fun ids sc => (Ok (Some 600),
                    mkScene [vectorNode 600 "Vector" []] (ids ++ sc_removed sc)%list))
    (Ok tt)
    (fun _ => Ok tt)
    (fun _ _ => Ok tt).

(** A host whose [outlineStroke] and [flatten] throw on every call and leave
    the scene alone. *)
Definition brokenGeometryHost : Host :=
  mkHost
    (host_exportAsync workingHost)
    (host_createNodeFromSvg workingHost)
    (fun _ sc => (Throw "outlineStroke failed", sc))
    (fun _ sc => (Throw "flatten failed", sc))
    (Ok tt)
    (fun _ => Ok tt)
    (fun _ _ => Ok tt).

(** A host that refuses every grouping. *)
Definition noVariantsHost : Host :=
  mkHost
    (host_exportAsync workingHost)
    (host_createNodeFromSvg workingHost)
    (host_outlineStroke workingHost)
    (host_flatten workingHost)
    (Ok tt)
    (fun _ => Throw "combineAsVariants failed")
    (fun _ _ => Ok tt).

(** A size node as the SVG import leaves it: a group holding a stroked path. *)
Definition nestedStrokeComp : Node :=
  componentNode 1 "home_16" [groupNode 10 "g" [vectorNode 11 "path" ["#000"]]].

Definition okResult (name : string) : NormResult :=
  mkResult name (Some [(16, "<svg16/>"); (24, "<svg24/>"); (32, "<svg32/>")]) None.

Definition failedResult (name : string) : NormResult :=
  mkResult name None (Some "parse error").

(** ** Observations *)

(** The active strokes below a node, counted with the scan of the code. *)
Definition strokeCount (n : Node) : nat := List.length (collectStrokedNodes n).

Definition childrenOf (n : Node) : list Node :=
  match node_children n with Some cs => cs | None => [] end.

Definition isVariantSet (n : Node) : bool := NodeType_eqb (node_type n) COMPONENT_SET.

(** The variant sets among the direct children of a container. *)
Definition variantSets (container : Node) : list Node := filter isVariantSet (childrenOf container).

(** The output container: what [createOutput] leaves selected. *)
Definition outputContainer (w : World) : option Node :=
  match w_selection w with
  | [frame] => Some frame
  | _ => None
  end.

Definition notifications (log : list Event) : list (string * bool) :=
  flat_map (fun e => match e with Notify msg err => [(msg, err)] | _ => [] end) log.

(** Both runs of a function applied twice to the same object. *)
Definition twice (m : M Obj unit) : M Obj (Node * Node) :=
  m ;;; first <- self ;; m ;;; second <- self ;; ret (first, second).

(** ** The size suffix, in the words of the specification

    An optional [_] or [-], one of the numerals 16, 24 and 32, and optionally
    the unit letters [dp] in either case. *)
Definition SizeSuffix (s : string) : Prop :=
  exists sep num unit,
    s = sep ++ num ++ unit /\
    (sep = "" \/ sep = "_" \/ sep = "-") /\
    (num = "16" \/ num = "24" \/ num = "32") /\
    (unit = "" \/ Str.toUpperCase unit = "DP").

(** No tail of [name] is a size suffix. *)
Definition NoSizeSuffix (name : string) : Prop :=
  forall base suf, name = base ++ suf -> ~ SizeSuffix suf.

(** [suf] is the longest tail of [name] that is a size suffix, [base] what is
    before it. *)
Definition LongestSizeSuffix (name base suf : string) : Prop :=
  name = base ++ suf /\ SizeSuffix suf /\
  forall base' suf', name = base' ++ suf' -> SizeSuffix suf' ->
                     String.length suf' <= String.length suf.

(** ** Vocabulary of the statements *)

(** The world after some more events. *)
Definition logged (w : World) (evs : list Event) : World :=
  mkWorld (w_next w) (w_removed w) (w_selection w) (w_log w ++ evs)%list.

Definition isOutlineCall (e : Event) : Prop :=
  match e with OutlineStroke _ _ => True | _ => False end.

Definition countScans (evs : list Event) : nat :=
  List.length (filter (fun e => match e with Scan _ _ => true | _ => false end) evs).

(** The events of a pass loop that may still run [left] passes and is about to
    start pass number [pass]: nothing when the ceiling is reached, a lone empty
    scan when no stroked node is found, and otherwise a scan that found nodes,
    the outline calls on them and the events of the passes after it. *)
Inductive PassTrace : nat -> nat -> list Event -> Prop :=
| PassTrace_ceiling (pass : nat) : PassTrace 0 pass []
| PassTrace_clean (left pass : nat) : PassTrace (S left) pass [Scan pass []]
| PassTrace_again (left pass : nat) (found : list NodeId) (calls rest : list Event) :
    found <> [] ->
    Forall isOutlineCall calls ->
    PassTrace left (S pass) rest ->
    PassTrace (S left) pass (Scan pass found :: calls ++ rest)%list.

(** What the geometry pass leaves of a node whatever the host does below it:
    everything but its strokes and its children. *)
Definition sameShell (o o' : Node) : Prop :=
  node_id o' = node_id o /\ node_type o' = node_type o /\ node_name o' = node_name o /\
  node_width o' = node_width o /\ node_height o' = node_height o /\
  node_props o' = node_props o /\ (node_children o = None <-> node_children o' = None).

(** [console.error] of the [catch] around [createComponentSet]. *)
Definition isAssemblyFailure (e : Event) : bool :=
  match e with
  | ConsoleError msg _ => Str.startsWith "Failed to create ComponentSet for " msg
  | _ => false
  end.

Definition assemblyFailures (evs : list Event) : nat :=
  List.length (filter isAssemblyFailure evs).

(** The world moved on: ids were only handed out, events only added, and the
    events added all satisfy [P]. *)
Definition extends (P : Event -> Prop) (w w' : World) : Prop :=
  w_next w <= w_next w' /\
  exists evs, w_log w' = (w_log w ++ evs)%list /\ Forall P evs.

(** The events after the first [n]. *)
Definition eventsAfter (n : nat) (w : World) : list Event := skipn n (w_log w).

(** The summary the user is shown: how many were created and, when some
    failed, how many failed. *)
Definition failureTally (k : nat) : string := ". " ++ Str.ofNat k ++ " failed.".

Definition summary (created failed : nat) : string :=
  "Created " ++ Str.ofNat created ++ " icon(s) as ComponentSets" ++
  (if 0 <? failed then failureTally failed else "").

(** A variant set built for [result]: named by the base name, holding the
    three size nodes in the order 16, 24, 32, each square and named
    [base_size]. *)
Definition sizeNodeOf (base : string) (size : nat) (comp : Node) : Prop :=
  node_type comp = COMPONENT /\
  node_name comp = base ++ "_" ++ Str.ofNat size /\
  node_width comp = numberOf size /\
  node_height comp = numberOf size.

Definition variantSetOf (result : NormResult) (set : Node) : Prop :=
  node_type set = COMPONENT_SET /\
  node_name set = variantSetBase (r_name result) /\
  exists c16 c24 c32,
    node_children set = Some [c16; c24; c32] /\
    sizeNodeOf (variantSetBase (r_name result)) 16 c16 /\
    sizeNodeOf (variantSetBase (r_name result)) 24 c24 /\
    sizeNodeOf (variantSetBase (r_name result)) 32 c32.

(** ** Reasoning about computations *)

(** [Q] holds of the outcome of [m] started in [s]. *)
Definition post {S A : Type} (m : M S A) (s : S) (Q : Res A -> S -> Prop) : Prop :=
  Q (fst (m s)) (snd (m s)).

(** Every run of [m] moves the state along [R]. *)
Definition stable {S A : Type} (R : S -> S -> Prop) (m : M S A) : Prop :=
  forall s, R s (snd (m s)).

(** [m] never throws. *)
Definition total {S A : Type} (m : M S A) : Prop :=
  forall s, exists a, fst (m s) = Ok a.

(** What [m] returns, when it returns, satisfies [R]. *)
Definition returns {S A : Type} (R : A -> Prop) (m : M S A) : Prop :=
  forall s, match fst (m s) with Ok a => R a | Throw _ => True end.

(** An event the user is not shown and that reports no assembly failure. *)
Definition quiet (e : Event) : Prop :=
  match e with
  | Notify _ _ | ClosePlugin => False
  | _ => isAssemblyFailure e = false
  end.

(** What a callee may do to the object it is handed and to the world around it. *)
Definition keeps (P : Event -> Prop) (s s' : Obj) : Prop :=
  sameShell (fst s) (fst s') /\ extends P (snd s) (snd s').

(** What a callee may do to the world while the object held stays as it is. *)
Definition aside (P : Event -> Prop) (s s' : Obj) : Prop :=
  fst s' = fst s /\ extends P (snd s) (snd s').

(** A batch of three results of which the second failed normalization. *)
Definition oneOfThreeFailed : list NormResult :=
  [okResult "home"; failedResult "star"; okResult "arrow_24"].

(** ** Proof automation *)

(** Case analysis on the eight bits of a character. *)
Ltac each_char a :=
  destruct a as [[] [] [] [] [] [] [] []]; vm_compute; intros; try discriminate; auto.

(** ** Vocabulary of the further statements *)

(** What [node.exportAsync] gives for a node: the markup, or what it throws. *)
Definition exported (h : Host) (node : Node) : Res string :=
  if node_exportAsync node then host_exportAsync h node
  else Throw "TypeError: node.exportAsync is not a function".

(** The display name of an icon: the trimmed layer name, or [icon]. *)
Definition displayName (node : Node) : string :=
  if Str.isEmpty (Str.trim (node_name node)) then "icon" else Str.trim (node_name node).

(** The icon a node contributes to the batch, if its export succeeded. *)
Definition iconOf (h : Host) (node : Node) : list Icon :=
  match exported h node with
  | Ok svg => [(displayName node, svg)]
  | Throw _ => []
  end.

(** The console error a node contributes, if its export failed. *)
Definition exportErrorOf (h : Host) (node : Node) : list Event :=
  match exported h node with
  | Ok _ => []
  | Throw e => [ConsoleError ("Failed to export " ++ Str.quoted (node_name node) ++ ":") e]
  end.

(** What the last loop of the geometry pass leaves of one child: the two
    writes as far as the host accepts them. *)
Definition stripped (h : Host) (child : Node) : Node :=
  if hasActiveStrokes child then
    match host_assign h (node_id child) "strokes" with
    | Ok _ =>
        let child' := updateById (node_id child) (set_strokes []) child in
        match host_assign h (node_id child) "strokeWeight" with
        | Ok _ => updateById (node_id child) (set_strokeWeight 0) child'
        | Throw _ => child'
        end
    | Throw _ => child
    end
  else child.

Definition strippedAll (h : Host) (comp : Node) : Node :=
  match node_children comp with
  | Some cs => set_children (Some (map (stripped h) cs)) comp
  | None => comp
  end.

(** The host refuses the write of [strokes] on the node. *)
Definition refusesStrokes (h : Host) (n : Node) : Prop :=
  exists e, host_assign h (node_id n) "strokes" = Throw e.

(** A presentation property as last written. *)
Definition prop (key : string) (n : Node) : option Value :=
  option_map snd (find (fun kv => String.eqb (fst kv) key) (node_props n)).

(** The lower edge of a bounding box. *)
Definition bottom (box : Box) : float := (box_y box + box_height box)%float.

(** Every [outlineStroke] call in a run is on a node that the scan before it
    reported: [found] is what the latest scan reported. *)
Fixpoint callsFollowScans (found : list NodeId) (evs : list Event) : Prop :=
  match evs with
  | [] => True
  | Scan _ found' :: evs' => callsFollowScans found' evs'
  | OutlineStroke id _ :: evs' => In id found /\ callsFollowScans found evs'
  | _ :: evs' => callsFollowScans found evs'
  end.

Definition countOutlineCalls (evs : list Event) : nat :=
  List.length (filter (fun e => match e with OutlineStroke _ _ => true | _ => false end) evs).



(** An event that reports no assembly failure. *)
Definition noAssemblyFailure (e : Event) : Prop := isAssemblyFailure e = false.

(** A host on which the SVG import always throws, fonts load and groupings
    are accepted. *)
Definition noImportHost : Host :=
  mkHost
    (host_exportAsync workingHost)
    (fun _ => Throw "invalid SVG")
    (host_outlineStroke workingHost)
    (host_flatten workingHost)
    (Ok tt)
    (fun _ => Ok tt)
    (fun _ _ => Ok tt).

(** A host that refuses to group the three components created first, those
    with the ids 1000 to 1002 of [emptyWorld], and accepts every other
    grouping. *)
Definition secondGroupingHost : Host :=
  mkHost
    (host_exportAsync workingHost)
    (host_createNodeFromSvg workingHost)
    (host_outlineStroke workingHost)
    (host_flatten workingHost)
    (Ok tt)
    (fun comps => if existsb (fun c => node_id c <=? 1002) comps
                  then Throw "combineAsVariants failed" else Ok tt)
    (fun _ _ => Ok tt).

Definition boxedNode (id : NodeId) (x y width height : float) : Node :=
  mkNode id VECTOR "boxed" true true (Some (mkBox x y width height)) width height (Some []) 1 [] None.

(** A host that neither outlines nor flattens and refuses every write. *)
Definition readOnlyHost : Host :=
  mkHost
    (host_exportAsync workingHost)
    (host_createNodeFromSvg workingHost)
    (host_outlineStroke brokenGeometryHost)
    (host_flatten brokenGeometryHost)
    (Ok tt)
    (fun _ => Ok tt)
    (fun _ _ => Throw "Cannot assign to read only property").

Definition isFlattenEvent (e : Event) : Prop :=
  match e with Flatten _ _ | ConsoleWarn _ _ => True | _ => False end.

(** A node without children of its own. *)
Definition isLeaf (n : Node) : Prop := node_children n = None.

(** The loop of [createOutput] over the results, run from [s]: each result
    with whether its assembly returned. *)
Fixpoint assemblyOutcomes (h : Host) (results : list NormResult) (s : Obj)
  : list (NormResult * bool) :=
  match results with
  | [] => []
  | result :: results' =>
      (result, negb (isThrow (fst (createComponentSet h result s))))
      :: assemblyOutcomes h results' (snd (assembleIcon h result s))
  end.

(** The results whose assembly returned, and those whose assembly threw. *)
Definition assembled (outcomes : list (NormResult * bool)) : list NormResult :=
  map fst (filter snd outcomes).

Definition dropped (outcomes : list (NormResult * bool)) : list NormResult :=
  map fst (filter (fun o => negb (snd o)) outcomes).

(** What the console shows for a result whose assembly threw. *)
Definition assemblyFailureOf (result : NormResult) : string :=
  "Failed to create ComponentSet for " ++ Str.quoted (r_name result) ++ ":".

(** The assembly failures on the console, oldest first. *)
Definition assemblyFailureMessages (evs : list Event) : list string :=
  flat_map (fun e => match e with
                     | ConsoleError msg _ => if isAssemblyFailure e then [msg] else []
                     | _ => []
                     end) evs.

(** * Theorems *)

Unset Implicit Arguments.

(** ** Strings *)

Section StringFacts.

Lemma append_nil_r (s : string) : s ++ "" = s.
Proof. induction s as [|c s IH]; simpl; [reflexivity | now rewrite IH]. Qed.

Lemma append_assoc (a b c : string) : (a ++ b) ++ c = a ++ (b ++ c).
Proof. induction a as [|x a IH]; simpl; [reflexivity | now rewrite IH]. Qed.

Lemma length_append (a b : string) :
  String.length (a ++ b) = String.length a + String.length b.
Proof. induction a as [|x a IH]; simpl; [reflexivity | now rewrite IH]. Qed.

End StringFacts.

(** ** The backtracking matcher against the language of the pattern *)

Section MatcherFacts.

Variable A : Type.

(** A successful run consumed a word of the language and the continuation
    accepted what was left. *)
Lemma exec_sound (r : Regex.t) :
  forall (s : string) (k : string -> option A) (x : A),
    Regex.exec r s k = Some x ->
    exists pre rest, s = pre ++ rest /\ Regex.matches r pre rest /\ k rest = Some x.
Proof.
  induction r as [c | cs | r1 IH1 r2 IH2 | r1 IH1 r2 IH2 | r1 IH1 | | ];
    intros s k x H; simpl in H.
  - destruct s as [|a s']; [discriminate|].
    destruct (Regex.sameChar a c) eqn:E; [|discriminate].
    exists (String a ""), s'. simpl. eauto.
  - destruct s as [|a s']; [discriminate|].
    destruct (existsb (Regex.sameChar a) cs) eqn:E; [|discriminate].
    exists (String a ""), s'. simpl. eauto.
  - apply IH1 in H. destruct H as (p1 & rest1 & -> & M1 & H).
    apply IH2 in H. destruct H as (p2 & rest & -> & M2 & H).
    exists (p1 ++ p2), rest. rewrite append_assoc. simpl. eauto 8.
  - destruct (Regex.exec r1 s k) as [y|] eqn:E.
    + injection H as ->. apply IH1 in E. destruct E as (pre & rest & -> & M & K).
      exists pre, rest. simpl. auto.
    + apply IH2 in H. destruct H as (pre & rest & -> & M & K).
      exists pre, rest. simpl. auto.
  - destruct (Regex.exec r1 s k) as [y|] eqn:E.
    + injection H as ->. apply IH1 in E. destruct E as (pre & rest & -> & M & K).
      exists pre, rest. simpl. auto.
    + exists "", s. simpl. auto.
  - exists "", s. simpl. auto.
  - destruct s; [|discriminate]. exists "", "". simpl. auto.
Qed.

(** Backtracking loses nothing: when some word of the language is a prefix of
    the subject and the continuation accepts the rest, the run succeeds. *)
Lemma exec_complete (r : Regex.t) :
  forall (pre rest : string) (k : string -> option A) (x : A),
    Regex.matches r pre rest -> k rest = Some x ->
    exists y, Regex.exec r (pre ++ rest) k = Some y.
Proof.
  induction r as [c | cs | r1 IH1 r2 IH2 | r1 IH1 r2 IH2 | r1 IH1 | | ];
    intros pre rest k x Hm Hk; simpl in Hm |- *.
  - destruct Hm as (a & -> & E). simpl. rewrite E. eauto.
  - destruct Hm as (a & -> & E). simpl. rewrite E. eauto.
  - destruct Hm as (p1 & p2 & -> & M1 & M2).
    destruct (IH2 _ _ _ _ M2 Hk) as (y & Hy).
    rewrite append_assoc. eapply IH1; eauto.
  - destruct (Regex.exec r1 (pre ++ rest) k) as [y|] eqn:E; [eauto|].
    destruct Hm as [M | M].
    + destruct (IH1 _ _ _ _ M Hk) as (y & Hy). congruence.
    + eapply IH2; eauto.
  - destruct (Regex.exec r1 (pre ++ rest) k) as [y|] eqn:E; [eauto|].
    destruct Hm as [M | ->].
    + destruct (IH1 _ _ _ _ M Hk) as (y & Hy). congruence.
    + simpl. eauto.
  - subst pre. simpl. eauto.
  - destruct Hm as (-> & ->). simpl. eauto.
Qed.

End MatcherFacts.

(** ** The size-suffix pattern *)

Section SizeSuffixFacts.

(** Only a letter has another character that compares equal under [i]. *)
Lemma upper_nonletter (a c : ascii) :
  In c ["_"; "-"; "1"; "6"; "2"; "4"; "3"]%char -> Str.upper a = c -> a = c.
Proof.
  intros Hin. simpl in Hin.
  repeat (destruct Hin as [<- | Hin]; [each_char a|]). contradiction.
Qed.

Lemma sameChar_upper (a c : ascii) : Regex.sameChar a c = true <-> Str.upper a = Str.upper c.
Proof. unfold Regex.sameChar. apply Ascii.eqb_eq. Qed.

Lemma matches_word (w : string) :
  forall pre rest, Regex.matches (Regex.word w) pre rest <-> Str.toUpperCase pre = Str.toUpperCase w.
Proof.
  induction w as [|c w IH]; intros pre rest; simpl.
  - split; [intros ->; reflexivity | destruct pre; [reflexivity | discriminate]].
  - split.
    + intros (p1 & p2 & -> & (a & -> & E) & M). simpl.
      apply sameChar_upper in E. apply IH in M. congruence.
    + destruct pre as [|a p]; [discriminate|]. simpl. intros E. injection E as E1 E2.
      exists (String a ""), p. repeat split; [|now apply (IH p rest)].
      exists a. split; [reflexivity | now apply sameChar_upper].
Qed.

Lemma upper_numeral (num pre : string) :
  In num ["16"; "24"; "32"] -> Str.toUpperCase pre = num -> pre = num.
Proof.
  assert (D : forall x y, In x ["1"; "2"; "3"]%char -> In y ["6"; "4"; "2"]%char ->
                Str.toUpperCase pre = String x (String y "") -> pre = String x (String y "")).
  { intros x y Hx Hy E. destruct pre as [|a' [|b' [|c pre]]]; try discriminate.
    simpl in E. injection E as Ea Eb.
    apply upper_nonletter in Ea; [|simpl in *; tauto].
    apply upper_nonletter in Eb; [|simpl in *; tauto]. now subst. }
  intros Hin E. simpl in Hin.
  destruct Hin as [<- | [<- | [<- | []]]]; apply D; simpl; auto.
Qed.

Lemma matches_numeral (pre rest : string) :
  Regex.matches
    (Regex.Alt (Regex.word "16") (Regex.Alt (Regex.word "24") (Regex.word "32"))) pre rest
  <-> pre = "16" \/ pre = "24" \/ pre = "32".
Proof.
  cbn [Regex.matches]. rewrite !matches_word. split.
  - intros [E | [E | E]]; apply upper_numeral in E; simpl; auto.
  - intros [-> | [-> | ->]]; auto.
Qed.

Lemma matches_separator (pre rest : string) :
  Regex.matches (Regex.Opt (Regex.Class ["_"; "-"]%char)) pre rest
  <-> pre = "" \/ pre = "_" \/ pre = "-".
Proof.
  simpl. split.
  - intros [(a & -> & E) | ->]; [|auto].
    rewrite !orb_true_iff, !sameChar_upper in E.
    destruct E as [E | [E | E]]; [| |discriminate];
      apply upper_nonletter in E; try (simpl; tauto); subst; auto.
  - intros [-> | [-> | ->]]; [right; reflexivity | left; exists "_"%char | left; exists "-"%char];
      split; reflexivity.
Qed.

Lemma matches_unit (pre rest : string) :
  Regex.matches (Regex.Opt (Regex.word "dp")) pre rest
  <-> pre = "" \/ Str.toUpperCase pre = "DP".
Proof. cbn [Regex.matches]. rewrite matches_word. simpl. tauto. Qed.

(** The language of [sizeSuffixPattern] is the size suffixes, at the end of the subject. *)
Lemma matches_sizeSuffixPattern (pre rest : string) :
  Regex.matches sizeSuffixPattern pre rest <-> rest = "" /\ SizeSuffix pre.
Proof.
  unfold sizeSuffixPattern, SizeSuffix. cbn [Regex.matches]. split.
  - intros (sep & p1 & -> & Hsep & num & p2 & -> & Hnum & unit & e & -> & Hunit & -> & ->).
    apply (proj1 (matches_separator sep "")) in Hsep.
    apply (proj1 (matches_numeral num ((unit ++ "") ++ ""))) in Hnum.
    apply (proj1 (matches_unit unit ("" ++ ""))) in Hunit.
    split; [reflexivity|]. exists sep, num, unit. rewrite append_nil_r. repeat split; assumption.
  - intros (-> & sep & num & unit & -> & Hsep & Hnum & Hunit).
    exists sep, (num ++ unit). split; [reflexivity|].
    split; [now apply (proj2 (matches_separator sep ((num ++ unit) ++ "")))|].
    exists num, unit. split; [reflexivity|].
    split; [now apply (proj2 (matches_numeral num (unit ++ "")))|].
    exists unit, "". rewrite append_nil_r. split; [reflexivity|].
    split; [now apply (proj2 (matches_unit unit ("" ++ ""))) | auto].
Qed.

(** An attempt at one position succeeds exactly on a size suffix, and then
    nothing is left after the match. *)
Lemma matchHere_sizeSuffix (s rest : string) :
  Regex.matchHere sizeSuffixPattern s = Some rest <-> rest = "" /\ SizeSuffix s.
Proof.
  unfold Regex.matchHere. split.
  - intros H. apply exec_sound in H. destruct H as (pre & rest' & -> & M & E).
    injection E as ->. apply matches_sizeSuffixPattern in M. destruct M as (-> & M).
    now rewrite append_nil_r.
  - intros (-> & H).
    assert (M : Regex.matches sizeSuffixPattern s "") by now apply matches_sizeSuffixPattern.
    destruct (exec_complete _ sizeSuffixPattern s "" (@Some string) "" M eq_refl) as (y & Hy).
    rewrite append_nil_r in Hy. rewrite Hy.
    apply exec_sound in Hy. destruct Hy as (pre & rest' & _ & M' & E).
    injection E as ->. apply matches_sizeSuffixPattern in M'. now destruct M' as (-> & _).
Qed.

Lemma matchHere_none (s : string) :
  ~ SizeSuffix s -> Regex.matchHere sizeSuffixPattern s = None.
Proof.
  intros H. destruct (Regex.matchHere sizeSuffixPattern s) as [rest|] eqn:E; [|reflexivity].
  apply matchHere_sizeSuffix in E. tauto.
Qed.

Lemma variantSetBase_unfold (name : string) :
  variantSetBase name =
  match Regex.matchHere sizeSuffixPattern name with
  | Some rest => rest
  | None =>
      match name with
      | String c s' => String c (variantSetBase s')
      | EmptyString => EmptyString
      end
  end.
Proof. unfold variantSetBase. destruct name; reflexivity. Qed.

Lemma variantSetBase_no_suffix (name : string) :
  NoSizeSuffix name -> variantSetBase name = name.
Proof.
  induction name as [|c s IH]; intros H; rewrite variantSetBase_unfold;
    rewrite matchHere_none by (apply (H ""); reflexivity); [reflexivity|].
  rewrite IH; [reflexivity|].
  intros base suf ->. apply (H (String c base)). reflexivity.
Qed.

Lemma variantSetBase_longest (base : string) :
  forall name suf, LongestSizeSuffix name base suf -> variantSetBase name = base.
Proof.
  induction base as [|c base IH]; intros name suf (-> & Hs & Hmax); rewrite variantSetBase_unfold.
  - simpl. now rewrite (proj2 (matchHere_sizeSuffix suf "") (conj eq_refl Hs)).
  - rewrite matchHere_none.
    + simpl. f_equal. apply (IH _ suf). repeat split; [assumption|].
      intros base' suf' E. apply (Hmax (String c base')). simpl. now rewrite E.
    + intros H. specialize (Hmax "" _ eq_refl H). simpl in Hmax.
      rewrite length_append in Hmax. lia.
Qed.

Lemma variantSetBase_whole (name : string) : SizeSuffix name -> variantSetBase name = "".
Proof.
  intros H. apply (variantSetBase_longest "" name name).
  repeat split; [assumption|].
  intros base' suf' -> _. rewrite length_append. lia.
Qed.

(** Membership in the size suffixes can be computed: a size suffix has two to
    five characters and the pattern decides it. *)
Lemma SizeSuffix_iff (s : string) :
  SizeSuffix s <-> Regex.matchHere sizeSuffixPattern s = Some "".
Proof.
  rewrite matchHere_sizeSuffix. tauto.
Qed.

End SizeSuffixFacts.

(** C5. For every display name, VariantSetBase is derived by stripping one
    trailing size suffix (an optional [_] or [-], one of the numerals 16, 24
    and 32, and the optional unit letters [dp], in either case): the longest
    tail of the name that is a size suffix is removed, and a name none of
    whose tails is a size suffix is left unchanged. *)
Theorem variantSetBase_strips_size_suffix (name : string) :
  (NoSizeSuffix name -> variantSetBase name = name) /\
  (forall base suf, LongestSizeSuffix name base suf -> variantSetBase name = base).
Proof.
  split; [apply variantSetBase_no_suffix | intros base suf; apply variantSetBase_longest].
Qed.

(** C5, at three names: no suffix, a separated numeral, a numeral with unit
    letters in upper case. *)
Lemma variantSetBase_strips_size_suffix_witness :
  variantSetBase "home" = "home" /\
  variantSetBase "home_24" = "home" /\
  variantSetBase "Arrow-32DP" = "Arrow".
Proof.
  assert (D : forall s, Regex.matchHere sizeSuffixPattern s <> Some "" -> ~ SizeSuffix s)
    by (intros s H1 H2; apply H1, SizeSuffix_iff, H2).
  split; [|split].
  - apply (proj1 (variantSetBase_strips_size_suffix "home")).
    intros base suf E.
    repeat (destruct base as [|? base]; simpl in E;
            [subst suf; apply D; vm_compute; discriminate
            | first [injection E as _ E | discriminate E]]).
  - apply (proj2 (variantSetBase_strips_size_suffix "home_24") "home" "_24").
    split; [reflexivity|]. split; [apply SizeSuffix_iff; reflexivity|].
    intros base suf E H.
    repeat (destruct base as [|? base]; simpl in E;
            [subst suf; first [simpl; lia | exfalso; revert H; apply D; vm_compute; discriminate]
            | first [injection E as _ E | discriminate E]]).
  - apply (proj2 (variantSetBase_strips_size_suffix "Arrow-32DP") "Arrow" "-32DP").
    split; [reflexivity|]. split; [apply SizeSuffix_iff; reflexivity|].
    intros base suf E H.
    repeat (destruct base as [|? base]; simpl in E;
            [subst suf; first [simpl; lia | exfalso; revert H; apply D; vm_compute; discriminate]
            | first [injection E as _ E | discriminate E]]).
Defined.

(** ** Selection reading *)

Section SelectionFacts.

Variable h : Host.

Lemma logged_nil (w : World) : logged w [] = w.
Proof. destruct w. unfold logged. simpl. now rewrite app_nil_r. Qed.

(** An empty selection is reported and closes the plugin. *)
Lemma getIconNodes_empty (w : World) :
  w_selection w = [] ->
  getIconNodes w =
  (Ok [], logged w [Notify "Please select one or more icons, or a frame containing icons." true;
                    ClosePlugin]).
Proof.
  intros E. unfold getIconNodes, bind, selection, notify, closePlugin, emit, modify, ret, logged.
  rewrite E. simpl. rewrite E. now rewrite <- app_assoc.
Qed.

(** ... and [main] stops there: nothing else happens. *)
Lemma main_empty_selection (w : World) :
  w_selection w = [] ->
  main h w =
  (Ok tt, logged w [Notify "Please select one or more icons, or a frame containing icons." true;
                    ClosePlugin]).
Proof.
  intros E. unfold main, bind. now rewrite (getIconNodes_empty w E).
Qed.

(** On a non-empty selection the resolver touches nothing. *)
Lemma getIconNodes_pure (w : World) :
  w_selection w <> [] -> snd (getIconNodes w) = w.
Proof.
  intros E. unfold getIconNodes, bind, selection, ret.
  destruct (w_selection w) as [|node [|node' sel]] eqn:Es; [contradiction| |reflexivity].
  simpl. destruct (node_children node) as [[|c cs]|]; try reflexivity.
  destruct (isComponentOrInstance node); [reflexivity|].
  destruct (0 <? _); reflexivity.
Qed.

(** A lone container none of whose children is exportable falls through to
    the selection itself. *)
Lemma getIconNodes_falls_through (w : World) (node : Node) (cs : list Node) :
  w_selection w = [node] ->
  node_children node = Some cs ->
  isComponentOrInstance node = false ->
  filter isExportableNode cs = [] ->
  getIconNodes w = (Ok (filter isExportableNode [node]), w).
Proof.
  intros Es Ec Ek Ef. unfold getIconNodes, bind, selection, ret. rewrite Es. simpl.
  rewrite Ec. destruct cs as [|c cs]; [reflexivity|]. rewrite Ek, Ef. reflexivity.
Qed.

(** When a non-empty selection resolves to no icon, [main] returns without a
    notification and without closing the plugin. *)
Lemma main_silent_on_unexportable (w : World) :
  w_selection w <> [] ->
  fst (getIconNodes w) = Ok [] ->
  main h w = (Ok tt, w).
Proof.
  intros Es E. unfold main, bind.
  pose proof (getIconNodes_pure w Es) as P.
  destruct (getIconNodes w) as [r w']. simpl in *. subst. reflexivity.
Qed.

End SelectionFacts.

(** C8, where the code departs from it.  One hidden vector is selected: the
    candidate list is empty, and [main] ends with no notification and
    without closing the plugin, although the empty selection and the
    export that yields nothing both notify and close. *)
Theorem unexportable_selection_ends_silently :
  let w := emptyWorld [hidden (vectorNode 5 "a" [])] in
  fst (getIconNodes w) = Ok [] /\
  main workingHost w = (Ok tt, w) /\
  w_log (snd (main workingHost w)) = [] /\
  w_log (snd (main workingHost (emptyWorld []))) =
    [Notify "Please select one or more icons, or a frame containing icons." true; ClosePlugin].
Proof. repeat split. Qed.

(** C9. When the selection is exactly one node of component or instance kind
    with at least one child, the resolver returns that node as the single
    icon, whatever its visibility and whether or not it can be exported, and
    [main] goes on to announce one icon and to export that node. *)
Theorem lone_component_is_taken_unchecked
  (h : Host) (w : World) (node child : Node) (others : list Node) :
  w_selection w = [node] ->
  isComponentOrInstance node = true ->
  node_children node = Some (child :: others) ->
  getIconNodes w = (Ok [node], w) /\
  main h w =
  (notify "[v3.3] Normalizing 1 icon(s)..." false ;;;
   icons <- exportIcons h [node] ;;
   if List.length icons =? 0 then
     notify "No exportable icons found in selection." true ;;; closePlugin
   else emit (PostMessage icons))%monad w.
Proof.
  intros Es Ek Ec.
  assert (G : getIconNodes w = (Ok [node], w)).
  { unfold getIconNodes, bind, selection, ret. rewrite Es. simpl. now rewrite Ec, Ek. }
  split; [exact G|]. unfold main. unfold bind at 1. now rewrite G.
Qed.

(** C9 on a hidden component holding one path. *)
Lemma lone_component_is_taken_unchecked_witness :
  let node := hidden (componentNode 5 "star" [vectorNode 6 "path" []]) in
  node_visible node = false /\
  getIconNodes (emptyWorld [node]) = (Ok [node], emptyWorld [node]) /\
  w_log (snd (main workingHost (emptyWorld [node]))) =
    [Notify "[v3.3] Normalizing 1 icon(s)..." false; PostMessage [("star", "<svg>star</svg>")]].
Proof.
  pose proof (lone_component_is_taken_unchecked workingHost
                (emptyWorld [hidden (componentNode 5 "star" [vectorNode 6 "path" []])])
                (hidden (componentNode 5 "star" [vectorNode 6 "path" []]))
                (vectorNode 6 "path" []) [] eq_refl eq_refl eq_refl) as [G Hm].
  cbv zeta. split; [reflexivity|]. split; [exact G|]. rewrite Hm. reflexivity.
Defined.

(** ** Rules for the monad *)

Section MonadRules.

Context {S : Type}.

Lemma post_ret {A} (a : A) (s : S) (Q : Res A -> S -> Prop) : Q (Ok a) s -> post (ret a) s Q.
Proof. exact (fun H => H). Qed.

Lemma post_throw {A} (e : string) (s : S) (Q : Res A -> S -> Prop) :
  Q (Throw e) s -> post (throw e) s Q.
Proof. exact (fun H => H). Qed.

Lemma post_bind {A B} (m : M S A) (k : A -> M S B) (s : S) (Q : Res B -> S -> Prop) :
  post m s (fun r s' => match r with
                        | Ok a => post (k a) s' Q
                        | Throw e => Q (Throw e) s'
                        end) ->
  post (bind m k) s Q.
Proof. unfold post, bind. destruct (m s) as [[a|e] s']; simpl; auto. Qed.

Lemma post_tryCatch {A} (m : M S A) (hd : string -> M S A) (s : S) (Q : Res A -> S -> Prop) :
  post m s (fun r s' => match r with
                        | Ok a => Q (Ok a) s'
                        | Throw e => post (hd e) s' Q
                        end) ->
  post (tryCatch m hd) s Q.
Proof. unfold post, tryCatch. destruct (m s) as [[a|e] s']; simpl; auto. Qed.

Lemma post_weaken {A} (m : M S A) (s : S) (Q Q' : Res A -> S -> Prop) :
  post m s Q -> (forall r s', Q r s' -> Q' r s') -> post m s Q'.
Proof. unfold post. auto. Qed.

Lemma post_stable {A} (R : S -> S -> Prop) (m : M S A) (s : S) :
  stable R m -> post m s (fun _ s' => R s s').
Proof. intros H. apply H. Qed.

Lemma post_and {A} (m : M S A) (s : S) (Q Q' : Res A -> S -> Prop) :
  post m s Q -> post m s Q' -> post m s (fun r s' => Q r s' /\ Q' r s').
Proof. unfold post. auto. Qed.

Lemma post_total {A} (m : M S A) (s : S) :
  total m -> post m s (fun r _ => exists a, r = Ok a).
Proof. intros H. apply H. Qed.

Variable R : S -> S -> Prop.
Hypothesis R_refl : forall s, R s s.
Hypothesis R_trans : forall a b c, R a b -> R b c -> R a c.

Lemma stable_ret {A} (a : A) : stable R (ret a).
Proof. intros s. apply R_refl. Qed.

Lemma stable_throw {A} (e : string) : stable R (@throw S A e).
Proof. intros s. apply R_refl. Qed.

Lemma stable_bind {A B} (m : M S A) (k : A -> M S B) :
  stable R m -> (forall a, stable R (k a)) -> stable R (bind m k).
Proof.
  intros Hm Hk s. unfold bind. specialize (Hm s).
  destruct (m s) as [[a|e] s']; simpl in *; [|assumption].
  eapply R_trans; [eassumption | apply Hk].
Qed.

Lemma stable_tryCatch {A} (m : M S A) (hd : string -> M S A) :
  stable R m -> (forall e, stable R (hd e)) -> stable R (tryCatch m hd).
Proof.
  intros Hm Hh s. unfold tryCatch. specialize (Hm s).
  destruct (m s) as [[a|e] s']; simpl in *; [assumption|].
  eapply R_trans; [eassumption | apply Hh].
Qed.

Lemma stable_forEach {A} (xs : list A) (body : A -> M S unit) :
  (forall x, stable R (body x)) -> stable R (forEach xs body).
Proof.
  intros Hb. induction xs as [|x xs IH]; simpl.
  - apply stable_ret.
  - apply stable_bind; auto.
Qed.

Lemma stable_forAcc {A B} (xs : list A) (body : B -> A -> M S B) :
  (forall acc x, stable R (body acc x)) -> forall acc, stable R (forAcc xs acc body).
Proof.
  intros Hb. induction xs as [|x xs IH]; intros acc; simpl.
  - apply stable_ret.
  - apply stable_bind; auto.
Qed.

Lemma total_ret {A} (a : A) : total (@ret S A a).
Proof. intros s. now exists a. Qed.

Lemma total_bind {A B} (m : M S A) (k : A -> M S B) :
  total m -> (forall a, total (k a)) -> total (bind m k).
Proof.
  intros Hm Hk s. unfold bind. destruct (Hm s) as (a & Ha).
  destruct (m s) as [[a'|e] s']; simpl in *; [|discriminate]. apply Hk.
Qed.

(** A [try] whose handler cannot throw cannot throw. *)
Lemma total_tryCatch {A} (m : M S A) (hd : string -> M S A) :
  (forall e, total (hd e)) -> total (tryCatch m hd).
Proof.
  intros Hh s. unfold tryCatch. destruct (m s) as [[a|e] s']; simpl; [now exists a | apply Hh].
Qed.

Lemma total_forEach {A} (xs : list A) (body : A -> M S unit) :
  (forall x, total (body x)) -> total (forEach xs body).
Proof.
  intros Hb. induction xs as [|x xs IH]; simpl.
  - apply total_ret.
  - apply total_bind; auto.
Qed.

End MonadRules.

(** ** The world only moves on *)

Section Extension.

Variable P : Event -> Prop.

Lemma extends_refl (w : World) : extends P w w.
Proof. split; [lia|]. exists []. now rewrite app_nil_r. Qed.

Lemma extends_trans (a b c : World) : extends P a b -> extends P b c -> extends P a c.
Proof.
  intros (N1 & e1 & L1 & F1) (N2 & e2 & L2 & F2). split; [lia|].
  exists (e1 ++ e2)%list. rewrite L2, L1, app_assoc. split; [reflexivity|].
  apply Forall_app. auto.
Qed.

Lemma sameShell_refl (o : Node) : sameShell o o.
Proof. unfold sameShell. tauto. Qed.

Lemma sameShell_trans (a b c : Node) : sameShell a b -> sameShell b c -> sameShell a c.
Proof. unfold sameShell. intuition congruence. Qed.

Lemma keeps_refl (s : Obj) : keeps P s s.
Proof. split; [apply sameShell_refl | apply extends_refl]. Qed.

Lemma keeps_trans (a b c : Obj) : keeps P a b -> keeps P b c -> keeps P a c.
Proof.
  intros [S1 E1] [S2 E2]. split; [eapply sameShell_trans | eapply extends_trans]; eauto.
Qed.

Lemma aside_refl (s : Obj) : aside P s s.
Proof. split; [reflexivity | apply extends_refl]. Qed.

Lemma aside_trans (a b c : Obj) : aside P a b -> aside P b c -> aside P a c.
Proof.
  intros [S1 E1] [S2 E2]. split; [congruence | eapply extends_trans; eauto].
Qed.

Lemma emit_extends (e : Event) : P e -> stable (extends P) (emit e).
Proof.
  intros He w. split; simpl; [lia|]. exists [e]. auto.
Qed.

Lemma freshId_extends : stable (extends P) freshId.
Proof. intros w. split; simpl; [lia|]. exists []. now rewrite app_nil_r. Qed.

Lemma remove_extends (n : Node) : stable (extends P) (remove n).
Proof. intros w. split; simpl; [lia|]. exists []. now rewrite app_nil_r. Qed.

Lemma lift_keeps {A} (m : M World A) : stable (extends P) m -> stable (keeps P) (lift m).
Proof.
  intros H [o w]. unfold lift. simpl. specialize (H w).
  destruct (m w) as [r w']. simpl in *. split; [apply sameShell_refl | assumption].
Qed.

Lemma lift_aside {A} (m : M World A) : stable (extends P) m -> stable (aside P) (lift m).
Proof.
  intros H [o w]. unfold lift. simpl. specialize (H w).
  destruct (m w) as [r w']. simpl in *. split; [reflexivity | assumption].
Qed.

Lemma update_keeps (f : Node -> Node) :
  (forall o, sameShell o (f o)) -> stable (keeps P) (update f).
Proof. intros H [o w]. split; simpl; [apply H | apply extends_refl]. Qed.

Lemma self_keeps : stable (keeps P) self.
Proof. intros s. apply keeps_refl. Qed.

Lemma isRemoved_keeps (id : NodeId) : stable (keeps P) (isRemoved id).
Proof. intros s. apply keeps_refl. Qed.

Lemma onScene_keeps {A} (prim : Scene -> Res A * Scene) (ev : bool -> Event) :
  (forall b, P (ev b)) -> stable (keeps P) (onScene prim ev).
Proof.
  intros He [o w]. unfold onScene.
  destruct (prim _) as [r sc]. split; simpl.
  - unfold sameShell. destruct (node_children o) eqn:E; simpl; rewrite ?E;
      repeat split; try reflexivity; discriminate.
  - split; simpl; [lia|]. exists [ev (isThrow r)]. auto.
Qed.

(** A callee that keeps the shell of its object leaves the caller's own
    object alone. *)
Lemma nested_aside {A} (o : Node) (m : M Obj A) :
  stable (keeps P) m -> stable (aside P) (nested o m).
Proof.
  intros H [f w]. unfold nested. simpl. specialize (H (o, w)).
  destruct (m (o, w)) as [[a|e] [o' w']]; simpl in *; split; try reflexivity; apply H.
Qed.

End Extension.

(** ** Outline and flatten *)

Section GeometryFacts.

Variable h : Host.

Lemma clearStrokes_shell (o : Node) : sameShell o (clearStrokes o).
Proof. unfold sameShell. simpl. tauto. Qed.

Lemma set_strokes_shell (v : list Paint) (o : Node) : sameShell o (set_strokes v o).
Proof. unfold sameShell. simpl. tauto. Qed.

Lemma set_strokeWeight_shell (v : float) (o : Node) : sameShell o (set_strokeWeight v o).
Proof. unfold sameShell. simpl. tauto. Qed.

Lemma set_children_shell (o : Node) (cs : list Node) :
  node_children o <> None -> sameShell o (set_children (Some cs) o).
Proof. unfold sameShell. simpl. intros H. repeat split; try tauto; discriminate. Qed.

Lemma updateById_shell (id : NodeId) (f : Node -> Node) (o : Node) :
  (forall n, sameShell n (f n)) -> sameShell o (updateById id f o).
Proof.
  intros Hf. destruct o as [i ty nm vis ex box wd ht st sw pr ch].
  assert (E : sameShell (mkNode i ty nm vis ex box wd ht st sw pr ch)
                match ch with
                | Some cs => set_children (Some (map (updateById id f) cs))
                               (mkNode i ty nm vis ex box wd ht st sw pr ch)
                | None => mkNode i ty nm vis ex box wd ht st sw pr ch
                end).
  { destruct ch; [apply set_children_shell; discriminate | apply sameShell_refl]. }
  simpl. destruct ch as [cs|]; simpl in *; destruct (i =? id);
    try assumption; (eapply sameShell_trans; [exact E | apply Hf]).
Qed.

(** One pass over the collected nodes returns normally and logs nothing but
    outline calls. *)
Lemma outlineNode_calls (node : Node) (o : Node) (w : World) :
  exists o' w' calls,
    outlineNode h node (o, w) = (Ok tt, (o', w')) /\
    w_log w' = (w_log w ++ calls)%list /\ Forall isOutlineCall calls.
Proof.
  unfold outlineNode, bind at 1, isRemoved. cbn [snd fst].
  destruct (existsb (Nat.eqb (node_id node)) (w_removed w)).
  - exists o, w, []. rewrite app_nil_r. repeat split. constructor.
  - unfold tryCatch, bind, onScene, ret.
    destruct (host_outlineStroke h (node_id node) _) as [r sc].
    do 2 eexists. exists [OutlineStroke (node_id node) (isThrow r)].
    destruct r; (split; [reflexivity|]); (split; [reflexivity|]); repeat constructor.
Qed.

Lemma outlineEach_calls (stroked : list Node) :
  forall o w, exists o' w' calls,
    outlineEach h stroked (o, w) = (Ok tt, (o', w')) /\
    w_log w' = (w_log w ++ calls)%list /\ Forall isOutlineCall calls.
Proof.
  unfold outlineEach. induction stroked as [|node stroked IH]; intros o w.
  - exists o, w, []. simpl. now rewrite app_nil_r.
  - cbn [forEach]. unfold bind.
    destruct (outlineNode_calls node o w) as (o1 & w1 & c1 & E1 & L1 & F1). rewrite E1.
    destruct (IH o1 w1) as (o' & w' & c2 & E2 & L2 & F2).
    exists o', w', (c1 ++ c2)%list. rewrite E2, L2, L1, app_assoc.
    repeat split. apply Forall_app. auto.
Qed.

(** The pass loop returns normally and its events have the shape of
    [PassTrace]. *)
Lemma outlinePasses_trace (left : nat) :
  forall pass o w, exists o' w' evs,
    outlinePasses h left pass (o, w) = (Ok tt, (o', w')) /\
    w_log w' = (w_log w ++ evs)%list /\ PassTrace left pass evs.
Proof.
  induction left as [|left IH]; intros pass o w.
  - exists o, w, []. simpl. rewrite app_nil_r. repeat split. constructor.
  - cbn [outlinePasses]. unfold bind at 1, self at 1. cbn [fst].
    unfold bind at 1, lift, emit, modify. cbn [fst snd].
    destruct (collectStrokedNodes o) as [|n stroked] eqn:Ec.
    + simpl. eexists o, _, [Scan pass []]. repeat split. constructor.
    + cbn [List.length Nat.eqb]. unfold bind at 1.
      match goal with
      | |- context [outlineEach h ?l (o, ?w1)] =>
          destruct (outlineEach_calls l o w1) as (o1 & w2 & calls & E1 & L1 & F1)
      end.
      rewrite E1. destruct (IH (S pass) o1 w2) as (o' & w' & rest & E2 & L2 & T2).
      exists o', w', (Scan pass (map node_id (n :: stroked)) :: calls ++ rest)%list.
      rewrite E2, L2, L1. simpl. rewrite <- !app_assoc. simpl.
      repeat split. constructor; [discriminate | assumption | assumption].
Qed.

Lemma PassTrace_scans (left pass : nat) (evs : list Event) :
  PassTrace left pass evs -> countScans evs <= left.
Proof.
  unfold countScans. induction 1 as [ | | left pass found calls rest Hne Hc _ IH]; simpl; try lia.
  rewrite filter_app, length_app.
  assert (Z : filter (fun e => match e with Scan _ _ => true | _ => false end) calls = []).
  { clear -Hc. induction Hc as [|e calls He _ IH]; simpl; [reflexivity|].
    destruct e; simpl in *; try contradiction. assumption. }
  rewrite Z. simpl. lia.
Qed.

Lemma split_after_calls (calls rest pre post : list Event) (e : Event) :
  ~ isOutlineCall e -> Forall isOutlineCall calls ->
  (pre ++ e :: post = calls ++ rest)%list ->
  exists pre', (pre' ++ e :: post = rest)%list.
Proof.
  intros Hn Hc. revert pre. induction Hc as [|c calls Hcall _ IH]; intros pre E; simpl in E.
  - eauto.
  - destruct pre as [|p pre]; simpl in E; injection E as -> E; [contradiction | eauto].
Qed.

(** A scan that finds nothing ends the loop. *)
Lemma PassTrace_empty_scan_is_last (left pass : nat) (evs : list Event) :
  PassTrace left pass evs ->
  forall pre p post, evs = (pre ++ Scan p [] :: post)%list -> post = [].
Proof.
  induction 1 as [ | | left pass found calls rest Hne Hc _ IH]; intros pre p post E.
  - destruct pre; discriminate.
  - destruct pre as [|x [|y pre]]; simpl in E; [now injection E | discriminate | discriminate].
  - destruct pre as [|x pre]; simpl in E; injection E as E1 E2; [congruence|].
    symmetry in E2. apply split_after_calls in E2; [|simpl; tauto | assumption].
    destruct E2 as (pre' & E2). eapply IH. symmetry. exact E2.
Qed.

Lemma strokes_need_children (o : Node) :
  0 < strokeCount o -> exists c cs, node_children o = Some (c :: cs).
Proof.
  unfold strokeCount. destruct o as [i ty nm vis ex box wd ht st sw pr [[|c cs]|]];
    simpl; try lia. eauto.
Qed.

(** A guarded write changes the object held at most, never the world. *)
Lemma assign_run (id : NodeId) (key : string) (f : Node -> Node) (o : Node) (w : World) :
  exists r o', assign h id key f (o, w) = (r, (o', w)).
Proof.
  unfold assign. destruct (host_assign h id key); do 2 eexists; reflexivity.
Qed.

Lemma assignNoStrokes_run (id : NodeId) (o : Node) (w : World) :
  exists r o', assignNoStrokes h id (o, w) = (r, (o', w)).
Proof.
  unfold assignNoStrokes, bind.
  destruct (assign_run id "strokes" (set_strokes []) o w) as ([[]|e] & o1 & ->);
    [apply assign_run | do 2 eexists; reflexivity].
Qed.

Lemma clearFlat_run (flat : option NodeId) (o : Node) (w : World) :
  exists r o', clearFlat h flat (o, w) = (r, (o', w)).
Proof.
  unfold clearFlat. destruct flat as [id|]; [|do 2 eexists; reflexivity].
  unfold bind, deref. cbn [fst].
  destruct (findById id o) as [n|]; [|do 2 eexists; reflexivity].
  destruct (node_strokes n); [apply assignNoStrokes_run | do 2 eexists; reflexivity].
Qed.

(** The flatten step is attempted whenever the component holds a child, and
    never throws. *)
Lemma flattenChildren_attempt (o : Node) (w : World) (c : Node) (cs : list Node) :
  node_children o = Some (c :: cs) ->
  exists o' w' threw more,
    flattenChildren h (o, w) = (Ok tt, (o', w')) /\
    w_log w' = (w_log w ++ Flatten (map node_id (c :: cs)) threw :: more)%list.
Proof.
  intros Ec. unfold flattenChildren, bind at 1, self at 1. cbn [fst]. rewrite Ec.
  unfold tryCatch, bind at 1, onScene. rewrite Ec.
  destruct (host_flatten h _ _) as [[flat|e] sc]; cbn [isThrow].
  - match goal with
    | |- context [clearFlat h flat (?o1, ?w1)] =>
        destruct (clearFlat_run flat o1 w1) as ([[]|e] & o2 & ->)
    end.
    + do 2 eexists. exists false, []. split; reflexivity.
    + do 2 eexists. exists false, [ConsoleWarn ("flatten failed for " ++ node_name o) e].
      unfold lift, consoleWarn, emit, modify. cbn [fst snd w_log]. rewrite <- app_assoc.
      split; reflexivity.
  - do 2 eexists. exists true, [ConsoleWarn ("flatten failed for " ++ node_name o) e].
    unfold lift, consoleWarn, emit, modify. cbn [fst snd w_log]. rewrite <- app_assoc.
    split; reflexivity.
Qed.

Lemma outlineEach_keeps (stroked : list Node) : stable (keeps quiet) (outlineEach h stroked).
Proof.
  apply stable_forEach; [apply keeps_refl | apply keeps_trans|]. intros node.
  apply stable_bind; [apply keeps_trans | apply isRemoved_keeps|].
  intros [|]; [apply stable_ret, keeps_refl|].
  apply stable_tryCatch; [apply keeps_trans | | intros; apply stable_ret, keeps_refl].
  apply stable_bind; [apply keeps_trans | | intros; apply stable_ret, keeps_refl].
  apply onScene_keeps. reflexivity.
Qed.

Lemma outlinePasses_keeps (left : nat) : forall pass, stable (keeps quiet) (outlinePasses h left pass).
Proof.
  induction left as [|left IH]; intros pass; cbn [outlinePasses].
  - apply stable_ret, keeps_refl.
  - apply stable_bind; [apply keeps_trans | apply self_keeps|]. intros comp.
    apply stable_bind; [apply keeps_trans | |].
    + apply lift_keeps, emit_extends. reflexivity.
    + intros _. destruct (_ =? 0); [apply stable_ret, keeps_refl|].
      apply stable_bind; [apply keeps_trans | apply outlineEach_keeps | auto].
Qed.

Lemma assign_keeps (id : NodeId) (key : string) (f : Node -> Node) :
  (forall n, sameShell n (f n)) -> stable (keeps quiet) (assign h id key f).
Proof.
  intros Hf. unfold assign. destruct (host_assign h id key); [|apply stable_throw, keeps_refl].
  apply update_keeps. intros o. now apply updateById_shell.
Qed.

Lemma assignNoStrokes_keeps (id : NodeId) : stable (keeps quiet) (assignNoStrokes h id).
Proof.
  unfold assignNoStrokes. apply stable_bind; [apply keeps_trans | |].
  - apply assign_keeps. intros n. apply set_strokes_shell.
  - intros _. apply assign_keeps. intros n. apply set_strokeWeight_shell.
Qed.

Lemma clearFlat_keeps (flat : option NodeId) : stable (keeps quiet) (clearFlat h flat).
Proof.
  unfold clearFlat. destruct flat as [id|]; [|apply stable_ret, keeps_refl].
  apply stable_bind; [apply keeps_trans | intros s; apply keeps_refl|].
  intros [n|]; [|apply stable_ret, keeps_refl].
  destruct (node_strokes n); [apply assignNoStrokes_keeps | apply stable_ret, keeps_refl].
Qed.

Lemma flattenChildren_keeps : stable (keeps quiet) (flattenChildren h).
Proof.
  unfold flattenChildren.
  apply stable_bind; [apply keeps_trans | apply self_keeps|]. intros comp.
  destruct (node_children comp) as [[|c cs]|]; try apply stable_ret, keeps_refl.
  apply stable_tryCatch; [apply keeps_trans | |].
  - apply stable_bind; [apply keeps_trans | apply onScene_keeps; reflexivity|].
    intros flat. apply clearFlat_keeps.
  - intros e. apply lift_keeps, emit_extends. reflexivity.
Qed.

(** The body of the last loop never throws and touches its child only. *)
Lemma stripChild_run (child f : Node) (w : World) :
  nested child (stripChild h) (f, w) = (Ok (tt, stripped h child), (f, w)).
Proof.
  unfold nested, stripChild, bind at 1, self, stripped. cbn [fst snd].
  destruct (hasActiveStrokes child); [|reflexivity].
  unfold tryCatch, assignNoStrokes, bind, assign.
  destruct (host_assign h (node_id child) "strokes"); [|reflexivity].
  unfold update at 1, modify. cbn [fst snd].
  destruct (host_assign h (node_id child) "strokeWeight"); reflexivity.
Qed.

Lemma clearRemainingChildren_run (o : Node) (w : World) :
  clearRemainingChildren h (o, w) = (Ok tt, (strippedAll h o, w)).
Proof.
  unfold clearRemainingChildren, strippedAll, bind at 1, self. cbn [fst].
  destruct (node_children o) as [cs|]; [|reflexivity].
  assert (L : forall done : list Node,
             forAcc cs done (fun done child =>
               r <- nested child (stripChild h) ;; ret (done ++ [snd r])%list) (o, w) =
             (Ok (done ++ map (stripped h) cs)%list, (o, w))).
  { induction cs as [|c cs IH]; intros done; cbn [forAcc map].
    - now rewrite app_nil_r.
    - unfold bind at 1, bind at 1. rewrite stripChild_run. cbn [ret snd].
      rewrite IH, <- app_assoc. reflexivity. }
  unfold bind. rewrite L. reflexivity.
Qed.

Lemma strippedAll_shell (o : Node) : sameShell o (strippedAll h o).
Proof.
  unfold strippedAll. destruct (node_children o) eqn:E; [|apply sameShell_refl].
  apply set_children_shell. congruence.
Qed.

Lemma clearRemainingChildren_keeps : stable (keeps quiet) (clearRemainingChildren h).
Proof.
  intros [o w]. rewrite clearRemainingChildren_run.
  split; [apply strippedAll_shell | apply extends_refl].
Qed.

(** Whatever the host does, the geometry pass keeps the name, the size and the
    kind of the component and logs no assembly failure. *)
Lemma outlineAndFlatten_keeps : stable (keeps quiet) (outlineAndFlatten h).
Proof.
  unfold outlineAndFlatten.
  apply stable_bind; [apply keeps_trans | apply outlinePasses_keeps|]. intros _.
  apply stable_bind; [apply keeps_trans | apply flattenChildren_keeps|]. intros _.
  apply clearRemainingChildren_keeps.
Qed.

Lemma flattenChildren_total : total (flattenChildren h).
Proof.
  unfold flattenChildren. apply total_bind; [intros s; now exists (fst s)|]. intros comp.
  destruct (node_children comp) as [[|c cs]|]; try apply total_ret.
  apply total_tryCatch. intros e [o w]. now exists tt.
Qed.

(** The geometry pass never throws. *)
Lemma outlineAndFlatten_total : total (outlineAndFlatten h).
Proof.
  unfold outlineAndFlatten. apply total_bind.
  - intros [o w]. destruct (outlinePasses_trace 5 0 o w) as (o' & w' & evs & E & _). rewrite E.
    now exists tt.
  - intros _. apply total_bind; [apply flattenChildren_total|]. intros _ [o w].
    rewrite clearRemainingChildren_run. now exists tt.
Qed.

Lemma updateById_root (id : NodeId) (f : Node -> Node) (n : Node) :
  node_id n = id ->
  updateById id f n =
  f match node_children n with
    | Some cs => set_children (Some (map (updateById id f) cs)) n
    | None => n
    end.
Proof.
  destruct n as [i ty nm vis ex box wd ht st sw pr [cs|]]; simpl; intros ->;
    now rewrite Nat.eqb_refl.
Qed.

(** What the last loop leaves of a child: a child that still carries an
    active stroke is one whose [strokes] the host refused to write. *)
Lemma stripped_strokes (child : Node) :
  hasActiveStrokes (stripped h child) = true -> refusesStrokes h (stripped h child).
Proof.
  unfold stripped, refusesStrokes. destruct (hasActiveStrokes child) eqn:Ea; [|congruence].
  destruct (host_assign h (node_id child) "strokes") as [[]|e] eqn:Es; [|eauto].
  intros H. exfalso. revert H.
  assert (Z : hasActiveStrokes (updateById (node_id child) (set_strokes []) child) = false).
  { rewrite updateById_root by reflexivity. reflexivity. }
  destruct (host_assign h (node_id child) "strokeWeight"); [|congruence].
  rewrite updateById_root.
  - destruct (node_children _); unfold hasActiveStrokes in *; simpl in *; congruence.
  - rewrite updateById_root by reflexivity. destruct (node_children child); reflexivity.
Qed.

Lemma outlineAndFlatten_strips (o : Node) (w : World) :
  exists o2, fst (snd (outlineAndFlatten h (o, w))) = strippedAll h o2.
Proof.
  unfold outlineAndFlatten, bind.
  destruct (outlinePasses_trace 5 0 o w) as (o1 & w1 & evs & E & _). rewrite E.
  destruct (flattenChildren_total (o1, w1)) as ([] & Ef).
  destruct (flattenChildren h (o1, w1)) as [r [o2 w2]]. simpl in Ef. subst r.
  rewrite clearRemainingChildren_run. now exists o2.
Qed.

(** After the strip pass a direct child that carries an active stroke is one
    that the host did not let the code write to. *)
Lemma strip_pass_clears_children (o : Node) (w : World) :
  Forall (fun child => hasActiveStrokes child = true -> refusesStrokes h child)
         (childrenOf (fst (snd (outlineAndFlatten h (o, w))))).
Proof.
  destruct (outlineAndFlatten_strips o w) as (o2 & ->).
  unfold strippedAll, childrenOf.
  destruct (node_children o2) as [cs|] eqn:E2; [simpl | rewrite E2; constructor].
  apply Forall_map, Forall_forall. intros c _. apply stripped_strokes.
Qed.

End GeometryFacts.

(** C6. For every input subtree and every host, the outline loop returns: it
    scans at most five times, a scan that finds no stroked node is the last
    thing the loop does, and the geometry pass then returns normally; when
    stroked nodes are still there after the loop, the flatten call on the
    children of the component is made all the same. *)
Theorem outline_loop_is_bounded (h : Host) (comp : Node) (w : World) :
  exists comp1 w1 comp2 w2 evs,
    outlinePasses h 5 0 (comp, w) = (Ok tt, (comp1, w1)) /\
    w_log w1 = (w_log w ++ evs)%list /\
    PassTrace 5 0 evs /\
    countScans evs <= 5 /\
    (forall pre pass post, evs = (pre ++ Scan pass [] :: post)%list -> post = []) /\
    outlineAndFlatten h (comp, w) = (Ok tt, (comp2, w2)) /\
    (0 < strokeCount comp1 ->
     exists threw, In (Flatten (map node_id (childrenOf comp1)) threw) (w_log w2)).
Proof.
  destruct (outlinePasses_trace h 5 0 comp w) as (comp1 & w1 & evs & E & L & T).
  destruct (outlineAndFlatten_total h (comp, w)) as ([] & Et).
  destruct (outlineAndFlatten h (comp, w)) as [r [comp2 w2]] eqn:Ea. simpl in Et. subst r.
  exists comp1, w1, comp2, w2, evs. repeat split; try assumption.
  - eapply PassTrace_scans; eassumption.
  - eapply PassTrace_empty_scan_is_last; eassumption.
  - intros Hs. apply strokes_need_children in Hs. destruct Hs as (c & cs & Ec).
    destruct (flattenChildren_attempt h comp1 w1 c cs Ec) as (o' & w' & threw & more & Ef & Lf).
    exists threw. unfold outlineAndFlatten, bind in Ea. rewrite E, Ef in Ea.
    rewrite clearRemainingChildren_run in Ea.
    injection Ea as _ <-. unfold childrenOf. rewrite Ec, Lf.
    apply in_or_app. right. left. reflexivity.
Qed.

(** C1, where the code departs from it.  The size node holds a group with a
    stroked path, every [outlineStroke] call throws and [flatten] throws: the
    geometry pass returns normally, and the path below the group still
    carries its stroke, because the strip pass visits the direct children of
    the component only. *)
Theorem strip_pass_misses_nested_strokes :
  let run := outlineAndFlatten brokenGeometryHost (nestedStrokeComp, emptyWorld []) in
  fst run = Ok tt /\
  strokeCount nestedStrokeComp = 1 /\
  strokeCount (fst (snd run)) = 1 /\
  map node_id (collectStrokedNodes (fst (snd run))) = [11] /\
  w_log (snd (snd run)) =
    [Scan 0 [11]; OutlineStroke 11 true; Scan 1 [11]; OutlineStroke 11 true;
     Scan 2 [11]; OutlineStroke 11 true; Scan 3 [11]; OutlineStroke 11 true;
     Scan 4 [11]; OutlineStroke 11 true; Flatten [10] true;
     ConsoleWarn "flatten failed for home_16" "flatten failed"].
Proof. vm_compute. repeat split. Qed.

(** C7, where the code departs from it.  On the same size node and host the
    geometry pass is run twice: the stroke below the group is there after
    the first run and after the second. *)
Theorem second_run_leaves_nested_strokes :
  let run := twice (outlineAndFlatten brokenGeometryHost) (nestedStrokeComp, emptyWorld []) in
  exists first second,
    fst run = Ok (first, second) /\ strokeCount first = 1 /\ strokeCount second = 1.
Proof. vm_compute. do 2 eexists. repeat split. Qed.

(** ** Variant assembly *)

Section ReturnRules.

Context {S : Type}.

Lemma returns_ret {A} (R : A -> Prop) (a : A) : R a -> returns R (@ret S A a).
Proof. intros H s. exact H. Qed.

Lemma returns_throw {A} (R : A -> Prop) (e : string) : returns R (@throw S A e).
Proof. intros s. exact I. Qed.

Lemma returns_bind {A B} (R1 : A -> Prop) (R : B -> Prop) (m : M S A) (k : A -> M S B) :
  returns R1 m -> (forall a, R1 a -> returns R (k a)) -> returns R (bind m k).
Proof.
  intros Hm Hk s. unfold bind. specialize (Hm s).
  destruct (m s) as [[a|e] s']; simpl in *; [apply Hk, Hm | exact I].
Qed.

Lemma returns_bind_any {A B} (R : B -> Prop) (m : M S A) (k : A -> M S B) :
  (forall a, returns R (k a)) -> returns R (bind m k).
Proof.
  intros Hk. apply (returns_bind (fun _ => True)); [|auto].
  intros s. destruct (fst (m s)); exact I.
Qed.

Lemma returns_tryCatch {A} (R : A -> Prop) (m : M S A) (hd : string -> M S A) :
  returns R m -> (forall e, returns R (hd e)) -> returns R (tryCatch m hd).
Proof.
  intros Hm Hh s. unfold tryCatch. specialize (Hm s).
  destruct (m s) as [[a|e] s']; simpl in *; [exact Hm | apply Hh].
Qed.

End ReturnRules.

Section AssemblyFacts.

Variable h : Host.

Lemma returns_nested {A} (P : Event -> Prop) (o : Node) (m : M Obj A) :
  stable (keeps P) m -> returns (fun r => sameShell o (snd r)) (nested o m).
Proof.
  intros H [f w]. unfold nested. cbn [snd]. specialize (H (o, w)).
  destruct (m (o, w)) as [[a|e] [o' w']]; simpl in *; [apply H | exact I].
Qed.

Lemma appendChild_shell (child o : Node) : sameShell o (appendChild child o).
Proof.
  unfold appendChild. destruct (node_children o) eqn:E; [|apply sameShell_refl].
  apply set_children_shell. congruence.
Qed.

Lemma appendAll_shell (children : list Node) :
  forall o, sameShell o (fold_left (fun c child => appendChild child c) children o).
Proof.
  induction children as [|c cs IH]; intros o; simpl; [apply sameShell_refl|].
  eapply sameShell_trans; [apply appendChild_shell | apply IH].
Qed.

Lemma createNodeFromSvg_aside (svgStr : option string) :
  stable (aside quiet) (createNodeFromSvg h svgStr).
Proof.
  unfold createNodeFromSvg. destruct (host_createNodeFromSvg h svgStr);
    [apply stable_ret | apply stable_throw]; apply aside_refl.
Qed.

Lemma loadFontAsync_aside : stable (aside quiet) (loadFontAsync h).
Proof.
  unfold loadFontAsync. destruct (host_loadFontAsync h);
    [apply stable_ret | apply stable_throw]; apply aside_refl.
Qed.

Lemma createText_extends : stable (extends quiet) createText.
Proof.
  unfold createText. apply stable_bind; [apply extends_trans | apply freshId_extends|].
  intros id. apply stable_ret, extends_refl.
Qed.

Lemma importSvg_aside (svgStr : option string) (comp : Node) :
  stable (aside quiet) (importSvg h svgStr comp).
Proof.
  unfold importSvg.
  apply stable_bind; [apply aside_trans | apply createNodeFromSvg_aside|]. intros svgNode.
  apply stable_bind; [apply aside_trans | |].
  { destruct (node_children svgNode); [apply stable_ret | apply stable_throw]; apply aside_refl. }
  intros children.
  apply stable_bind; [apply aside_trans | apply lift_aside, remove_extends|]. intros _.
  apply stable_bind; [apply aside_trans | apply nested_aside, outlineAndFlatten_keeps|].
  intros r. apply stable_ret, aside_refl.
Qed.

Lemma importSvg_returns (svgStr : option string) (comp : Node) :
  returns (sameShell comp) (importSvg h svgStr comp).
Proof.
  unfold importSvg. apply returns_bind_any. intros svgNode.
  apply returns_bind_any. intros children. apply returns_bind_any. intros _.
  eapply returns_bind; [apply (returns_nested quiet), outlineAndFlatten_keeps|].
  intros r Hr. apply returns_ret.
  eapply sameShell_trans; [apply appendAll_shell | exact Hr].
Qed.

Lemma placeholder_aside (result : NormResult) (size : nat) (comp : Node) (e : string) :
  stable (aside quiet) (placeholder h result size comp e).
Proof.
  unfold placeholder.
  apply stable_bind; [apply aside_trans | apply lift_aside, emit_extends; reflexivity|]. intros _.
  apply stable_bind; [apply aside_trans | apply lift_aside, createText_extends|]. intros text.
  apply stable_bind; [apply aside_trans | apply loadFontAsync_aside|]. intros _.
  apply stable_ret, aside_refl.
Qed.

Lemma placeholder_returns (result : NormResult) (size : nat) (comp : Node) (e : string) :
  returns (sameShell comp) (placeholder h result size comp e).
Proof.
  unfold placeholder. apply returns_bind_any. intros _. apply returns_bind_any. intros text.
  apply returns_bind_any. intros _. apply returns_ret, appendChild_shell.
Qed.

Lemma sizeNodeOf_shell (base : string) (size : nat) (o o' : Node) :
  sameShell o o' -> sizeNodeOf base size o -> sizeNodeOf base size o'.
Proof. unfold sameShell, sizeNodeOf. intuition congruence. Qed.

(** One size node: the caller's frame is left alone, the component returned
    is named [base_size], is [size] wide and high, and has the id that was
    next when the loop body started. *)
Lemma sizeVariant_post (result : NormResult) (base : string) (size : nat) (f : Node) (w : World) :
  post (sizeVariant h result base size) (f, w)
    (fun r s' =>
       aside quiet (f, w) s' /\
       match r with
       | Ok comp =>
           sizeNodeOf base size comp /\ node_id comp = w_next w /\ w_next w < w_next (snd s')
       | Throw _ => True
       end).
Proof.
  unfold sizeVariant. apply post_bind. unfold svgFor.
  destruct (r_svgs result) as [svgs|]; [|split; [apply aside_refl | exact I]].
  apply post_ret. apply post_bind.
  set (w1 := mkWorld (S (w_next w)) (w_removed w) (w_selection w) (w_log w)).
  unfold post at 1, lift, createComponent, bind, freshId, ret. cbn [fst snd]. fold w1.
  match goal with
  | |- post (tryCatch (importSvg _ ?svg ?c) _) _ _ => set (comp := c); set (sv := svg)
  end.
  assert (St : stable (aside quiet) (tryCatch (importSvg h sv comp) (placeholder h result size comp))).
  { apply stable_tryCatch; [apply aside_trans | apply importSvg_aside|].
    intros e. apply placeholder_aside. }
  assert (Rt : returns (sameShell comp) (tryCatch (importSvg h sv comp) (placeholder h result size comp))).
  { apply returns_tryCatch; [apply importSvg_returns | intros e; apply placeholder_returns]. }
  specialize (St (f, w1)). specialize (Rt (f, w1)). unfold post.
  destruct (tryCatch (importSvg h sv comp) (placeholder h result size comp) (f, w1))
    as [r [f' w']]. cbn [fst snd] in *.
  destruct St as [Ef (Hn & evs & Hl & Hq)]. simpl in Ef, Hn, Hl.
  split.
  - split; [exact Ef|]. split; simpl; [lia | eauto].
  - destruct r as [c|e]; [|exact I]. split; [|split].
    + apply (sizeNodeOf_shell base size comp c Rt). repeat split.
    + destruct Rt as (Hid & _). rewrite Hid. reflexivity.
    + simpl. lia.
Qed.

End AssemblyFacts.

Section ComponentSetFacts.

Variable h : Host.

(** The loop over the sizes: three components in the order 16, 24, 32, with
    increasing ids that were free when the loop started. *)
Lemma components_post (result : NormResult) (base : string) (f : Node) (w : World) :
  post (forAcc sizes [] (fun components size =>
          comp <- sizeVariant h result base size ;; ret (components ++ [comp])%list))
       (f, w)
    (fun r s' =>
       aside quiet (f, w) s' /\
       match r with
       | Ok comps =>
           exists c16 c24 c32,
             comps = [c16; c24; c32] /\
             sizeNodeOf base 16 c16 /\ sizeNodeOf base 24 c24 /\ sizeNodeOf base 32 c32 /\
             Forall (fun c => w_next w <= node_id c < w_next (snd s')) comps
       | Throw _ => True
       end).
Proof.
  unfold sizes. cbn [forAcc].
  apply post_bind, post_bind. eapply post_weaken; [apply sizeVariant_post|].
  intros [c16|e] [f1 w1] (A1 & H1); [|split; [exact A1 | exact I]].
  destruct H1 as (S16 & I16 & N16). apply post_ret.
  apply post_bind, post_bind. eapply post_weaken; [apply sizeVariant_post|].
  intros [c24|e] [f2 w2] (A2 & H2);
    [|split; [exact (aside_trans _ _ _ _ A1 A2) | exact I]].
  destruct H2 as (S24 & I24 & N24). apply post_ret.
  apply post_bind, post_bind. eapply post_weaken; [apply sizeVariant_post|].
  intros [c32|e] [f3 w3] (A3 & H3);
    [|split; [exact (aside_trans _ _ _ _ (aside_trans _ _ _ _ A1 A2) A3) | exact I]].
  destruct H3 as (S32 & I32 & N32). apply post_ret. apply post_ret.
  split; [exact (aside_trans _ _ _ _ (aside_trans _ _ _ _ A1 A2) A3)|].
  exists c16, c24, c32. do 4 (split; [first [reflexivity | assumption]|]).
  destruct A1 as (_ & L1 & _), A2 as (_ & L2 & _), A3 as (_ & L3 & _). cbn [fst snd] in *.
  repeat (apply Forall_cons; [lia|]). apply Forall_nil.
Qed.

Lemma appendAll_children (xs : list Node) :
  forall o cs, node_children o = Some cs ->
    node_children (fold_left (fun c child => appendChild child c) xs o) = Some (cs ++ xs)%list.
Proof.
  induction xs as [|x xs IH]; intros o cs E; simpl.
  - now rewrite app_nil_r.
  - rewrite (IH _ (cs ++ [x])%list); [now rewrite <- app_assoc|].
    unfold appendChild. rewrite E. reflexivity.
Qed.

Lemma forEach_appendChild (xs : list Node) :
  forall o (w : World),
    forEach xs (fun comp => update (appendChild comp)) (o, w) =
    (Ok tt, (fold_left (fun c child => appendChild child c) xs o, w)).
Proof.
  induction xs as [|x xs IH]; intros o w; [reflexivity|].
  cbn [forEach]. unfold bind, update at 1, modify. cbn [fst snd]. apply IH.
Qed.

(** Removing the components just appended gives back the older children. *)
Lemma filter_out_new (n : NodeId) (cs comps : list Node) :
  Forall (fun c => node_id c < n) cs ->
  Forall (fun c => n <= node_id c) comps ->
  filter (fun c => negb (hasId (map node_id comps) c)) (cs ++ comps) = cs.
Proof.
  intros Hcs Hcomps. rewrite filter_app.
  assert (E1 : filter (fun c => negb (hasId (map node_id comps) c)) cs = cs).
  { apply forallb_filter_id, forallb_forall. intros c Hc.
    rewrite Forall_forall in Hcs. specialize (Hcs c Hc).
    unfold hasId. destruct (existsb _ _) eqn:E; [|reflexivity].
    apply existsb_exists in E. destruct E as (i & Hi & Ei). apply Nat.eqb_eq in Ei.
    apply in_map_iff in Hi. destruct Hi as (c' & <- & Hc').
    rewrite Forall_forall in Hcomps. specialize (Hcomps c' Hc'). lia. }
  assert (E2 : filter (fun c => negb (hasId (map node_id comps) c)) comps = []).
  { clear. assert (G : forall ids l, (forall c, In c l -> In (node_id c) ids) ->
                         filter (fun c => negb (hasId ids c)) l = []).
    { intros ids l. induction l as [|c l IH]; intros H; [reflexivity|]. simpl.
      replace (hasId ids c) with true.
      - simpl. apply IH. intros c' Hc'. apply H. now right.
      - symmetry. apply existsb_exists. exists (node_id c). split; [apply H; now left|].
        apply Nat.eqb_refl. }
    apply G. intros c Hc. now apply in_map. }
  rewrite E1, E2. apply app_nil_r.
Qed.

Lemma updateChild_last (id : NodeId) (f : Node -> Node) (cs : list Node) (set : Node) :
  Forall (fun c => node_id c < id) cs -> node_id set = id ->
  map (fun c => if node_id c =? id then f c else c) (cs ++ [set]) = (cs ++ [f set])%list.
Proof.
  intros Hcs Hs. rewrite map_app. simpl. rewrite Hs, Nat.eqb_refl. f_equal.
  induction Hcs as [|c cs Hc _ IH]; [reflexivity|]. simpl.
  destruct (Nat.eqb_spec (node_id c) id); [lia|]. now rewrite IH.
Qed.

(** [createComponentSet] on a frame whose children were created earlier.  When
    it returns, the frame has one more child, the variant set of the result;
    when it throws, whatever was added to the frame is no variant set. *)
Lemma createComponentSet_post (result : NormResult) (f : Node) (w : World) (cs : list Node) :
  node_children f = Some cs ->
  Forall (fun c => node_id c < w_next w) cs ->
  post (createComponentSet h result) (f, w)
    (fun r s' =>
       sameShell f (fst s') /\ extends quiet w (snd s') /\
       match r with
       | Ok _ =>
           exists set,
             node_children (fst s') = Some (cs ++ [set])%list /\
             variantSetOf result set /\ node_id set < w_next (snd s')
       | Throw _ =>
           exists junk,
             node_children (fst s') = Some (cs ++ junk)%list /\
             Forall (fun c => isVariantSet c = false /\ node_id c < w_next (snd s')) junk
       end).
Proof.
  intros Ec Hcs. unfold createComponentSet.
  apply post_bind. eapply post_weaken; [apply components_post|].
  intros [comps|e] [f1 w1] ((Ef & Ex) & Hr); cbn [fst snd] in Ef, Ex; subst f1.
  2:{ cbn [fst snd]. split; [apply sameShell_refl|]. split; [exact Ex|].
      exists []. rewrite app_nil_r. auto. }
  destruct Hr as (c16 & c24 & c32 & -> & S16 & S24 & S32 & Hids). cbn [snd] in Hids.
  apply post_bind. unfold post at 1. rewrite forEach_appendChild. cbn [fst snd].
  set (f2 := fold_left _ _ f).
  assert (Ec2 : node_children f2 = Some (cs ++ [c16; c24; c32])%list)
    by (apply appendAll_children; exact Ec).
  assert (Sh2 : sameShell f f2) by apply appendAll_shell.
  apply post_bind. unfold combineAsVariants.
  destruct (host_combineAsVariants h [c16; c24; c32]) as [[]|e].
  - apply post_bind. unfold post at 1, lift, freshId. cbn [fst snd].
    apply post_bind. unfold post at 1, update, modify. cbn [fst snd]. rewrite Ec2.
    rewrite (filter_out_new (w_next w) cs [c16; c24; c32]);
      [|exact Hcs | eapply Forall_impl; [|exact Hids]; cbv beta; intros; lia].
    apply post_ret. unfold post, update, modify, updateChild. cbn [fst snd node_children set_children].
    rewrite updateChild_last;
      [|eapply Forall_impl; [|exact Hcs]; cbv beta; destruct Ex; intros; lia | reflexivity].
    split; [|split].
    + eapply sameShell_trans; [exact Sh2|].
      eapply sameShell_trans; apply set_children_shell; [congruence | discriminate].
    + destruct Ex as (Hn & evs & Hl & Hq). split; simpl; [lia | eauto].
    + eexists. split; [reflexivity|]. split; [|simpl; lia].
      unfold variantSetOf. do 2 (split; [reflexivity|]).
      exists c16, c24, c32. split; [reflexivity|]. split; [assumption|]. split; assumption.
  - unfold post, throw. cbn [fst snd]. split; [exact Sh2|]. split; [exact Ex|].
    exists [c16; c24; c32]. split; [exact Ec2|].
    assert (T : forall base size c, sizeNodeOf base size c -> isVariantSet c = false).
    { intros base size c (Ht & _). unfold isVariantSet. now rewrite Ht. }
    inversion Hids as [|? ? H1 Hids']; subst. inversion Hids' as [|? ? H2 Hids'']; subst.
    inversion Hids'' as [|? ? H3 _]; subst.
    repeat (apply Forall_cons; [split; [eapply T; eassumption | lia]|]). apply Forall_nil.
Qed.

End ComponentSetFacts.

Section OutputFacts.

Variable h : Host.

Lemma assemblyFailures_app (a b : list Event) :
  assemblyFailures (a ++ b) = assemblyFailures a + assemblyFailures b.
Proof. unfold assemblyFailures. now rewrite filter_app, length_app. Qed.

Lemma notifications_app (a b : list Event) :
  notifications (a ++ b) = (notifications a ++ notifications b)%list.
Proof. unfold notifications. apply flat_map_app. Qed.

Lemma quiet_events (evs : list Event) :
  Forall quiet evs -> assemblyFailures evs = 0 /\ notifications evs = [].
Proof.
  unfold assemblyFailures. induction 1 as [|e evs He _ [IH1 IH2]]; [split; reflexivity|].
  destruct e; simpl in *; try contradiction; try rewrite He; auto.
Qed.

(** One turn of the loop over the successful results: it never throws; either
    the variant set of the result is the one child added to the frame and no
    failure is logged, or no variant set is added and one failure is logged. *)
Lemma assembleIcon_post (result : NormResult) (f : Node) (w : World) (cs : list Node) :
  node_children f = Some cs ->
  Forall (fun c => node_id c < w_next w) cs ->
  post (assembleIcon h result) (f, w)
    (fun r s' =>
       r = Ok tt /\ sameShell f (fst s') /\ w_next w <= w_next (snd s') /\
       exists evs out,
         w_log (snd s') = (w_log w ++ evs)%list /\
         node_children (fst s') = Some (cs ++ out)%list /\
         Forall (fun c => node_id c < w_next (snd s')) out /\
         notifications evs = [] /\
         ((assemblyFailures evs = 0 /\ exists set, out = [set] /\ variantSetOf result set) \/
          (assemblyFailures evs = 1 /\ filter isVariantSet out = []))).
Proof.
  intros Ec Hcs. unfold assembleIcon. apply post_bind, post_tryCatch.
  eapply post_weaken; [apply (createComponentSet_post h result f w cs Ec Hcs)|].
  intros [[]|e] [f1 w1] (Sh & (Hn & evs & Hl & Hq) & Hr); cbn [fst snd] in *;
    destruct (quiet_events evs Hq) as (Q1 & Q2).
  - destruct Hr as (set & Ec1 & Hset & Hid).
    unfold post, lift, emit, modify. cbn [fst snd w_log w_next].
    do 3 (split; [first [reflexivity | assumption]|]).
    exists (evs ++ [Delay 5])%list, [set]. rewrite Hl, <- app_assoc.
    rewrite assemblyFailures_app, notifications_app, Q1, Q2.
    split; [reflexivity|]. split; [assumption|].
    split; [apply Forall_cons; [assumption | apply Forall_nil]|].
    split; [reflexivity|]. left. split; [reflexivity | eauto].
  - destruct Hr as (junk & Ec1 & Hj).
    unfold post, lift, consoleError, emit, modify, bind. cbn [fst snd w_log w_next].
    do 3 (split; [first [reflexivity | assumption]|]).
    exists (evs ++ [ConsoleError ("Failed to create ComponentSet for "
                                  ++ Str.quoted (r_name result) ++ ":") e; Delay 5])%list, junk.
    rewrite Hl, <- !app_assoc. rewrite assemblyFailures_app, notifications_app, Q1, Q2.
    split; [reflexivity|]. split; [assumption|].
    split; [eapply Forall_impl; [|exact Hj]; cbv beta; tauto|].
    split; [reflexivity|]. right. split; [reflexivity|].
    clear -Hj. induction Hj as [|c junk [Hc _] _ IH]; [reflexivity|]. simpl. now rewrite Hc.
Qed.

(** The whole loop: the variant sets in the frame and the failures logged add
    up to the results processed, and without a failure the frame holds the
    variant sets of the results, in their order, and nothing else. *)
Lemma assemble_loop_post (results : list NormResult) :
  forall (f : Node) (w : World) (cs : list Node),
    node_children f = Some cs ->
    Forall (fun c => node_id c < w_next w) cs ->
    post (forEach results (assembleIcon h)) (f, w)
      (fun r s' =>
         r = Ok tt /\ sameShell f (fst s') /\ w_next w <= w_next (snd s') /\
         exists evs out,
           w_log (snd s') = (w_log w ++ evs)%list /\
           node_children (fst s') = Some (cs ++ out)%list /\
           notifications evs = [] /\
           List.length (filter isVariantSet out) + assemblyFailures evs = List.length results /\
           (assemblyFailures evs = 0 -> Forall2 variantSetOf results out)).
Proof.
  induction results as [|result results IH]; intros f w cs Ec Hcs.
  - unfold post. cbn [forEach ret fst snd].
    split; [reflexivity|]. split; [apply sameShell_refl|]. split; [lia|].
    exists [], []. rewrite !app_nil_r. split; [reflexivity|]. split; [assumption|].
    split; [reflexivity|]. split; [reflexivity|]. intros _. constructor.
  - cbn [forEach]. apply post_bind.
    eapply post_weaken; [apply (assembleIcon_post result f w cs Ec Hcs)|].
    intros r [f1 w1] (-> & Sh1 & N1 & evs1 & out1 & L1 & Ec1 & F1 & Q1 & Hcase). cbn [fst snd] in *.
    assert (Hcs1 : Forall (fun c => node_id c < w_next w1) (cs ++ out1)).
    { apply Forall_app. split; [|exact F1]. eapply Forall_impl; [|exact Hcs]. cbv beta. intros. lia. }
    eapply post_weaken; [apply (IH f1 w1 (cs ++ out1)%list Ec1 Hcs1)|].
    intros r [f2 w2] (-> & Sh2 & N2 & evs2 & out2 & L2 & Ec2 & Q2 & Hcount & Hall). cbn [fst snd] in *.
    split; [reflexivity|]. split; [eapply sameShell_trans; eassumption|]. split; [lia|].
    exists (evs1 ++ evs2)%list, (out1 ++ out2)%list.
    rewrite L2, L1, Ec2, <- !app_assoc, assemblyFailures_app, notifications_app, Q1, Q2, filter_app,
      length_app.
    do 3 (split; [reflexivity|]). split.
    + destruct Hcase as [(F0 & set & -> & Hset) | (F0 & Z)]; rewrite F0.
      * destruct Hset as (Ht & _). simpl. unfold isVariantSet at 1. rewrite Ht. simpl. lia.
      * rewrite Z. simpl. lia.
    + intros H0. destruct Hcase as [(F0 & set & -> & Hset) | (F0 & Z)]; [|lia].
      simpl. constructor; [exact Hset | apply Hall; lia].
Qed.

Lemma warn_failed (failed : list NormResult) :
  forall w, exists warns,
    forEach failed (fun f =>
      consoleWarn ("Icon " ++ Str.quoted (r_name f) ++ " failed: "
                   ++ match r_error f with Some e => e | None => "null" end) "") w =
    (Ok tt, logged w warns) /\ Forall quiet warns.
Proof.
  induction failed as [|f failed IH]; intros w.
  - exists []. rewrite logged_nil. split; [reflexivity | constructor].
  - cbn [forEach]. unfold bind, consoleWarn at 1, emit at 1, modify. cbn [fst snd].
    match goal with
    | |- context [forEach failed ?b ?w1] => destruct (IH w1) as (warns & E & Q); rewrite E
    end.
    eexists (_ :: warns). unfold logged. cbn [w_log w_next w_removed w_selection].
    rewrite <- app_assoc. split; [reflexivity|]. constructor; [reflexivity | exact Q].
Qed.

Lemma summary_message (created failed : nat) :
  summary created failed =
  if 0 <? failed
  then ("Created " ++ Str.ofNat created ++ " icon(s) as ComponentSets")
       ++ ". " ++ Str.ofNat failed ++ " failed."
  else "Created " ++ Str.ofNat created ++ " icon(s) as ComponentSets".
Proof.
  unfold summary, failureTally. destruct (0 <? failed).
  - now rewrite !append_assoc.
  - now rewrite append_nil_r.
Qed.

Lemma report_message (failed : list NormResult) (created : nat) (w : World) :
  exists warns,
    Forall quiet warns /\
    (if 0 <? List.length failed
     then forEach failed (fun f =>
            consoleWarn ("Icon " ++ Str.quoted (r_name f) ++ " failed: "
                         ++ match r_error f with Some e => e | None => "null" end) "") ;;;
          ret (("Created " ++ Str.ofNat created ++ " icon(s) as ComponentSets")
               ++ ". " ++ Str.ofNat (List.length failed) ++ " failed.")
     else ret ("Created " ++ Str.ofNat created ++ " icon(s) as ComponentSets"))%monad w =
    (Ok (summary created (List.length failed)), logged w warns).
Proof.
  rewrite summary_message. destruct (0 <? List.length failed).
  - destruct (warn_failed failed w) as (warns & E & Q). exists warns.
    split; [exact Q|]. unfold bind. now rewrite E.
  - exists []. rewrite logged_nil. split; [constructor | reflexivity].
Qed.

(** What [createOutput] does when at least one result carries no error. *)
Lemma createOutput_post (results : list NormResult) (w : World) :
  let successResults := filter (fun r => isNull (r_error r)) results in
  let failedResults := filter (fun r => negb (isNull (r_error r))) results in
  successResults <> [] ->
  exists frame w' evs,
    createOutput h results w = (Ok tt, w') /\
    outputContainer w' = Some frame /\
    node_name frame = "Normalized Icons" /\
    w_log w' = (w_log w ++ evs)%list /\
    notifications evs =
      [(summary (List.length successResults) (List.length failedResults), false)] /\
    List.length (variantSets frame) + assemblyFailures evs = List.length successResults /\
    (assemblyFailures evs = 0 -> Forall2 variantSetOf successResults (childrenOf frame)).
Proof.
  intros successResults failedResults Hne. unfold createOutput.
  fold successResults. fold failedResults.
  destruct (Nat.eqb_spec (List.length successResults) 0) as [E|_];
    [destruct successResults; [contradiction | discriminate]|].
  unfold bind at 1, createFrame, bind at 1, freshId, ret at 1. cbn [fst snd].
  unfold bind at 1, selection at 1.
  match goal with
  | |- context [withObject ?o _] => set (frame0 := o)
  end.
  set (w1 := mkWorld (S (w_next w)) (w_removed w) (w_selection w) (w_log w)).
  cbn [fst snd w_selection].
  assert (Ec0 : node_children frame0 = Some []).
  { unfold frame0. destruct (0 <? _); [destruct (selectionBounds _) as [maxY minX]; destruct (_ <? _)%float|];
      reflexivity. }
  assert (En0 : node_name frame0 = "Normalized Icons").
  { unfold frame0. destruct (0 <? _); [destruct (selectionBounds _) as [maxY minX]; destruct (_ <? _)%float|];
      reflexivity. }
  pose proof (assemble_loop_post successResults frame0 w1 [] Ec0 (Forall_nil _)) as L.
  unfold post in L. unfold bind at 1, withObject.
  destruct (forEach successResults (assembleIcon h) (frame0, w1)) as [r [f2 w2]].
  cbn [fst snd] in L.
  destruct L as (-> & Sh & N & evs & out & Hl & Ec & Qn & Hcount & Hall). simpl in Ec.
  cbn [fst snd].
  destruct (report_message failedResults (List.length successResults) w2) as (warns & Qw & Em).
  unfold bind at 1. rewrite Em.
  unfold bind, notify, emit, setSelection, modify, logged. cbn [fst snd w_log w_next w_removed].
  destruct Sh as (_ & _ & Hname & _). destruct (quiet_events warns Qw) as (W1 & W2).
  exists f2. eexists.
  exists (evs ++ warns ++ [Notify (summary (List.length successResults)
                                           (List.length failedResults)) false;
                           ScrollAndZoomIntoView [node_id f2]])%list.
  split; [reflexivity|]. split; [reflexivity|]. split; [now rewrite Hname|].
  split; [rewrite Hl; simpl w_log; now rewrite <- !app_assoc|].
  rewrite !notifications_app, !assemblyFailures_app, Qn, W1, W2.
  unfold variantSets, childrenOf. rewrite Ec. simpl.
  split; [reflexivity|]. split; [rewrite !Nat.add_0_r; exact Hcount|].
  intros H0. apply Hall. rewrite !Nat.add_0_r in H0. exact H0.
Qed.

End OutputFacts.

(** ** What ends up in the output container and in the summary *)

Section ReportFacts.

Lemma eventsAfter_logged (w w' : World) (evs : list Event) :
  w_log w' = (w_log w ++ evs)%list -> eventsAfter (List.length (w_log w)) w' = evs.
Proof.
  intros E. unfold eventsAfter. rewrite E, skipn_app, skipn_all, Nat.sub_diag. reflexivity.
Qed.

Lemma filter_all_successful (results : list NormResult) :
  Forall (fun r => r_error r = None) results ->
  filter (fun r => isNull (r_error r)) results = results.
Proof.
  intros H. apply forallb_filter_id, forallb_forall. rewrite Forall_forall in H.
  intros r Hr. now rewrite (H r Hr).
Qed.

Lemma successes_and_failures (results : list NormResult) :
  List.length (filter (fun r => isNull (r_error r)) results) +
  List.length (filter (fun r => negb (isNull (r_error r))) results) = List.length results.
Proof.
  induction results as [|r results IH]; [reflexivity|]. simpl.
  destruct (isNull (r_error r)); simpl; lia.
Qed.

Lemma variantSetOf_sizes (result : NormResult) (set : Node) :
  variantSetOf result set ->
  isVariantSet set = true /\
  map node_width (childrenOf set) = [16; 24; 32]%float /\
  map node_height (childrenOf set) = [16; 24; 32]%float.
Proof.
  intros (Ht & _ & c16 & c24 & c32 & Ec & (_ & _ & W16 & H16) & (_ & _ & W24 & H24)
          & (_ & _ & W32 & H32)).
  unfold isVariantSet, childrenOf. rewrite Ht, Ec. simpl.
  rewrite W16, W24, W32, H16, H24, H32. repeat split.
Qed.

End ReportFacts.

(** C2 as stated fails: the one result of the batch carries no error, the
    host refuses the grouping, and the output container holds the three
    loose components and no variant set. *)
Lemma successful_batch_without_variant_set :
  let results := [okResult "home"] in
  let w' := snd (createOutput noVariantsHost results (emptyWorld [])) in
  Forall (fun r => r_error r = None) results /\
  exists frame,
    outputContainer w' = Some frame /\
    variantSets frame = [] /\
    map node_name (childrenOf frame) = ["home_16"; "home_24"; "home_32"] /\
    List.length (variantSets frame) <> List.length results.
Proof.
  split; [repeat constructor|]. eexists. split; [vm_compute; reflexivity|].
  vm_compute. repeat split. discriminate.
Qed.

(** C2, amended.  For every batch of N >= 1 results that all carry no error,
    if no assembly failure is logged during the run, the children of the
    output container are exactly N variant sets, one per result and in the
    order of the results, each named by the base name of its result and
    holding exactly three size nodes, 16, 24 and 32 wide and high, in that
    order. *)
Theorem successful_batch_yields_variant_sets
  (h : Host) (results : list NormResult) (w : World) :
  results <> [] ->
  Forall (fun r => r_error r = None) results ->
  assemblyFailures (eventsAfter (List.length (w_log w)) (snd (createOutput h results w))) = 0 ->
  exists frame,
    outputContainer (snd (createOutput h results w)) = Some frame /\
    variantSets frame = childrenOf frame /\
    List.length (variantSets frame) = List.length results /\
    Forall2 variantSetOf results (variantSets frame) /\
    Forall (fun set => map node_width (childrenOf set) = [16; 24; 32]%float /\
                       map node_height (childrenOf set) = [16; 24; 32]%float)
           (variantSets frame).
Proof.
  intros Hne Hall Hquiet.
  pose proof (createOutput_post h results w) as P. cbv zeta in P.
  rewrite (filter_all_successful results Hall) in P.
  destruct (P Hne) as (frame & w' & evs & E & Ho & _ & Hl & _ & _ & Hsets). clear P.
  rewrite E in Hquiet |- *. cbn [snd] in *.
  rewrite (eventsAfter_logged w w' evs Hl) in Hquiet. specialize (Hsets Hquiet).
  assert (Hv : variantSets frame = childrenOf frame).
  { unfold variantSets. apply forallb_filter_id, forallb_forall. intros set Hin.
    clear -Hsets Hin. induction Hsets as [|r set' rs sets Hs _ IH]; [contradiction|].
    destruct Hin as [<- | Hin]; [apply (variantSetOf_sizes r set' Hs) | auto]. }
  exists frame. rewrite Hv. split; [exact Ho|]. split; [reflexivity|].
  split; [symmetry; eapply Forall2_length; exact Hsets|]. split; [exact Hsets|].
  clear -Hsets. induction Hsets as [|r set rs sets Hs _ IH]; constructor; [|exact IH].
  split; apply (variantSetOf_sizes r set Hs).
Qed.

(** C2, amended, on two icons. *)
Lemma successful_batch_yields_variant_sets_witness :
  exists frame,
    outputContainer
      (snd (createOutput workingHost [okResult "home"; okResult "arrow_24"] (emptyWorld [])))
    = Some frame /\
    map node_name (variantSets frame) = ["home"; "arrow"] /\
    List.length (variantSets frame) = 2.
Proof.
  destruct (successful_batch_yields_variant_sets workingHost
              [okResult "home"; okResult "arrow_24"] (emptyWorld []))
    as (frame & Ho & _ & Hn & _).
  - discriminate.
  - repeat constructor.
  - vm_compute. reflexivity.
  - exists frame. split; [exact Ho|]. split; [|exact Hn].
    vm_compute in Ho. injection Ho as <-. vm_compute. reflexivity.
Defined.

(** C3 as stated fails.  Of three icons one failed normalization: the user is
    told that 1 failed, not N - K = 2; and when the host refuses the
    groupings the container holds no variant set, not N - K = 2. *)
Lemma failure_tally_is_not_the_success_count :
  let N := List.length oneOfThreeFailed in
  let K := List.length (filter (fun r => negb (isNull (r_error r))) oneOfThreeFailed) in
  let w1 := snd (createOutput workingHost oneOfThreeFailed (emptyWorld [])) in
  let w2 := snd (createOutput noVariantsHost oneOfThreeFailed (emptyWorld [])) in
  N = 3 /\ K = 1 /\
  notifications (w_log w1) = [("Created 2 icon(s) as ComponentSets. 1 failed.", false)] /\
  Str.endsWith (failureTally K) "Created 2 icon(s) as ComponentSets. 1 failed." = true /\
  Str.endsWith (failureTally (N - K)) "Created 2 icon(s) as ComponentSets. 1 failed." = false /\
  option_map (fun frame => List.length (variantSets frame)) (outputContainer w2) = Some 0.
Proof. vm_compute. repeat split. Qed.

(** C3, amended.  For every request of N icons of which exactly K, with
    0 < K < N, failed normalization, if no assembly failure is logged during
    the run, the output container holds exactly N - K variant sets, K fewer
    than N, one per result without error and in their order, and the one
    notification of the run tells the user that N - K icons were created and
    that K failed. *)
Theorem partial_failure_is_reported
  (h : Host) (results : list NormResult) (w : World) :
  let N := List.length results in
  let K := List.length (filter (fun r => negb (isNull (r_error r))) results) in
  0 < K < N ->
  assemblyFailures (eventsAfter (List.length (w_log w)) (snd (createOutput h results w))) = 0 ->
  exists frame,
    fst (createOutput h results w) = Ok tt /\
    outputContainer (snd (createOutput h results w)) = Some frame /\
    List.length (variantSets frame) = N - K /\
    Forall2 variantSetOf (filter (fun r => isNull (r_error r)) results) (childrenOf frame) /\
    notifications (eventsAfter (List.length (w_log w)) (snd (createOutput h results w))) =
      [("Created " ++ Str.ofNat (N - K) ++ " icon(s) as ComponentSets"
        ++ ". " ++ Str.ofNat K ++ " failed.", false)].
Proof.
  intros N K HK Hquiet.
  pose proof (successes_and_failures results) as Hsum. fold N K in Hsum.
  pose proof (createOutput_post h results w) as P. cbv zeta in P. fold K in P.
  assert (Hs : List.length (filter (fun r => isNull (r_error r)) results) = N - K) by lia.
  rewrite Hs in P.
  destruct P as (frame & w' & evs & E & Ho & _ & Hl & Hn & Hc & Hsets).
  { intros Z. rewrite Z in Hs. simpl in Hs. lia. }
  rewrite E in Hquiet |- *. cbn [fst snd] in *.
  rewrite (eventsAfter_logged w w' evs Hl) in Hquiet |- *.
  exists frame. split; [reflexivity|]. split; [exact Ho|].
  split; [lia|]. split; [exact (Hsets Hquiet)|].
  rewrite Hn. unfold summary, failureTally.
  destruct (Nat.ltb_spec 0 K) as [_|]; [reflexivity | lia].
Qed.

(** C3, amended, on the batch of three with one failure. *)
Lemma partial_failure_is_reported_witness :
  exists frame,
    outputContainer (snd (createOutput workingHost oneOfThreeFailed (emptyWorld []))) = Some frame /\
    List.length (variantSets frame) = 2 /\
    notifications (w_log (snd (createOutput workingHost oneOfThreeFailed (emptyWorld [])))) =
      [("Created 2 icon(s) as ComponentSets. 1 failed.", false)].
Proof.
  destruct (partial_failure_is_reported workingHost oneOfThreeFailed (emptyWorld []))
    as (frame & _ & Ho & Hc & _).
  - vm_compute. split; repeat constructor.
  - vm_compute. reflexivity.
  - exists frame. split; [exact Ho|]. split; [exact Hc|]. vm_compute. reflexivity.
Defined.

(** C4, where the code departs from it.  The one icon of the batch carries no
    error and the host refuses its grouping: the failure goes to the
    console, no variant set is in the container, and the user is told that
    1 icon was created. *)
Theorem reported_successes_count_unassembled_icons :
  let w' := snd (createOutput noVariantsHost [okResult "home"] (emptyWorld [])) in
  option_map (fun frame => List.length (variantSets frame)) (outputContainer w') = Some 0 /\
  assemblyFailures (w_log w') = 1 /\
  notifications (w_log w') = [("Created 1 icon(s) as ComponentSets", false)].
Proof. vm_compute. repeat split. Qed.

(** C10. For a display name that is a size suffix and nothing else, the base
    name is empty; when [createComponentSet] returns, the variant set it
    added to the frame is named by the empty string and its three size nodes
    are named [_16], [_24] and [_32]. *)
Theorem size_suffix_only_name_has_empty_base
  (h : Host) (result : NormResult) (f : Node) (w : World) (cs : list Node) :
  SizeSuffix (r_name result) ->
  node_children f = Some cs ->
  Forall (fun c => node_id c < w_next w) cs ->
  fst (createComponentSet h result (f, w)) = Ok tt ->
  variantSetBase (r_name result) = "" /\
  exists set c16 c24 c32,
    node_children (fst (snd (createComponentSet h result (f, w)))) = Some (cs ++ [set])%list /\
    node_name set = "" /\
    node_children set = Some [c16; c24; c32] /\
    node_name c16 = "_16" /\ node_name c24 = "_24" /\ node_name c32 = "_32".
Proof.
  intros Hs Ec Hcs Hok.
  pose proof (variantSetBase_whole (r_name result) Hs) as Hb. split; [exact Hb|].
  pose proof (createComponentSet_post h result f w cs Ec Hcs) as P. unfold post in P.
  rewrite Hok in P. destruct P as (_ & _ & set & Ec' & Hset & _).
  destruct Hset as (_ & Hn & c16 & c24 & c32 & Ecs & (_ & N16 & _) & (_ & N24 & _) & (_ & N32 & _)).
  rewrite Hb in *. exists set, c16, c24, c32. auto 10.
Qed.

(** C10 on the name [_24dp]. *)
Lemma size_suffix_only_name_has_empty_base_witness :
  variantSetBase "_24dp" = "" /\
  map (fun set => (node_name set, map node_name (childrenOf set)))
    (childrenOf (fst (snd (createComponentSet workingHost (okResult "_24dp")
                             (frameNode 1 "Normalized Icons" [], emptyWorld [])))))
  = [("", ["_16"; "_24"; "_32"])].
Proof.
  destruct (size_suffix_only_name_has_empty_base workingHost (okResult "_24dp")
              (frameNode 1 "Normalized Icons" []) (emptyWorld []) [])
    as (Hb & set & c16 & c24 & c32 & Ec & Hn & Ecs & N16 & N24 & N32).
  - apply SizeSuffix_iff. reflexivity.
  - reflexivity.
  - constructor.
  - vm_compute. reflexivity.
  - split; [exact Hb|]. unfold childrenOf. rewrite Ec. cbn [app map].
    rewrite Ecs. cbn [map]. rewrite Hn, N16, N24, N32. reflexivity.
Defined.

(** * Further properties of the code *)

(** ** Selection reading and export *)

Section ExportFacts.

Variable h : Host.

Lemma exportAsync_exported (node : Node) (w : World) :
  exportAsync h node w = (exported h node, w).
Proof.
  unfold exportAsync, exported. destruct (node_exportAsync node); [|reflexivity].
  destruct (host_exportAsync h node); reflexivity.
Qed.

Lemma logged_logged (w : World) (a b : list Event) : logged (logged w a) b = logged w (a ++ b).
Proof. unfold logged. simpl. now rewrite app_assoc. Qed.

(** The export loop from any value of [icons]. *)
Lemma exportIcons_from (nodes : list Node) :
  forall (icons : list Icon) (w : World),
    forAcc nodes icons (fun icons node =>
      tryCatch
        (svg <- exportAsync h node ;;
         let trimmed := Str.trim (node_name node) in
         let name := if Str.isEmpty trimmed then "icon" else trimmed in
         ret (icons ++ [(name, svg)])%list)
        (fun e =>
           consoleError ("Failed to export " ++ Str.quoted (node_name node) ++ ":") e ;;;
           ret icons)) w =
    (Ok (icons ++ flat_map (iconOf h) nodes)%list, logged w (flat_map (exportErrorOf h) nodes)).
Proof.
  match goal with |- forall icons w, forAcc _ _ ?b _ = _ => set (body := b) end.
  assert (Hb : forall icons node w,
             body icons node w =
             match exported h node with
             | Ok svg => (Ok (icons ++ [(displayName node, svg)])%list, w)
             | Throw e =>
                 (Ok icons,
                  logged w [ConsoleError ("Failed to export " ++ Str.quoted (node_name node) ++ ":") e])
             end).
  { intros icons node w. unfold body, tryCatch, bind. rewrite exportAsync_exported.
    destruct (exported h node); reflexivity. }
  clearbody body.
  induction nodes as [|node nodes IH]; intros icons w.
  - simpl. now rewrite app_nil_r, logged_nil.
  - cbn [forAcc flat_map]. unfold bind. rewrite Hb.
    unfold iconOf at 1, exportErrorOf at 1.
    destruct (exported h node) as [svg|e]; rewrite IH.
    + now rewrite <- app_assoc.
    + now rewrite logged_logged.
Qed.

Lemma displayName_not_empty (node : Node) : displayName node <> "".
Proof.
  unfold displayName. destruct (Str.trim (node_name node)) eqn:E; simpl; discriminate.
Qed.

Lemma icons_and_errors (nodes : list Node) :
  List.length (flat_map (iconOf h) nodes) + List.length (flat_map (exportErrorOf h) nodes)
  = List.length nodes.
Proof.
  induction nodes as [|node nodes IH]; [reflexivity|]. cbn [flat_map].
  rewrite !length_app. unfold iconOf at 1, exportErrorOf at 1.
  destruct (exported h node); simpl; lia.
Qed.

Lemma getIconNodes_resolves (w : World) :
  w_selection w <> [] ->
  exists nodes,
    getIconNodes w = (Ok nodes, w) /\
    Forall (fun node =>
              isExportableNode node = true \/
              (w_selection w = [node] /\ isComponentOrInstance node = true)) nodes /\
    Forall (fun node =>
              In node (w_selection w) \/
              exists parent cs, w_selection w = [parent] /\ node_children parent = Some cs /\
                                In node cs) nodes.
Proof.
  intros Hne. unfold getIconNodes, bind, selection, ret.
  assert (F : forall sel : list Node,
             Forall (fun node => isExportableNode node = true \/
                                 (sel = [node] /\ isComponentOrInstance node = true))
                    (filter isExportableNode sel) /\
             Forall (fun node => In node sel \/
                                 exists parent cs, sel = [parent] /\
                                   node_children parent = Some cs /\ In node cs)
                    (filter isExportableNode sel)).
  { intros sel. split; apply Forall_forall; intros n Hn; apply filter_In in Hn; tauto. }
  destruct (w_selection w) as [|node [|node' sel]] eqn:Es; [contradiction| |].
  - cbn [List.length Nat.eqb].
    destruct (node_children node) as [[|c cs]|] eqn:Ec;
      try (eexists; split; [reflexivity | apply F]).
    destruct (isComponentOrInstance node) eqn:Ek.
    + eexists. split; [reflexivity|].
      split; (apply Forall_cons; [|apply Forall_nil]); [right; auto | left; now left].
    + destruct (0 <? _); [|eexists; split; [reflexivity | apply F]].
      eexists. split; [reflexivity|].
      split; apply Forall_forall; intros n Hn; apply filter_In in Hn.
      * left. tauto.
      * right. exists node, (c :: cs). tauto.
  - cbn [List.length Nat.eqb]. eexists. split; [reflexivity | apply F].
Qed.

(** [main] once the selection resolved to some nodes. *)
Lemma main_resolved (w : World) (nodes : list Node) :
  getIconNodes w = (Ok nodes, w) -> nodes <> [] ->
  main h w =
  (Ok tt,
   logged w (Notify ("[v3.3] Normalizing " ++ Str.ofNat (List.length nodes) ++ " icon(s)...") false
             :: flat_map (exportErrorOf h) nodes
             ++ match flat_map (iconOf h) nodes with
                | [] => [Notify "No exportable icons found in selection." true; ClosePlugin]
                | icons => [PostMessage icons]
                end)).
Proof.
  intros E Hne. unfold main. unfold bind at 1. rewrite E.
  destruct nodes as [|node nodes]; [contradiction|]. cbn [List.length Nat.eqb].
  unfold bind at 1, notify at 1, emit at 1, modify. cbn [fst snd]. unfold bind at 1.
  unfold exportIcons. rewrite exportIcons_from. cbn [app].
  destruct (flat_map (iconOf h) (node :: nodes)) as [|icon icons];
    cbn [List.length Nat.eqb];
    unfold bind, notify, closePlugin, emit, modify, logged;
    cbn [fst snd w_log w_next w_removed w_selection];
    rewrite <- ?app_assoc; reflexivity.
Qed.

End ExportFacts.

(** X1. For every host and every list of nodes, the export loop returns
    normally with one icon per node whose export succeeded, in the order of
    the nodes, and logs one console error per node whose export threw; every
    icon carries a display name that is not empty. *)
Theorem export_keeps_successes_in_order (h : Host) (nodes : list Node) (w : World) :
  exportIcons h nodes w =
    (Ok (flat_map (iconOf h) nodes), logged w (flat_map (exportErrorOf h) nodes)) /\
  List.length (flat_map (iconOf h) nodes) + List.length (flat_map (exportErrorOf h) nodes)
    = List.length nodes /\
  Forall (fun icon => fst icon <> "") (flat_map (iconOf h) nodes).
Proof.
  split; [|split].
  - unfold exportIcons. apply (exportIcons_from h nodes [] w).
  - apply icons_and_errors.
  - apply Forall_forall. intros icon Hin. apply in_flat_map in Hin.
    destruct Hin as (node & _ & Hin). unfold iconOf in Hin.
    destruct (exported h node); [|contradiction].
    destruct Hin as [<- | []]. apply displayName_not_empty.
Qed.

(** The white space of the language, not only that of ASCII, is trimmed: a
    layer named by a no-break space and an ideographic space is exported
    under the name [icon], and a zero-width space, which is no white space,
    is kept. *)
Lemma blank_name_is_exported_as_icon :
  displayName (vectorNode 5 (Str.ofBytes [194; 160; 227; 128; 128]) []) = "icon" /\
  displayName (vectorNode 5 (Str.ofBytes [32; 104; 105; 239; 187; 191; 10]) []) = "hi" /\
  displayName (vectorNode 5 (Str.ofBytes [226; 128; 139]) []) = Str.ofBytes [226; 128; 139].
Proof. vm_compute. repeat split. Qed.

(** X2. Whatever is selected, the resolver returns normally, and every node
    it returns is visible and exportable unless it is the one selected node
    and is a component or an instance; every node it returns is a selected
    node or a child of the one selected node. *)
Theorem resolved_nodes_are_exportable (w : World) :
  exists nodes,
    fst (getIconNodes w) = Ok nodes /\
    Forall (fun node =>
              isExportableNode node = true \/
              (w_selection w = [node] /\ isComponentOrInstance node = true)) nodes /\
    Forall (fun node =>
              In node (w_selection w) \/
              exists parent cs, w_selection w = [parent] /\ node_children parent = Some cs /\
                                In node cs) nodes.
Proof.
  destruct (w_selection w) as [|n sel] eqn:Es.
  - exists []. rewrite (getIconNodes_empty w Es). repeat split; constructor.
  - destruct (getIconNodes_resolves w) as (nodes & E & H1 & H2); [congruence|].
    exists nodes. rewrite E, <- Es. auto.
Qed.

(** X3. For every host, once the selection has resolved to at least one
    node, [main] returns normally: it announces the number of nodes, logs the
    exports that threw, and then either posts the icons exported, of which
    there is at least one, and leaves the plugin open, or tells the user that
    nothing could be exported and closes the plugin.  An empty list of icons
    is never posted. *)
Theorem resolved_selection_is_exported_or_reported
  (h : Host) (w : World) (nodes : list Node) :
  fst (getIconNodes w) = Ok nodes ->
  nodes <> [] ->
  let announced :=
    Notify ("[v3.3] Normalizing " ++ Str.ofNat (List.length nodes) ++ " icon(s)...") false
    :: flat_map (exportErrorOf h) nodes in
  fst (main h w) = Ok tt /\
  ((flat_map (iconOf h) nodes <> [] /\
    snd (main h w) = logged w (announced ++ [PostMessage (flat_map (iconOf h) nodes)])) \/
   (flat_map (iconOf h) nodes = [] /\
    snd (main h w) =
      logged w (announced ++ [Notify "No exportable icons found in selection." true;
                              ClosePlugin]))).
Proof.
  intros E Hne announced.
  assert (Es : w_selection w <> []).
  { intros Es. rewrite (getIconNodes_empty w Es) in E. injection E as <-. contradiction. }
  pose proof (getIconNodes_pure w Es) as Hp.
  assert (E' : getIconNodes w = (Ok nodes, w)).
  { destruct (getIconNodes w) as [r w']. cbn [fst snd] in *. congruence. }
  rewrite (main_resolved h w nodes E' Hne). split; [reflexivity|]. cbn [snd].
  unfold announced.
  destruct (flat_map (iconOf h) nodes) as [|icon icons] eqn:Ei.
  - right. split; reflexivity.
  - left. split; [discriminate | reflexivity].
Qed.

(** X3 on one selected vector that the host exports. *)
Lemma resolved_selection_is_exported_or_reported_witness :
  snd (main workingHost (emptyWorld [vectorNode 5 "  home " []])) =
  logged (emptyWorld [vectorNode 5 "  home " []])
    [Notify "[v3.3] Normalizing 1 icon(s)..." false;
     PostMessage [("home", "<svg>  home </svg>")]].
Proof.
  destruct (resolved_selection_is_exported_or_reported workingHost
              (emptyWorld [vectorNode 5 "  home " []]) [vectorNode 5 "  home " []]
              eq_refl ltac:(discriminate))
    as (_ & [(_ & E) | (E & _)]).
  - rewrite E. reflexivity.
  - vm_compute in E. discriminate E.
Defined.

(** ** The geometry pass, whatever the host does *)

Section GeometryMore.

Variable h : Host.

(** The scan, one child at a time. *)
Lemma collectStrokedNodes_children (o : Node) :
  collectStrokedNodes o =
  match node_children o with
  | None => []
  | Some cs =>
      flat_map (fun child =>
                  (if hasActiveStrokes child then [child] else []) ++
                  match node_children child with
                  | Some _ => collectStrokedNodes child
                  | None => []
                  end)%list cs
  end.
Proof.
  destruct o as [i ty nm vis ex box wd ht st sw pr [cs|]]; [|reflexivity].
  cbn [collectStrokedNodes node_children].
  induction cs as [|c cs IH]; [reflexivity|]. cbn [flat_map]. rewrite <- IH, <- app_assoc.
  reflexivity.
Qed.

(** A node none of whose direct children is stroked: its strokes are those
    below the children. *)
Lemma strokes_below_children (cs : list Node) :
  Forall (fun child => hasActiveStrokes child = false) cs ->
  forall o, node_children o = Some cs ->
    strokeCount o = list_sum (map strokeCount cs).
Proof.
  intros Hcs o Eo. unfold strokeCount at 1. rewrite collectStrokedNodes_children, Eo.
  clear Eo o. induction Hcs as [|c cs Hc _ IH]; [reflexivity|].
  cbn [flat_map map]. rewrite Hc, !length_app, IH.
  change (list_sum (strokeCount c :: map strokeCount cs))
    with (strokeCount c + list_sum (map strokeCount cs)).
  cbn [List.length Nat.add]. f_equal.
  unfold strokeCount. rewrite (collectStrokedNodes_children c).
  destruct (node_children c); reflexivity.
Qed.

Lemma leaf_has_no_strokes_below (n : Node) : isLeaf n -> strokeCount n = 0.
Proof.
  unfold isLeaf, strokeCount. destruct n as [i ty nm vis ex box wd ht st sw pr ch].
  simpl. intros ->. reflexivity.
Qed.

(** The events of one pass name only nodes of the list the pass works on. *)
Lemma outlineEach_calls_collected (stroked : list Node) :
  forall o w, exists o' w' calls,
    outlineEach h stroked (o, w) = (Ok tt, (o', w')) /\
    w_log w' = (w_log w ++ calls)%list /\
    Forall (fun e => exists id threw, e = OutlineStroke id threw /\
                                      In id (map node_id stroked)) calls.
Proof.
  unfold outlineEach. induction stroked as [|node stroked IH]; intros o w.
  - exists o, w, []. simpl. rewrite app_nil_r. auto.
  - cbn [forEach]. unfold bind.
    assert (E1 : exists o1 w1 c1,
               outlineNode h node (o, w) = (Ok tt, (o1, w1)) /\
               w_log w1 = (w_log w ++ c1)%list /\
               Forall (fun e => exists id threw, e = OutlineStroke id threw /\ id = node_id node) c1).
    { unfold outlineNode, bind at 1, isRemoved. cbn [snd fst].
      destruct (existsb (Nat.eqb (node_id node)) (w_removed w)).
      - exists o, w, []. rewrite app_nil_r. auto.
      - unfold tryCatch, bind, onScene, ret.
        destruct (host_outlineStroke h (node_id node) _) as [r sc].
        do 2 eexists. exists [OutlineStroke (node_id node) (isThrow r)].
        destruct r; (split; [reflexivity|]); (split; [reflexivity|]);
          (apply Forall_cons; [eauto | apply Forall_nil]). }
    destruct E1 as (o1 & w1 & c1 & E1 & L1 & F1). rewrite E1.
    destruct (IH o1 w1) as (o' & w' & c2 & E2 & L2 & F2).
    exists o', w', (c1 ++ c2)%list. rewrite E2, L2, L1, app_assoc.
    split; [reflexivity|]. split; [reflexivity|]. apply Forall_app. split.
    + eapply Forall_impl; [|exact F1]. cbv beta. intros e (id & b & -> & ->).
      exists (node_id node), b. split; [reflexivity | now left].
    + eapply Forall_impl; [|exact F2]. cbv beta. intros e (id & b & -> & Hin).
      exists id, b. split; [reflexivity | now right].
Qed.

Lemma callsFollowScans_calls (found : list NodeId) (calls rest : list Event) :
  Forall (fun e => exists id threw, e = OutlineStroke id threw /\ In id found) calls ->
  callsFollowScans found rest -> callsFollowScans found (calls ++ rest).
Proof.
  induction 1 as [|e calls (id & b & -> & Hin) _ IH]; intros Hr; simpl; auto.
Qed.

Lemma callsFollowScans_flatten (found : list NodeId) (evs more : list Event) :
  callsFollowScans found evs -> Forall isFlattenEvent more -> callsFollowScans found (evs ++ more).
Proof.
  intros He Hm. revert found He. induction evs as [|e evs IH]; intros found He; simpl.
  - clear He. induction Hm as [|m more Hm _ IH]; simpl; [exact I|].
    destruct m; simpl in Hm; try contradiction; exact IH.
  - destruct e; simpl in He |- *; try (apply IH; exact He).
    destruct He as [Hin He]. split; [exact Hin | apply IH; exact He].
Qed.

Lemma countOutlineCalls_app (a b : list Event) :
  countOutlineCalls (a ++ b) = countOutlineCalls a + countOutlineCalls b.
Proof. unfold countOutlineCalls. now rewrite filter_app, length_app. Qed.

Lemma countOutlineCalls_flatten (more : list Event) :
  Forall isFlattenEvent more -> countOutlineCalls more = 0.
Proof.
  unfold countOutlineCalls. induction 1 as [|m more Hm _ IH]; [reflexivity|].
  destruct m; simpl in Hm; try contradiction; exact IH.
Qed.

(** The pass loop: every call follows a scan that reported its node, whatever
    was found before the loop. *)
Lemma outlinePasses_calls (left : nat) :
  forall pass o w, exists o' w' evs,
    outlinePasses h left pass (o, w) = (Ok tt, (o', w')) /\
    w_log w' = (w_log w ++ evs)%list /\
    (forall found, callsFollowScans found evs) /\
    (strokeCount o = 0 -> countOutlineCalls evs = 0).
Proof.
  induction left as [|left IH]; intros pass o w.
  - exists o, w, []. simpl. rewrite app_nil_r. repeat split; auto.
  - cbn [outlinePasses]. unfold bind at 1, self at 1. cbn [fst].
    unfold bind at 1, lift, emit, modify. cbn [fst snd].
    destruct (collectStrokedNodes o) as [|n stroked] eqn:Ec.
    + simpl. eexists o, _, [Scan pass []]. repeat split; auto.
    + cbn [List.length Nat.eqb]. unfold bind at 1.
      match goal with
      | |- context [outlineEach h ?l (o, ?w1)] =>
          destruct (outlineEach_calls_collected l o w1) as (o1 & w2 & calls & E1 & L1 & F1)
      end.
      rewrite E1. destruct (IH (S pass) o1 w2) as (o' & w' & rest & E2 & L2 & T2 & _).
      exists o', w', (Scan pass (map node_id (n :: stroked)) :: calls ++ rest)%list.
      rewrite E2, L2, L1. cbn [w_log]. rewrite <- !app_assoc. cbn [app].
      split; [reflexivity|]. split; [reflexivity|]. split.
      * intros found. cbn [callsFollowScans]. apply callsFollowScans_calls; [exact F1 | apply T2].
      * unfold strokeCount. rewrite Ec. simpl. lia.
Qed.

Lemma flattenChildren_events (o : Node) (w : World) :
  exists o' w' more,
    flattenChildren h (o, w) = (Ok tt, (o', w')) /\
    w_log w' = (w_log w ++ more)%list /\ Forall isFlattenEvent more.
Proof.
  unfold flattenChildren, bind at 1, self at 1. cbn [fst].
  destruct (node_children o) as [[|c cs]|] eqn:Ec;
    try (exists o, w, []; rewrite app_nil_r; repeat split; constructor).
  unfold tryCatch, bind at 1, onScene. rewrite Ec.
  destruct (host_flatten h _ _) as [[flat|e] sc]; cbn [isThrow].
  - match goal with
    | |- context [clearFlat h flat (?o1, ?w1)] =>
        destruct (clearFlat_run h flat o1 w1) as ([[]|e] & o2 & ->)
    end; do 2 eexists.
    + eexists [_]. split; [reflexivity|]. split; [reflexivity|]. repeat constructor.
    + eexists [_; _]. unfold lift, consoleWarn, emit, modify. cbn [fst snd w_log].
      rewrite <- app_assoc. split; [reflexivity|]. split; [reflexivity|]. repeat constructor.
  - do 2 eexists. eexists [_; _]. unfold lift, consoleWarn, emit, modify. cbn [fst snd w_log].
    rewrite <- app_assoc. split; [reflexivity|]. split; [reflexivity|]. repeat constructor.
Qed.

End GeometryMore.

(** X5. Whatever the host does, after the geometry pass a direct child of the
    component that still carries an active stroke is one whose [strokes] the
    host refused to write.  So on a host that accepts these writes every
    active stroke left lies strictly below one of the direct children, and
    when what is left are only nodes without children, as after a flatten
    that worked, no active stroke is left at all. *)
Theorem strokes_left_are_below_the_children (h : Host) (o : Node) (w : World) :
  let o' := fst (snd (outlineAndFlatten h (o, w))) in
  Forall (fun child => hasActiveStrokes child = true -> refusesStrokes h child)
         (childrenOf o') /\
  ((forall id, host_assign h id "strokes" = Ok tt) ->
   strokeCount o' = list_sum (map strokeCount (childrenOf o')) /\
   (Forall isLeaf (childrenOf o') -> strokeCount o' = 0)).
Proof.
  intros o'. pose proof (strip_pass_clears_children h o w) as Hc. fold o' in Hc.
  split; [exact Hc|]. intros Hw.
  assert (Hn : Forall (fun child => hasActiveStrokes child = false) (childrenOf o')).
  { eapply Forall_impl; [|exact Hc]. cbv beta. intros c Hr.
    destruct (hasActiveStrokes c); [|reflexivity].
    destruct (Hr eq_refl) as (e & He). rewrite Hw in He. discriminate He. }
  assert (E : strokeCount o' = list_sum (map strokeCount (childrenOf o'))).
  { unfold childrenOf in *. destruct (node_children o') as [cs|] eqn:Ec.
    - apply (strokes_below_children cs Hn o' Ec).
    - apply leaf_has_no_strokes_below. exact Ec. }
  split; [exact E|]. intros Hl. rewrite E.
  clear -Hl. induction Hl as [|c cs Hc _ IH]; [reflexivity|].
  change (list_sum (map strokeCount (c :: cs)))
    with (strokeCount c + list_sum (map strokeCount cs)).
  rewrite IH, (leaf_has_no_strokes_below c Hc). reflexivity.
Qed.

(** X5 on a host whose flatten works: one vector is left and no stroke. *)
Lemma strokes_left_are_below_the_children_witness :
  strokeCount (fst (snd (outlineAndFlatten workingHost (nestedStrokeComp, emptyWorld [])))) = 0.
Proof.
  apply (proj2 (strokes_left_are_below_the_children workingHost nestedStrokeComp (emptyWorld []))).
  - reflexivity.
  - vm_compute. repeat constructor.
Defined.

(** The hypothesis on the writes is needed: when the host refuses them and
    neither outlines nor flattens, a stroke on a direct child stays. *)
Lemma refused_writes_leave_direct_strokes :
  let comp := componentNode 1 "dot_16" [vectorNode 2 "path" ["#000"]] in
  let run := outlineAndFlatten readOnlyHost (comp, emptyWorld []) in
  fst run = Ok tt /\ map node_id (collectStrokedNodes (fst (snd run))) = [2].
Proof. vm_compute. split; reflexivity. Qed.

(** X6. Whatever the host does, [outlineStroke] is only ever called on a node
    that the scan just before reported as stroked; on a component without any
    active stroke it is not called at all. *)
Theorem outline_calls_follow_scans (h : Host) (o : Node) (w : World) :
  exists evs,
    w_log (snd (snd (outlineAndFlatten h (o, w)))) = (w_log w ++ evs)%list /\
    callsFollowScans [] evs /\
    (strokeCount o = 0 -> countOutlineCalls evs = 0).
Proof.
  unfold outlineAndFlatten, bind.
  destruct (outlinePasses_calls h 5 0 o w) as (o1 & w1 & evs & E1 & L1 & F1 & Z1). rewrite E1.
  destruct (flattenChildren_events h o1 w1) as (o2 & w2 & more & E2 & L2 & F2). rewrite E2.
  rewrite clearRemainingChildren_run. cbn [fst snd].
  exists (evs ++ more)%list. rewrite L2, L1, app_assoc. split; [reflexivity|]. split.
  - apply callsFollowScans_flatten; [apply F1 | exact F2].
  - intros Hz. rewrite countOutlineCalls_app, (Z1 Hz), (countOutlineCalls_flatten more F2).
    reflexivity.
Qed.

(** X6 on a component that holds one path without strokes. *)
Lemma outline_calls_follow_scans_witness :
  countOutlineCalls
    (w_log (snd (snd (outlineAndFlatten brokenGeometryHost
                        (componentNode 1 "dot" [vectorNode 2 "path" []], emptyWorld []))))) = 0.
Proof.
  destruct (outline_calls_follow_scans brokenGeometryHost
              (componentNode 1 "dot" [vectorNode 2 "path" []]) (emptyWorld []))
    as (evs & L & _ & Z).
  rewrite L. apply Z. vm_compute. reflexivity.
Defined.

(** ** Base names *)

Section BaseNameMore.

Lemma length_toUpperCase (s : string) : String.length (Str.toUpperCase s) = String.length s.
Proof. induction s as [|c s IH]; simpl; [reflexivity | now rewrite IH]. Qed.

Lemma SizeSuffix_length (s : string) : SizeSuffix s -> 2 <= String.length s <= 5.
Proof.
  intros (sep & num & unit & -> & Hsep & Hnum & Hunit). rewrite !length_append.
  assert (String.length sep <= 1) by (destruct Hsep as [-> | [-> | ->]]; simpl; lia).
  assert (String.length num = 2) by (destruct Hnum as [-> | [-> | ->]]; reflexivity).
  assert (String.length unit <= 2).
  { destruct Hunit as [-> | E]; [simpl; lia|].
    apply (f_equal String.length) in E. rewrite length_toUpperCase in E. simpl in E. lia. }
  lia.
Qed.

(** What is common to two ways of cutting a string. *)
Lemma longer_tail (a : string) :
  forall b c d, a ++ b = c ++ d -> String.length b < String.length d ->
                exists x e, d = String x e ++ b.
Proof.
  induction a as [|x a IH]; intros b c d E Hl.
  - simpl in E. subst b. rewrite length_append in Hl. lia.
  - destruct c as [|y c]; simpl in E.
    + exists x, a. now rewrite <- E.
    + injection E as _ E. eapply IH; eassumption.
Qed.

(** No size suffix is a separator and a numeral with something before them. *)
Lemma no_suffix_before_numeral (x : ascii) (e num : string) :
  num = "16" \/ num = "24" \/ num = "32" ->
  ~ SizeSuffix (String x e ++ "_" ++ num).
Proof.
  intros Hnum (sep & num' & unit & E & Hsep & Hnum' & Hunit).
  destruct Hunit as [-> | Hu].
  - apply (f_equal String.length) in E. rewrite !length_append in E.
    destruct Hsep as [-> | [-> | ->]], Hnum' as [-> | [-> | ->]], Hnum as [-> | [-> | ->]];
      simpl in E; lia.
  - destruct unit as [|u1 [|u2 [|u3 unit]]]; try discriminate Hu.
    assert (Hlen : String.length e <= 1).
    { apply (f_equal String.length) in E. rewrite !length_append in E.
      destruct Hsep as [-> | [-> | ->]], Hnum' as [-> | [-> | ->]], Hnum as [-> | [-> | ->]];
        simpl in E; lia. }
    destruct e as [|e1 [|e2 e]]; [| |simpl in Hlen; lia];
      destruct Hsep as [-> | [-> | ->]], Hnum' as [-> | [-> | ->]], Hnum as [-> | [-> | ->]];
      simpl in E; discriminate E.
Qed.

End BaseNameMore.

(** X7. For every name, the base name is the name without a tail, and the
    tail removed is either empty or one size suffix, so at most five
    characters are ever removed. *)
Theorem base_name_is_a_prefix (name : string) :
  exists suf,
    name = variantSetBase name ++ suf /\
    (suf = "" \/ SizeSuffix suf) /\
    String.length suf <= 5.
Proof.
  induction name as [|c s (suf & E & Hs & Hl)].
  - exists "". repeat split; auto. simpl. lia.
  - rewrite variantSetBase_unfold.
    destruct (Regex.matchHere sizeSuffixPattern (String c s)) as [rest|] eqn:Em.
    + apply matchHere_sizeSuffix in Em. destruct Em as (-> & Hsuf).
      exists (String c s). split; [reflexivity|]. split; [now right|].
      apply SizeSuffix_length, Hsuf.
    + exists suf. simpl. rewrite <- E. auto.
Qed.

(** X8. The name given to a size node leads back to the base name it was
    built from: for every base name and each of the sizes 16, 24 and 32,
    stripping [base_size] gives [base]. *)
Theorem size_node_name_strips_to_base (base : string) (size : nat) :
  In size sizes ->
  variantSetBase (base ++ "_" ++ Str.ofNat size) = base.
Proof.
  intros Hin. set (num := Str.ofNat size).
  assert (Hnum : num = "16" \/ num = "24" \/ num = "32").
  { unfold num. destruct Hin as [<- | [<- | [<- | []]]]; vm_compute; auto. }
  apply (variantSetBase_longest base (base ++ "_" ++ num) ("_" ++ num)).
  split; [reflexivity|]. split.
  - exists "_", num, "". rewrite append_nil_r. auto.
  - intros base' suf' E Hs.
    destruct (Nat.le_gt_cases (String.length suf') (String.length ("_" ++ num))) as [|Hgt];
      [assumption|].
    destruct (longer_tail base ("_" ++ num) base' suf' E Hgt) as (x & e & ->).
    exfalso. exact (no_suffix_before_numeral x e num Hnum Hs).
Qed.

(** X8 on the base name [home] and the size 24. *)
Lemma size_node_name_strips_to_base_witness : variantSetBase "home_24" = "home".
Proof. apply (size_node_name_strips_to_base "home" 24). simpl. auto. Defined.

(** ** Output creation, whatever the host does *)

Section OutputMore.

Variable h : Host.

Lemma stable_weaken {S A} (R R' : S -> S -> Prop) (m : M S A) :
  (forall s s', R s s' -> R' s s') -> stable R m -> stable R' m.
Proof. intros H Hm s. apply H, Hm. Qed.

Lemma extends_weaken (P P' : Event -> Prop) (w w' : World) :
  (forall e, P e -> P' e) -> extends P w w' -> extends P' w w'.
Proof.
  intros H (Hn & evs & Hl & Hq). split; [exact Hn|]. exists evs. split; [exact Hl|].
  eapply Forall_impl; [exact H | exact Hq].
Qed.

Lemma keeps_weaken (P P' : Event -> Prop) (s s' : Obj) :
  (forall e, P e -> P' e) -> keeps P s s' -> keeps P' s s'.
Proof. intros H [Sh Ex]. split; [exact Sh | eapply extends_weaken; eassumption]. Qed.

Lemma aside_keeps (P : Event -> Prop) (s s' : Obj) : aside P s s' -> keeps P s s'.
Proof. intros [E Ex]. split; [rewrite E; apply sameShell_refl | exact Ex]. Qed.

(** A [try] whose body cannot throw never runs its handler. *)
Lemma stable_tryCatch_total {S A} (R : S -> S -> Prop) (m : M S A) (hd : string -> M S A) :
  stable R m -> total m -> stable R (tryCatch m hd).
Proof.
  intros Hm Ht s. unfold tryCatch. specialize (Hm s). destruct (Ht s) as (a & Ha).
  destruct (m s) as [[a'|e] s']; simpl in *; [exact Hm | discriminate].
Qed.

Lemma stable_forEach_in {S A} (R : S -> S -> Prop) (xs : list A) (body : A -> M S unit) :
  (forall s, R s s) -> (forall a b c, R a b -> R b c -> R a c) ->
  (forall x, In x xs -> stable R (body x)) -> stable R (forEach xs body).
Proof.
  intros Rr Rt. induction xs as [|x xs IH]; intros Hb; cbn [forEach].
  - apply stable_ret, Rr.
  - apply stable_bind; [exact Rt | apply Hb; now left|]. intros _. apply IH.
    intros y Hy. apply Hb. now right.
Qed.

Lemma total_forAcc {S A B} (xs : list A) (body : B -> A -> M S B) :
  (forall acc x, total (body acc x)) -> forall acc, total (forAcc xs acc body).
Proof.
  intros Hb. induction xs as [|x xs IH]; intros acc; cbn [forAcc].
  - apply total_ret.
  - apply total_bind; auto.
Qed.

Lemma total_lift {A} (m : M World A) : total m -> total (lift m).
Proof.
  intros Hm [o w]. unfold lift. cbn [snd fst]. destruct (Hm w) as (a & Ha).
  destruct (m w) as [r w']. simpl in *. eauto.
Qed.

Lemma total_emit (e : Event) : total (emit e).
Proof. intros w. now exists tt. Qed.

Lemma total_update (f : Node -> Node) : total (update f).
Proof. intros s. now exists tt. Qed.

Lemma createComponent_extends (P : Event -> Prop) : stable (extends P) createComponent.
Proof.
  unfold createComponent. apply stable_bind; [apply extends_trans | apply freshId_extends|].
  intros id. apply stable_ret, extends_refl.
Qed.

Lemma createFrame_extends (P : Event -> Prop) : stable (extends P) createFrame.
Proof.
  unfold createFrame. apply stable_bind; [apply extends_trans | apply freshId_extends|].
  intros id. apply stable_ret, extends_refl.
Qed.

Lemma sizeVariant_aside (result : NormResult) (base : string) (size : nat) :
  stable (aside quiet) (sizeVariant h result base size).
Proof.
  unfold sizeVariant. apply stable_bind; [apply aside_trans | |].
  { unfold svgFor. destruct (r_svgs result); [apply stable_ret | apply stable_throw];
      apply aside_refl. }
  intros svgStr.
  apply stable_bind; [apply aside_trans | apply lift_aside, createComponent_extends|].
  intros comp. apply stable_tryCatch; [apply aside_trans | apply importSvg_aside|].
  intros e. apply placeholder_aside.
Qed.

Lemma updateChild_shell (id : NodeId) (f : Node -> Node) (o : Node) :
  sameShell o (updateChild id f o).
Proof.
  unfold updateChild. destruct (node_children o) eqn:E; [|apply sameShell_refl].
  apply set_children_shell. congruence.
Qed.

(** Whatever the host does, [createComponentSet] changes nothing of the frame
    but its children, and logs nothing the user sees. *)
Lemma createComponentSet_keeps (result : NormResult) :
  stable (keeps quiet) (createComponentSet h result).
Proof.
  unfold createComponentSet.
  apply stable_bind; [apply keeps_trans | |].
  { apply stable_forAcc; [apply keeps_refl | apply keeps_trans|]. intros acc size.
    apply stable_bind; [apply keeps_trans | | intros; apply stable_ret, keeps_refl].
    eapply stable_weaken; [apply aside_keeps | apply sizeVariant_aside]. }
  intros components. apply stable_bind; [apply keeps_trans | |].
  { apply stable_forEach; [apply keeps_refl | apply keeps_trans|]. intros comp.
    apply update_keeps. intros o. apply appendChild_shell. }
  intros _. apply stable_bind; [apply keeps_trans | |].
  { unfold combineAsVariants. destruct (host_combineAsVariants h components);
      [|apply stable_throw, keeps_refl].
    apply stable_bind; [apply keeps_trans | apply lift_keeps, freshId_extends|]. intros id.
    apply stable_bind; [apply keeps_trans | | intros; apply stable_ret, keeps_refl].
    apply update_keeps. intros o. destruct (node_children o) eqn:E; [|apply sameShell_refl].
    apply set_children_shell. congruence. }
  intros set. apply update_keeps. intros o. apply updateChild_shell.
Qed.


(** The same turn when the assembly cannot throw: nothing but quiet events. *)
Lemma assembleIcon_quiet (result : NormResult) :
  total (createComponentSet h result) -> stable (keeps quiet) (assembleIcon h result).
Proof.
  intros Ht. unfold assembleIcon.
  apply stable_bind; [apply keeps_trans | |].
  - apply stable_tryCatch_total; [apply createComponentSet_keeps | exact Ht].
  - intros _. apply lift_keeps, emit_extends. reflexivity.
Qed.

Lemma withObject_extends {A} (P : Event -> Prop) (o : Node) (m : M Obj A) :
  stable (keeps P) m -> stable (extends P) (withObject o m).
Proof.
  intros H w. unfold withObject. specialize (H (o, w)).
  destruct (m (o, w)) as [[a|e] [o' w']]; apply H.
Qed.

(** [createOutput] adds only events of a class that contains the quiet events
    and the notifications, provided the turns of its loop do. *)
Lemma createOutput_extends (P : Event -> Prop) (results : list NormResult) :
  (forall e, quiet e -> P e) -> (forall msg b, P (Notify msg b)) ->
  (forall result, In result (filter (fun r => isNull (r_error r)) results) ->
                  stable (keeps P) (assembleIcon h result)) ->
  stable (extends P) (createOutput h results).
Proof.
  intros HQ HN Hbody. unfold createOutput.
  assert (T := extends_trans P). assert (R := extends_refl P).
  destruct (_ =? 0); [apply emit_extends, HN|].
  apply stable_bind; [exact T | apply createFrame_extends|]. intros frame.
  apply stable_bind; [exact T | intros w; apply R|]. intros sel.
  apply stable_bind; [exact T | |].
  { apply withObject_extends.
    apply stable_forEach_in; [apply keeps_refl | apply keeps_trans | exact Hbody]. }
  intros r. apply stable_bind; [exact T | |].
  { destruct (0 <? _); [|apply stable_ret, R].
    apply stable_bind; [exact T | | intros; apply stable_ret, R].
    apply stable_forEach; [exact R | exact T|]. intros f. apply emit_extends, HQ. reflexivity. }
  intros msg. apply stable_bind; [exact T | apply emit_extends, HN|]. intros _.
  apply stable_bind; [exact T | |].
  { intros w. split; simpl; [lia|]. exists []. now rewrite app_nil_r. }
  intros _. apply emit_extends, HQ. reflexivity.
Qed.



Lemma failures_none (evs : list Event) : Forall noAssemblyFailure evs -> assemblyFailures evs = 0.
Proof.
  unfold assemblyFailures. induction 1 as [|e evs He _ IH]; [reflexivity|].
  simpl. rewrite He. exact IH.
Qed.


Lemma quiet_noAssemblyFailure (e : Event) : quiet e -> noAssemblyFailure e.
Proof. unfold noAssemblyFailure. destruct e; simpl; auto; contradiction. Qed.

(** With fonts that load and groupings that are accepted, the assembly of a
    result that carries its markup cannot throw. *)
Lemma createComponentSet_total (result : NormResult) :
  host_loadFontAsync h = Ok tt ->
  (forall comps, host_combineAsVariants h comps = Ok tt) ->
  r_svgs result <> None ->
  total (createComponentSet h result).
Proof.
  intros Hf Hc Hs. unfold createComponentSet.
  apply total_bind.
  { apply total_forAcc. intros acc size. apply total_bind; [|intros; apply total_ret].
    unfold sizeVariant. apply total_bind.
    { unfold svgFor. destruct (r_svgs result); [apply total_ret | contradiction]. }
    intros svgStr. apply total_bind.
    { apply total_lift. unfold createComponent. intros w. eexists. reflexivity. }
    intros comp. apply total_tryCatch. intros e. unfold placeholder.
    apply total_bind; [apply total_lift, total_emit|]. intros _.
    apply total_bind; [apply total_lift; intros w; eexists; reflexivity|]. intros text.
    apply total_bind; [|intros; apply total_ret].
    unfold loadFontAsync. rewrite Hf. apply total_ret. }
  intros components. apply total_bind.
  { apply total_forEach. intros comp. apply total_update. }
  intros _. apply total_bind; [|intros; apply total_update].
  unfold combineAsVariants. rewrite Hc.
  apply total_bind; [apply total_lift; intros w; eexists; reflexivity|]. intros id.
  apply total_bind; [apply total_update | intros; apply total_ret].
Qed.

End OutputMore.

(** X9. When no result of the batch carries a null error, and so also for an
    empty batch, [createOutput] only shows the error notification: it returns
    normally, creates no node and leaves the selection as it is. *)
Theorem all_failed_is_reported (h : Host) (results : list NormResult) (w : World) :
  Forall (fun r => r_error r <> None) results ->
  createOutput h results w =
    (Ok tt, logged w [Notify "All icons failed to normalize. Check console for errors." true]).
Proof.
  intros H. unfold createOutput.
  replace (filter (fun r => isNull (r_error r)) results) with (@nil NormResult); [reflexivity|].
  symmetry. induction H as [|r rs Hr _ IH]; [reflexivity|]. simpl.
  destruct (r_error r); [exact IH | contradiction].
Qed.

(** X9 on a batch of two failed icons. *)
Lemma all_failed_is_reported_witness :
  notifications
    (w_log (snd (createOutput workingHost [failedResult "home"; failedResult "star"]
                   (emptyWorld []))))
  = [("All icons failed to normalize. Check console for errors.", true)].
Proof.
  rewrite (all_failed_is_reported workingHost [failedResult "home"; failedResult "star"]
             (emptyWorld [])).
  - reflexivity.
  - repeat constructor; discriminate.
Defined.



(** X11. On a host whose fonts load and whose groupings are accepted, a batch
    of results that all carry no error and their markup gives exactly one
    variant set per result, in order, whatever [createNodeFromSvg],
    [outlineStroke] and [flatten] do: a failed import or a failed geometry
    pass never costs an icon. *)
Theorem import_and_geometry_failures_cost_no_icon
  (h : Host) (results : list NormResult) (w : World) :
  host_loadFontAsync h = Ok tt ->
  (forall comps, host_combineAsVariants h comps = Ok tt) ->
  results <> [] ->
  Forall (fun r => r_error r = None /\ r_svgs r <> None) results ->
  exists frame,
    outputContainer (snd (createOutput h results w)) = Some frame /\
    List.length (variantSets frame) = List.length results /\
    Forall2 variantSetOf results (childrenOf frame).
Proof.
  intros Hf Hc Hne Hall.
  assert (Hs : filter (fun r => isNull (r_error r)) results = results).
  { apply filter_all_successful. eapply Forall_impl; [|exact Hall]. cbv beta. tauto. }
  assert (Ex : stable (extends noAssemblyFailure) (createOutput h results)).
  { apply createOutput_extends; [apply quiet_noAssemblyFailure | intros; reflexivity|].
    rewrite Hs. intros result Hin.
    eapply stable_weaken; [intros s s'; apply keeps_weaken, quiet_noAssemblyFailure|].
    apply assembleIcon_quiet, createComponentSet_total; try assumption.
    rewrite Forall_forall in Hall. apply (Hall result Hin). }
  specialize (Ex w).
  pose proof (createOutput_post h results w) as P. cbv zeta in P. rewrite Hs in P.
  destruct (P Hne) as (frame & w' & evs & E & Ho & _ & Hl & _ & Hcount & Hsets). clear P.
  rewrite E in Ex |- *. cbn [snd] in *.
  destruct Ex as (_ & evs' & Hl' & Hq). rewrite Hl in Hl'. apply app_inv_head in Hl'. subst evs'.
  pose proof (failures_none evs Hq) as Z. rewrite Z in Hcount.
  exists frame. split; [exact Ho|]. split; [lia | apply Hsets, Z].
Qed.

(** X11 on a host whose SVG import always throws. *)
Lemma import_and_geometry_failures_cost_no_icon_witness :
  exists frame,
    outputContainer
      (snd (createOutput noImportHost [okResult "home"; okResult "star_32"] (emptyWorld [])))
    = Some frame /\
    List.length (variantSets frame) = 2.
Proof.
  destruct (import_and_geometry_failures_cost_no_icon noImportHost
              [okResult "home"; okResult "star_32"] (emptyWorld []))
    as (frame & Ho & Hn & _).
  - reflexivity.
  - reflexivity.
  - discriminate.
  - repeat constructor; discriminate.
  - exists frame. split; [exact Ho | exact Hn].
Defined.
(** ** Where the output frame is put *)

Section DoubleOrder.

(** The comparison [<] of doubles is transitive and irreflexive; with a NaN
    on either side it is false. *)
Lemma SFltb_trans (a b c : spec_float) :
  SFltb a b = true -> SFltb b c = true -> SFltb a c = true.
Proof.
  unfold SFltb, SFcompare.
  destruct a as [sa|sa| |sa ma ea], b as [sb|sb| |sb mb eb], c as [sc|sc| |sc mc ec];
    try discriminate; try reflexivity;
    repeat match goal with s : bool |- _ => destruct s end;
    try discriminate; try reflexivity;
    change (Pos.compare_cont Eq) with Pos.compare;
    destruct (Z.compare_spec ea eb), (Z.compare_spec eb ec), (Z.compare_spec ea ec);
    try discriminate; try reflexivity; try lia;
    destruct (Pos.compare_spec ma mb), (Pos.compare_spec mb mc), (Pos.compare_spec ma mc);
    simpl; try discriminate; try reflexivity; lia.
Qed.

Lemma SFltb_irrefl (a : spec_float) : SFltb a a = false.
Proof.
  unfold SFltb, SFcompare. destruct a as [s|s| |s m e]; try destruct s; try reflexivity;
    rewrite Z.compare_refl; change (Pos.compare_cont Eq) with Pos.compare;
    now rewrite Pos.compare_refl.
Qed.

Lemma ltb_trans (x y z : float) :
  (x <? y)%float = true -> (y <? z)%float = true -> (x <? z)%float = true.
Proof. rewrite !ltb_spec. apply SFltb_trans. Qed.

Lemma ltb_irrefl (x : float) : (x <? x)%float = false.
Proof. rewrite ltb_spec. apply SFltb_irrefl. Qed.

End DoubleOrder.

Section PlacementFacts.

Variable h : Host.

(** The scan of the bounding boxes from any [(maxY, minX)]: no box of the
    list reaches below the [maxY] it ends with or left of its [minX], and
    each of the two is what it was or the edge of a box of the list that
    lies beyond what it was. *)
Lemma bounds_fold (sel : list Node) :
  forall acc : float * float,
    let res :=
      fold_left
        (fun (acc : float * float) node =>
           let (maxY, minX) := acc in
           match node_absoluteBoundingBox node with
           | Some box =>
               (if (maxY <? box_y box + box_height box)%float
                then (box_y box + box_height box)%float else maxY,
                if (box_x box <? minX)%float then box_x box else minX)
           | None => acc
           end)
        sel acc in
    (forall node box, In node sel -> node_absoluteBoundingBox node = Some box ->
       (fst res <? bottom box)%float = false /\ (box_x box <? snd res)%float = false) /\
    (fst res = fst acc \/
     exists node box, In node sel /\ node_absoluteBoundingBox node = Some box /\
                      fst res = bottom box /\ (fst acc <? fst res)%float = true) /\
    (snd res = snd acc \/
     exists node box, In node sel /\ node_absoluteBoundingBox node = Some box /\
                      snd res = box_x box /\ (snd res <? snd acc)%float = true).
Proof.
  induction sel as [|n sel IH]; intros [maxY minX]; cbv zeta.
  - cbn [fold_left fst snd]. split; [intros ? ? []|]. split; now left.
  - cbn [fold_left]. destruct (node_absoluteBoundingBox n) as [b|] eqn:Eb.
    + set (maxY1 := if (maxY <? box_y b + box_height b)%float
                    then (box_y b + box_height b)%float else maxY).
      set (minX1 := if (box_x b <? minX)%float then box_x b else minX).
      specialize (IH (maxY1, minX1)). cbv zeta in IH. cbn [fst snd] in IH |- *.
      destruct IH as (A & B & C).
      assert (M1 : (maxY1 <? bottom b)%float = false /\
                   (maxY1 = maxY \/ (maxY1 = bottom b /\ (maxY <? maxY1)%float = true))).
      { unfold maxY1, bottom. destruct (maxY <? box_y b + box_height b)%float eqn:El.
        - split; [apply ltb_irrefl | right; auto].
        - split; [exact El | now left]. }
      assert (X1 : (box_x b <? minX1)%float = false /\
                   (minX1 = minX \/ (minX1 = box_x b /\ (minX1 <? minX)%float = true))).
      { unfold minX1. destruct (box_x b <? minX)%float eqn:El.
        - split; [apply ltb_irrefl | right; auto].
        - split; [exact El | now left]. }
      destruct M1 as (M1 & M2). destruct X1 as (X1 & X2).
      split; [|split].
      * intros node box [<- | Hin] Hb; [|apply (A node box Hin Hb)].
        rewrite Eb in Hb. injection Hb as <-. split.
        -- destruct B as [E | (n' & b' & _ & _ & _ & L)]; [rewrite E; exact M1|].
           match goal with
           | |- ?t = false => destruct t eqn:El; [|reflexivity]
           end.
           rewrite (ltb_trans _ _ _ L El) in M1. discriminate M1.
        -- destruct C as [E | (n' & b' & _ & _ & _ & L)]; [rewrite E; exact X1|].
           match goal with
           | |- ?t = false => destruct t eqn:El; [|reflexivity]
           end.
           rewrite (ltb_trans _ _ _ El L) in X1. discriminate X1.
      * destruct B as [E | (n' & b' & Hin & Hb & E & L)].
        -- rewrite E. destruct M2 as [E1 | (E1 & L1)]; [now left|].
           right. exists n, b. rewrite E1 in L1 |- *. auto with datatypes.
        -- right. exists n', b'. split; [now right|]. split; [exact Hb|]. split; [exact E|].
           destruct M2 as [E1 | (_ & L1)]; [rewrite <- E1; exact L | exact (ltb_trans _ _ _ L1 L)].
      * destruct C as [E | (n' & b' & Hin & Hb & E & L)].
        -- rewrite E. destruct X2 as [E1 | (E1 & L1)]; [now left|].
           right. exists n, b. rewrite E1 in L1 |- *. auto with datatypes.
        -- right. exists n', b'. split; [now right|]. split; [exact Hb|]. split; [exact E|].
           destruct X2 as [E1 | (_ & L1)]; [rewrite <- E1; exact L | exact (ltb_trans _ _ _ L L1)].
    + specialize (IH (maxY, minX)). cbv zeta in IH. cbn [fst snd] in IH |- *.
      destruct IH as (A & B & C). split; [|split].
      * intros node box [<- | Hin] Hb; [congruence | apply (A node box Hin Hb)].
      * destruct B as [E | (n' & b' & Hin & Hb & E)]; [now left|].
        right. exists n', b'. auto with datatypes.
      * destruct C as [E | (n' & b' & Hin & Hb & E)]; [now left|].
        right. exists n', b'. auto with datatypes.
Qed.

(** The bounds of a selection. *)
Lemma selectionBounds_spec (sel : list Node) :
  let maxY := fst (selectionBounds sel) in
  let minX := snd (selectionBounds sel) in
  (forall node box, In node sel -> node_absoluteBoundingBox node = Some box ->
     (maxY <? bottom box)%float = false /\ (box_x box <? minX)%float = false) /\
  (maxY = neg_infinity \/
   exists node box, In node sel /\ node_absoluteBoundingBox node = Some box /\
                    maxY = bottom box /\ (neg_infinity <? maxY)%float = true) /\
  (minX = infinity \/
   exists node box, In node sel /\ node_absoluteBoundingBox node = Some box /\
                    minX = box_x box /\ (minX <? infinity)%float = true).
Proof. apply (bounds_fold sel (neg_infinity, infinity)). Qed.

(** The position is written when some box has a lower edge above
    [-Infinity], and only then. *)
Lemma selectionBounds_written (sel : list Node) :
  (neg_infinity <? fst (selectionBounds sel))%float = true <->
  exists node box, In node sel /\ node_absoluteBoundingBox node = Some box /\
                   (neg_infinity <? bottom box)%float = true.
Proof.
  destruct (selectionBounds_spec sel) as (A & B & _). split.
  - intros L. destruct B as [E | (n & b & Hin & Hb & E & _)].
    + rewrite E in L. vm_compute in L. discriminate L.
    + exists n, b. rewrite <- E. auto.
  - intros (n & b & Hin & Hb & L). destruct B as [E | (_ & _ & _ & _ & _ & L')]; [|exact L'].
    destruct (A n b Hin Hb) as (A1 & _). rewrite E in A1. congruence.
Qed.

(** The position written to the output frame survives the assembly loop. *)
Lemma createOutput_frame_position (results : list NormResult) (w : World) :
  filter (fun r => isNull (r_error r)) results <> [] ->
  exists frame,
    outputContainer (snd (createOutput h results w)) = Some frame /\
    if (neg_infinity <? fst (selectionBounds (w_selection w)))%float
    then prop "x" frame = Some (VNum (snd (selectionBounds (w_selection w)))) /\
         prop "y" frame = Some (VNum (fst (selectionBounds (w_selection w)) + 80))
    else prop "x" frame = None /\ prop "y" frame = None.
Proof.
  intros Hne. unfold createOutput.
  set (successResults := filter (fun r => isNull (r_error r)) results) in *.
  set (failedResults := filter (fun r => negb (isNull (r_error r))) results).
  destruct (Nat.eqb_spec (List.length successResults) 0) as [E|_];
    [destruct successResults; [contradiction | discriminate]|].
  unfold bind at 1, createFrame, bind at 1, freshId, ret at 1. cbn [fst snd].
  unfold bind at 1, selection at 1.
  match goal with
  | |- context [withObject ?o _] => set (frame0 := o)
  end.
  set (w1 := mkWorld (S (w_next w)) (w_removed w) (w_selection w) (w_log w)).
  cbn [fst snd w_selection].
  assert (Ec0 : node_children frame0 = Some []).
  { unfold frame0. destruct (0 <? _);
      [destruct (selectionBounds _) as [maxY minX]; destruct (_ <? _)%float|]; reflexivity. }
  assert (Ep0 : if (neg_infinity <? fst (selectionBounds (w_selection w)))%float
                then prop "x" frame0 = Some (VNum (snd (selectionBounds (w_selection w)))) /\
                     prop "y" frame0 = Some (VNum (fst (selectionBounds (w_selection w)) + 80))
                else prop "x" frame0 = None /\ prop "y" frame0 = None).
  { unfold frame0. cbn [w_selection]. destruct (w_selection w) as [|n sel].
    - vm_compute. split; reflexivity.
    - cbn [List.length Nat.ltb Nat.leb]. destruct (selectionBounds (n :: sel)) as [maxY minX].
      cbn [fst snd]. destruct (neg_infinity <? maxY)%float; split; reflexivity. }
  pose proof (assemble_loop_post h successResults frame0 w1 [] Ec0 (Forall_nil _)) as L.
  unfold post in L. unfold bind at 1, withObject.
  destruct (forEach successResults (assembleIcon h) (frame0, w1)) as [r [f2 w2]].
  cbn [fst snd] in L. destruct L as (-> & Sh & _). cbn [fst snd].
  destruct (report_message failedResults (List.length successResults) w2) as (warns & Qw & Em).
  unfold bind at 1. rewrite Em.
  unfold bind, notify, emit, setSelection, modify, logged. cbn [fst snd w_log w_next w_removed].
  exists f2. split; [reflexivity|].
  destruct Sh as (_ & _ & _ & _ & _ & Hp & _). unfold prop in *. rewrite Hp. exact Ep0.
Qed.

End PlacementFacts.

(** X12. When at least one result carries no error, the output frame is
    placed under the selection, in the arithmetic and with the comparison of
    doubles.  With [maxY] and [minX] as the scan of the bounding boxes leaves
    them: no selected box has its lower edge [y + height] below [maxY] or its
    left edge left of [minX]; [maxY] is the lower edge of a selected box
    unless it is still [-Infinity], and [minX] the left edge of one unless it
    is still [Infinity].  The position [x = minX], [y = maxY + 80] is written
    when some selected box has a lower edge above [-Infinity], and no
    position is written otherwise: not for a selection without boxes, and not
    when every lower edge is NaN or [-Infinity].  The host has no say in it. *)
Theorem output_is_placed_under_the_selection
  (h : Host) (results : list NormResult) (w : World) :
  filter (fun r => isNull (r_error r)) results <> [] ->
  exists frame maxY minX,
    outputContainer (snd (createOutput h results w)) = Some frame /\
    (forall node box, In node (w_selection w) -> node_absoluteBoundingBox node = Some box ->
       (maxY <? bottom box)%float = false /\ (box_x box <? minX)%float = false) /\
    (maxY = neg_infinity \/
     exists node box, In node (w_selection w) /\ node_absoluteBoundingBox node = Some box /\
                      maxY = bottom box) /\
    (minX = infinity \/
     exists node box, In node (w_selection w) /\ node_absoluteBoundingBox node = Some box /\
                      minX = box_x box) /\
    ((exists node box, In node (w_selection w) /\ node_absoluteBoundingBox node = Some box /\
                       (neg_infinity <? bottom box)%float = true) ->
     prop "x" frame = Some (VNum minX) /\ prop "y" frame = Some (VNum (maxY + 80))) /\
    ((forall node box, In node (w_selection w) -> node_absoluteBoundingBox node = Some box ->
                       (neg_infinity <? bottom box)%float = false) ->
     prop "x" frame = None /\ prop "y" frame = None).
Proof.
  intros Hne. destruct (createOutput_frame_position h results w Hne) as (frame & Ho & Hp).
  destruct (selectionBounds_spec (w_selection w)) as (A & B & C).
  pose proof (selectionBounds_written (w_selection w)) as W.
  exists frame, (fst (selectionBounds (w_selection w))), (snd (selectionBounds (w_selection w))).
  split; [exact Ho|]. split; [exact A|]. split; [|split; [|split]].
  - destruct B as [E | (n & b & Hin & Hb & E & _)]; [now left | right; eauto].
  - destruct C as [E | (n & b & Hin & Hb & E & _)]; [now left | right; eauto].
  - intros Hex. apply W in Hex. rewrite Hex in Hp. exact Hp.
  - intros Hall. destruct (neg_infinity <? fst (selectionBounds (w_selection w)))%float eqn:El;
      [|exact Hp].
    destruct (proj1 W eq_refl) as (n & b & Hin & Hb & L). rewrite (Hall n b Hin Hb) in L.
    discriminate L.
Qed.

(** X12 on a selection of two boxes with fractional edges: the frame goes to
    [x = 0.1], [y = (0.1 + 33.7) + 80], which is 113.80000000000001. *)
Lemma output_is_placed_under_the_selection_witness :
  exists frame,
    outputContainer
      (snd (createOutput workingHost [okResult "home"]
              (emptyWorld [boxedNode 1 40 5 24 24; boxedNode 2 0.1 0.1 20 33.7])))
    = Some frame /\
    prop "x" frame = Some (VNum 0.1) /\ prop "y" frame = Some (VNum 113.80000000000001).
Proof.
  destruct (output_is_placed_under_the_selection workingHost [okResult "home"]
              (emptyWorld [boxedNode 1 40 5 24 24; boxedNode 2 0.1 0.1 20 33.7]))
    as (frame & maxY & minX & Ho & _).
  - discriminate.
  - exists frame. split; [exact Ho|].
    vm_compute in Ho. injection Ho as <-. vm_compute. split; reflexivity.
Defined.

Section PlaceholderFacts.

Variable h : Host.

(** The size node up to the [try]. *)
Lemma sizeVariant_unfold (result : NormResult) (base : string) (size : nat)
      (svgs : list (nat * string)) (f : Node) (w : World) :
  r_svgs result = Some svgs ->
  sizeVariant h result base size (f, w) =
  let comp :=
    set_prop "fills" (VPaints [])
      (set_prop "clipsContent" (VBool true)
         (resize (numberOf size) (numberOf size)
            (set_name (base ++ "_" ++ Str.ofNat size)
               (newNode (w_next w) COMPONENT "Component")))) in
  tryCatch
    (importSvg h (option_map snd (find (fun kv => fst kv =? size) svgs)) comp)
    (placeholder h result size comp)
    (f, mkWorld (S (w_next w)) (w_removed w) (w_selection w) (w_log w)).
Proof.
  intros Hs. unfold sizeVariant, svgFor. rewrite Hs. reflexivity.
Qed.

Lemma importSvg_throws (svgStr : option string) (comp : Node) (e : string) (s : Obj) :
  host_createNodeFromSvg h svgStr = Throw e ->
  importSvg h svgStr comp s = (Throw e, s).
Proof.
  intros H. unfold importSvg, bind at 1, createNodeFromSvg. rewrite H. reflexivity.
Qed.

End PlaceholderFacts.

(** X13. When the import of the markup of one of the three sizes throws, the
    size node is still built under its name and with its size, and holds one
    text node with the character [?] whose font size is [size * 0.6] in the
    double arithmetic of the language: 9.6, 14.399999999999999 and 19.2 for
    the sizes 16, 24 and 32.  The failure goes to the console.  This needs
    the font: when loading it throws as well, building the size node throws
    that error. *)
Theorem failed_import_leaves_a_placeholder
  (h : Host) (result : NormResult) (base : string) (size : nat)
  (svgs : list (nat * string)) (e : string) (f : Node) (w : World) :
  In size sizes ->
  r_svgs result = Some svgs ->
  host_createNodeFromSvg h (option_map snd (find (fun kv => fst kv =? size) svgs)) = Throw e ->
  (host_loadFontAsync h = Ok tt ->
   exists comp text,
     fst (sizeVariant h result base size (f, w)) = Ok comp /\
     node_name comp = base ++ "_" ++ Str.ofNat size /\
     node_width comp = numberOf size /\
     childrenOf comp = [text] /\
     node_type text = TEXT /\
     prop "characters" text = Some (VStr "?") /\
     prop "fontSize" text = Some (VNum (numberOf size * 0.6)) /\
     In (numberOf size * 0.6)%float [9.6; 14.399999999999999; 19.2]%float /\
     eventsAfter (List.length (w_log w)) (snd (snd (sizeVariant h result base size (f, w)))) =
       [ConsoleError ("createNodeFromSvg failed for " ++ r_name result ++ " at "
                      ++ Str.ofNat size ++ "dp:") e]) /\
  (forall e', host_loadFontAsync h = Throw e' ->
              fst (sizeVariant h result base size (f, w)) = Throw e').
Proof.
  intros Hsize Hs Hi. rewrite (sizeVariant_unfold h result base size svgs f w Hs). cbv zeta.
  unfold tryCatch. rewrite (importSvg_throws h _ _ e _ Hi).
  unfold placeholder, bind, lift, consoleError, emit, modify, createText, freshId, ret,
    loadFontAsync. cbn [fst snd].
  split.
  - intros Hf. rewrite Hf. cbn [fst snd]. do 2 eexists.
    split; [reflexivity|]. split; [reflexivity|]. split; [reflexivity|].
    split; [reflexivity|]. split; [reflexivity|]. split; [reflexivity|]. split; [reflexivity|].
    split; [|apply eventsAfter_logged; reflexivity].
    destruct Hsize as [<- | [<- | [<- | []]]]; vm_compute; auto.
  - intros e' Hf. rewrite Hf. reflexivity.
Qed.

(** X13 on a host whose SVG import always throws, at the size 24. *)
Lemma failed_import_leaves_a_placeholder_witness :
  exists comp text,
    fst (sizeVariant noImportHost (okResult "home") "home" 24
           (frameNode 1 "Normalized Icons" [], emptyWorld [])) = Ok comp /\
    childrenOf comp = [text] /\
    prop "characters" text = Some (VStr "?") /\
    prop "fontSize" text = Some (VNum 14.399999999999999).
Proof.
  destruct (failed_import_leaves_a_placeholder noImportHost (okResult "home") "home" 24
              [(16, "<svg16/>"); (24, "<svg24/>"); (32, "<svg32/>")] "invalid SVG"
              (frameNode 1 "Normalized Icons" []) (emptyWorld [])
              (or_intror (or_introl eq_refl)) eq_refl eq_refl)
    as (Hp & _).
  destruct (Hp eq_refl) as (comp & text & E & _ & _ & Ec & _ & Hc & Hs & _).
  exists comp, text. auto.
Defined.

(** ** Variant sets when some assemblies throw *)

(** X14. On a frame whose children were created earlier, [createComponentSet]
    either returns, and then the frame has exactly one more child, the
    variant set of the result, after the children it had; or it throws, and
    then the children it had are still there and nothing that was added is a
    variant set.  The name and the presentation properties of the frame are
    untouched either way. *)
Theorem assembly_adds_one_variant_set_or_none
  (h : Host) (result : NormResult) (f : Node) (w : World) (cs : list Node) :
  node_children f = Some cs ->
  Forall (fun c => node_id c < w_next w) cs ->
  let run := createComponentSet h result (f, w) in
  node_name (fst (snd run)) = node_name f /\
  node_props (fst (snd run)) = node_props f /\
  match fst run with
  | Ok _ =>
      exists set,
        node_children (fst (snd run)) = Some (cs ++ [set])%list /\ variantSetOf result set
  | Throw _ =>
      exists added,
        node_children (fst (snd run)) = Some (cs ++ added)%list /\
        filter isVariantSet added = []
  end.
Proof.
  intros Ec Hcs run. pose proof (createComponentSet_post h result f w cs Ec Hcs) as P.
  unfold post in P. fold run in P. destruct P as (Sh & _ & Hr).
  destruct Sh as (_ & _ & Hn & _ & _ & Hp & _). split; [exact Hn|]. split; [exact Hp|].
  destruct (fst run).
  - destruct Hr as (set & E & Hs & _). eauto.
  - destruct Hr as (junk & E & Hj). exists junk. split; [exact E|].
    clear -Hj. induction Hj as [|c junk [Hc _] _ IH]; [reflexivity|]. simpl. now rewrite Hc.
Qed.

(** X14 on a host that refuses the grouping: three components are added, no
    variant set. *)
Lemma assembly_adds_one_variant_set_or_none_witness :
  exists added,
    node_children
      (fst (snd (createComponentSet noVariantsHost (okResult "home")
                   (frameNode 1 "Normalized Icons" [], emptyWorld []))))
    = Some added /\
    filter isVariantSet added = [] /\ List.length added = 3.
Proof.
  pose proof (assembly_adds_one_variant_set_or_none noVariantsHost (okResult "home")
                (frameNode 1 "Normalized Icons" []) (emptyWorld []) [] eq_refl (Forall_nil _))
    as (_ & _ & H).
  cbv zeta in H.
  assert (E : fst (createComponentSet noVariantsHost (okResult "home")
                     (frameNode 1 "Normalized Icons" [], emptyWorld []))
              = Throw "combineAsVariants failed") by (vm_compute; reflexivity).
  rewrite E in H. destruct H as (added & Ha & Hf). exists added.
  split; [exact Ha|]. split; [exact Hf|].
  vm_compute in Ha. injection Ha as <-. reflexivity.
Defined.

Section PartialAssembly.

Variable h : Host.

Lemma Forall2_single {A B : Type} (R : A -> B -> Prop) (a : A) (l : list B) :
  Forall2 R [a] l -> exists b, l = [b] /\ R a b.
Proof.
  intros H. inversion H as [|? b ? l' Hab Hl]; subst. inversion Hl; subst. eauto.
Qed.

Lemma assemblyFailureMessages_app (a b : list Event) :
  assemblyFailureMessages (a ++ b) = (assemblyFailureMessages a ++ assemblyFailureMessages b)%list.
Proof. unfold assemblyFailureMessages. apply flat_map_app. Qed.

Lemma assemblyFailureMessages_quiet (evs : list Event) :
  Forall quiet evs -> assemblyFailureMessages evs = [].
Proof.
  induction 1 as [|e evs He _ IH]; [reflexivity|].
  destruct e; simpl in *; try contradiction; try rewrite He; exact IH.
Qed.

(** One turn of the loop, by what [createComponentSet] did. *)
Lemma assembleIcon_turn (result : NormResult) (f : Node) (w : World) :
  assembleIcon h result (f, w) =
  let run := createComponentSet h result (f, w) in
  (Ok tt,
   (fst (snd run),
    logged (snd (snd run))
      match fst run with
      | Ok _ => [Delay 5]
      | Throw e => [ConsoleError (assemblyFailureOf result) e; Delay 5]
      end)).
Proof.
  unfold assembleIcon, bind, tryCatch. cbv zeta.
  destruct (createComponentSet h result (f, w)) as [[[]|e] [f1 w1]]; cbn [fst snd].
  - reflexivity.
  - unfold lift, consoleError, emit, modify, logged, assemblyFailureOf.
    cbn [fst snd w_log w_next w_removed w_selection]. now rewrite <- app_assoc.
Qed.

(** The loop over the results: the variant sets it adds are those of the
    results whose assembly returned, in order, and the failures on the
    console name the other results, in order. *)
Lemma assemble_loop_outcomes (results : list NormResult) :
  forall (f : Node) (w : World) (cs : list Node),
    node_children f = Some cs ->
    Forall (fun c => node_id c < w_next w) cs ->
    exists f' w' evs out,
      forEach results (assembleIcon h) (f, w) = (Ok tt, (f', w')) /\
      w_log w' = (w_log w ++ evs)%list /\
      node_children f' = Some (cs ++ out)%list /\
      Forall2 variantSetOf (assembled (assemblyOutcomes h results (f, w)))
              (filter isVariantSet out) /\
      assemblyFailureMessages evs =
        map assemblyFailureOf (dropped (assemblyOutcomes h results (f, w))).
Proof.
  induction results as [|result results IH]; intros f w cs Ec Hcs.
  - exists f, w, [], []. rewrite !app_nil_r. repeat split; try assumption. constructor.
  - cbn [forEach assemblyOutcomes]. unfold bind. rewrite assembleIcon_turn. cbv zeta.
    pose proof (createComponentSet_post h result f w cs Ec Hcs) as P. unfold post in P.
    destruct (createComponentSet h result (f, w)) as [[[]|e] [f1 w1]]; cbn [fst snd] in P |- *;
      destruct P as (_ & (Hn & evs1 & Hl1 & Hq1) & Hr);
      pose proof (assemblyFailureMessages_quiet evs1 Hq1) as Z1.
    + destruct Hr as (set & Ec1 & Hset & Hid).
      destruct (IH f1 (logged w1 [Delay 5]) (cs ++ [set])%list Ec1) as
        (f' & w' & evs2 & out2 & E & L2 & Ec2 & Hsets & Hmsgs).
      { apply Forall_app. split; [|apply Forall_cons; [exact Hid | apply Forall_nil]].
        eapply Forall_impl; [|exact Hcs]. cbv beta. simpl. intros. lia. }
      exists f', w', (evs1 ++ Delay 5 :: evs2)%list, (set :: out2).
      rewrite E, L2, Ec2. cbn [logged w_log isThrow negb]. rewrite Hl1, <- !app_assoc.
      split; [reflexivity|]. split; [reflexivity|]. split; [reflexivity|].
      unfold assembled, dropped. cbn [filter snd negb map fst].
      split.
      * destruct (variantSetOf_sizes result set Hset) as (-> & _). constructor; assumption.
      * rewrite assemblyFailureMessages_app, Z1. exact Hmsgs.
    + destruct Hr as (junk & Ec1 & Hj).
      destruct (IH f1 (logged w1 [ConsoleError (assemblyFailureOf result) e; Delay 5])
                  (cs ++ junk)%list Ec1) as
        (f' & w' & evs2 & out2 & E & L2 & Ec2 & Hsets & Hmsgs).
      { apply Forall_app. split.
        - eapply Forall_impl; [|exact Hcs]. cbv beta. simpl. intros. lia.
        - eapply Forall_impl; [|exact Hj]. cbv beta. simpl. tauto. }
      exists f', w',
        (evs1 ++ ConsoleError (assemblyFailureOf result) e :: Delay 5 :: evs2)%list,
        (junk ++ out2)%list.
      rewrite E, L2, Ec2. cbn [logged w_log isThrow negb]. rewrite Hl1, <- !app_assoc.
      split; [reflexivity|]. split; [reflexivity|]. split; [reflexivity|].
      unfold assembled, dropped. cbn [filter snd negb map fst].
      split.
      * rewrite filter_app.
        replace (filter isVariantSet junk) with (@nil Node); [exact Hsets|].
        clear -Hj. induction Hj as [|c junk [Hc _] _ IH]; [reflexivity|]. simpl. now rewrite Hc.
      * rewrite assemblyFailureMessages_app, Z1. cbn [app].
        change (assemblyFailureMessages
                  (ConsoleError (assemblyFailureOf result) e :: Delay 5 :: evs2))
          with ((if isAssemblyFailure (ConsoleError (assemblyFailureOf result) e)
                 then [assemblyFailureOf result] else []) ++ assemblyFailureMessages evs2)%list.
        replace (isAssemblyFailure (ConsoleError (assemblyFailureOf result) e)) with true
          by reflexivity.
        cbn [app]. now rewrite Hmsgs.
Qed.

End PartialAssembly.

(** X15. Whatever the host does, the loop of [createOutput] over the results
    returns normally, and what it leaves is tied to the turns in which the
    assembly returned: the variant sets it added to the container belong,
    one to one and in order, to the results whose [createComponentSet] call
    returned, and the assembly failures on the console name, one to one and
    in order, the results whose call threw. *)
Theorem variant_sets_follow_the_results
  (h : Host) (results : list NormResult) (f : Node) (w : World) (cs : list Node) :
  node_children f = Some cs ->
  Forall (fun c => node_id c < w_next w) cs ->
  let run := forEach results (assembleIcon h) (f, w) in
  let outcomes := assemblyOutcomes h results (f, w) in
  fst run = Ok tt /\
  List.length outcomes = List.length results /\
  exists added,
    node_children (fst (snd run)) = Some (cs ++ added)%list /\
    Forall2 variantSetOf (assembled outcomes) (filter isVariantSet added) /\
    assemblyFailureMessages (eventsAfter (List.length (w_log w)) (snd (snd run))) =
      map assemblyFailureOf (dropped outcomes).
Proof.
  intros Ec Hcs run outcomes.
  destruct (assemble_loop_outcomes h results f w cs Ec Hcs)
    as (f' & w' & evs & out & E & L & Ec' & Hsets & Hmsgs).
  unfold run. rewrite E. cbn [fst snd].
  split; [reflexivity|]. split.
  - unfold outcomes. clear. generalize (f, w). induction results as [|r rs IH]; intros s;
      [reflexivity|]. cbn [assemblyOutcomes List.length]. now rewrite IH.
  - exists out. split; [exact Ec'|]. split; [exact Hsets|].
    rewrite (eventsAfter_logged w w' evs L). exact Hmsgs.
Qed.

(** X15 on two results with the same base name, on a host that refuses the
    first grouping and accepts the second: the one variant set is that of
    the second result, and the console names the first. *)
Lemma variant_sets_follow_the_results_witness :
  exists set,
    variantSets
      (fst (snd (forEach [okResult "home"; okResult "home_24"] (assembleIcon secondGroupingHost)
                   (frameNode 1 "Normalized Icons" [], emptyWorld [])))) = [set] /\
    variantSetOf (okResult "home_24") set /\
    assemblyFailureMessages
      (w_log (snd (snd (forEach [okResult "home"; okResult "home_24"]
                          (assembleIcon secondGroupingHost)
                          (frameNode 1 "Normalized Icons" [], emptyWorld [])))))
    = [assemblyFailureOf (okResult "home")].
Proof.
  pose proof (variant_sets_follow_the_results secondGroupingHost
                [okResult "home"; okResult "home_24"] (frameNode 1 "Normalized Icons" [])
                (emptyWorld []) [] eq_refl (Forall_nil _)) as H.
  cbv zeta in H. destruct H as (_ & _ & added & Ea & Hsets & _).
  assert (Eo : assemblyOutcomes secondGroupingHost [okResult "home"; okResult "home_24"]
                 (frameNode 1 "Normalized Icons" [], emptyWorld [])
               = [(okResult "home", false); (okResult "home_24", true)])
    by (vm_compute; reflexivity).
  rewrite Eo in Hsets. unfold assembled in Hsets. cbn [filter snd map fst] in Hsets.
  destruct (Forall2_single _ _ _ Hsets) as (set & Es & Hset).
  unfold variantSets, childrenOf. rewrite Ea. cbn [app].
  exists set. split; [exact Es|]. split; [exact Hset|].
  vm_compute. reflexivity.
Defined.
